(** * Multimodal routing: graph construction, interlayer linking, segment assembly

    A shallow embedding of the routing core of the repository
    ([backend_multimodal_graph.py], [backend_router.py], [utils_py.py]).

    Modelling conventions.
    - Node identifiers are Python strings such as ["42_walk"].
    - Python floats are modelled by exact rationals [Q]; the comparison
      operators of the source ([==], [<], [<=]) are the numeric ones
      ([Qeq_bool], [Qle_bool]).  IEEE special values are outside the model.
    - Attribute dictionaries are records of optional fields: a field is
      [None] when the key is absent from the dictionary.  Only the keys the
      code reads or writes are kept (['y'], ['x'] on nodes; ['mode'],
      ['time'], ['weight'], ['length'] on edges).
    - The builder works on networkx [MultiDiGraph]s ([Graph]): the node
      table and the list of the edges in insertion order, each edge carrying
      its integer key.  The key dictionary of the edges from [u] to [v] is
      the sublist of these edges, in the same order.
    - The router takes the graph [build] returns ([AnyGraph]): the
      [MultiDiGraph] it has assembled, or what [networkx.read_graphml] made
      of the cache file, which is a [MultiDiGraph] when the file holds
      parallel edges and a plain [DiGraph] when it holds none.  The cache
      file is a directed graph, as [build] writes it.
    - The source mutates graphs in place; the embedding returns the graph
      after the update.
    - Code that can raise returns a [result].
    - [geopy.distance.geodesic] and [networkx.shortest_path] are external
      libraries: the code is parameterised over them, and the properties of
      [shortest_path] that a theorem relies on are stated as hypotheses. *)

From Stdlib Require Import List String Ascii Bool Arith ZArith QArith Qround Qabs Lia.
From Stdlib Require Import Permutation.
Import ListNotations.
Close Scope Q_scope.

Set Implicit Arguments.

(** ** Exceptions and the error monad *)

Inductive exn : Type :=
| ValueError (msg : string)
| KeyError (key : string)
| ZeroDivisionError
| AttributeError
| IndexError.

Inductive result (A : Type) : Type :=
| Ok (a : A)
| Raise (e : exn).

Arguments Ok {A} a.
Arguments Raise {A} e.

Definition bind {A B : Type} (r : result A) (k : A -> result B) : result B :=
  match r with
  | Ok a => k a
  | Raise e => Raise e
  end.

Notation "x <- r ;; k" := (bind r (fun x => k))
  (at level 61, r at next level, right associativity).

(** ** Data model *)

Definition node : Type := string.
Bind Scope string_scope with node.

(** A coordinate pair [(lat, lon)], i.e. [(y, x)]. *)
Definition coord : Type := (Q * Q)%type.

Record NodeData : Type := mkNodeData {
  nd_y : option Q;
  nd_x : option Q
}.

Record EdgeData : Type := mkEdgeData {
  ed_mode : option string;
  ed_time : option Q;
  ed_weight : option Q;
  ed_length : option Q
}.

(** The empty attribute dictionary [{}]. *)
Definition empty_attrs : EdgeData := mkEdgeData None None None None.

Record Edge : Type := mkEdge {
  e_src : node;
  e_dst : node;
  e_key : nat;
  e_data : EdgeData
}.

Record Graph : Type := mkGraph {
  g_nodes : list (node * NodeData);
  g_edges : list Edge
}.

Record Segment : Type := mkSegment {
  seg_mode : string;
  seg_coords : list coord;
  seg_time : Q;
  seg_cost : Z
}.

Record Route : Type := mkRoute {
  total_time : Q;
  total_cost : Z;
  segments : list Segment
}.

(** ** Python dictionaries with insertion order *)

Section Dict.
Variable V : Type.

Fixpoint dict_get (k : string) (d : list (string * V)) : option V :=
  match d with
  | [] => None
  | (k', v) :: rest => if String.eqb k k' then Some v else dict_get k rest
  end.

(** [d[k] = v]: an existing key keeps its place, a new key goes last. *)
Fixpoint dict_set (k : string) (v : V) (d : list (string * V)) : list (string * V) :=
  match d with
  | [] => [(k, v)]
  | (k', v') :: rest =>
      if String.eqb k k' then (k, v) :: rest else (k', v') :: dict_set k v rest
  end.
End Dict.

(** ** networkx.MultiDiGraph *)

Definition connects (u v : node) (e : Edge) : bool :=
  String.eqb (e_src e) u && String.eqb (e_dst e) v.

(** [G._adj[u][v]]: the key dictionary of the parallel edges from [u] to [v]. *)
Definition keydict (g : Graph) (u v : node) : list (nat * EdgeData) :=
  map (fun e => (e_key e, e_data e)) (filter (connects u v) (g_edges g)).

(** [G.get_edge_data(u, v)]: the key dictionary, or [None] without an edge.
    An adjacency entry is never empty, so the dictionary is returned as its
    first item and the rest. *)
Definition get_edge_data (g : Graph) (u v : node)
  : option ((nat * EdgeData) * list (nat * EdgeData)) :=
  match keydict g u v with
  | [] => None
  | first :: rest => Some (first, rest)
  end.

Fixpoint key_lookup (k : nat) (kd : list (nat * EdgeData)) : option EdgeData :=
  match kd with
  | [] => None
  | (k', d) :: rest => if Nat.eqb k k' then Some d else key_lookup k rest
  end.

(** [while key in keydict: key += 1], at most [fuel] increments. *)
Fixpoint bump_key (fuel key : nat) (kd : list (nat * EdgeData)) : nat :=
  match key_lookup key kd with
  | None => key
  | Some _ =>
      match fuel with
      | O => key
      | S fuel' => bump_key fuel' (S key) kd
      end
  end.

(** [G.new_edge_key(u, v)]. *)
Definition new_edge_key (g : Graph) (u v : node) : nat :=
  match keydict g u v with
  | [] => 0
  | kd => bump_key (List.length kd) (List.length kd) kd
  end.

Definition has_node (g : Graph) (n : node) : bool :=
  existsb (fun p => String.eqb (fst p) n) (g_nodes g).

Definition add_node (g : Graph) (n : node) : Graph :=
  if has_node g n then g
  else mkGraph (g_nodes g ++ [(n, mkNodeData None None)]) (g_edges g).

(** [G.add_edge(u, v, **attr)] with no key given: a new parallel edge. *)
Definition add_edge (g : Graph) (u v : node) (attr : EdgeData) : Graph :=
  let k := new_edge_key g u v in
  let g' := add_node (add_node g u) v in
  mkGraph (g_nodes g') (g_edges g' ++ [mkEdge u v k attr]).

(** ** networkx.DiGraph *)

(** An edge of a plain [DiGraph]: it has no key, and its attribute
    dictionary holds the attributes of [de_data] and, beside them, the
    attributes named in [de_other]. *)
Record DiEdge : Type := mkDiEdge {
  de_src : node;
  de_dst : node;
  de_data : EdgeData;
  de_other : list string
}.

Record PlainGraph : Type := mkPlainGraph {
  pg_nodes : list (node * NodeData);
  pg_edges : list DiEdge
}.

Definition joins (u v : node) (e : DiEdge) : bool :=
  String.eqb (de_src e) u && String.eqb (de_dst e) v.

(** [G.get_edge_data(u, v)] on a [DiGraph]: the attribute dictionary of the
    edge from [u] to [v], or [None] without one. *)
Definition plain_get_edge_data (g : PlainGraph) (u v : node) : option DiEdge :=
  find (joins u v) (pg_edges g).

(** [len(d) == 0] for the attribute dictionary [d] of the edge. *)
Definition no_attrs (e : DiEdge) : bool :=
  match ed_mode (de_data e), ed_time (de_data e),
        ed_weight (de_data e), ed_length (de_data e), de_other e with
  | None, None, None, None, [] => true
  | _, _, _, _, _ => false
  end.

(** ** The graph handed to the router *)

Inductive AnyGraph : Type :=
| MultiDiGraph (g : Graph)
| DiGraph (g : PlainGraph).

(** [G.nodes(data=True)]. *)
Definition nodes (G : AnyGraph) : list (node * NodeData) :=
  match G with
  | MultiDiGraph g => g_nodes g
  | DiGraph g => pg_nodes g
  end.

(** [G.nodes[n]]. *)
Definition node_data (G : AnyGraph) (n : node) : result NodeData :=
  match dict_get n (nodes G) with
  | Some d => Ok d
  | None => Raise (KeyError n)
  end.

(** The attribute dictionaries of [G.edges(data=True)]. *)
Definition edges_data (G : AnyGraph) : list EdgeData :=
  match G with
  | MultiDiGraph g => map e_data (g_edges g)
  | DiGraph g => map de_data (pg_edges g)
  end.

(** The edges as [(source, target, time)], the time being [1] by default:
    what a search by ['time'] works with. *)
Definition arcs (G : AnyGraph) : list (node * node * Q) :=
  match G with
  | MultiDiGraph g =>
      map (fun e => (e_src e, e_dst e, match ed_time (e_data e) with
                                       | Some t => t
                                       | None => 1%Q
                                       end)) (g_edges g)
  | DiGraph g =>
      map (fun e => (de_src e, de_dst e, match ed_time (de_data e) with
                                         | Some t => t
                                         | None => 1%Q
                                         end)) (pg_edges g)
  end.

(** ** utils_py.py *)

(** [calc_cost(mode, time_minutes)]. *)
Definition calc_cost (mode : string) (time_minutes : Q) : Z :=
  if String.eqb mode "car" then 20
  else if String.eqb mode "bike" then 0
  else if String.eqb mode "walk" then 0
  else if String.eqb mode "transfer" then 0
  else 0.

(** [s.split('_')[0]]. *)
Fixpoint original_id (s : string) : string :=
  match s with
  | EmptyString => EmptyString
  | String c rest =>
      if Ascii.eqb c "_"%char then EmptyString else String c (original_id rest)
  end.

(** Python's [round(x, 1)] on an exact value: to the nearest tenth, ties to
    the even tenth. *)
Definition round_half_even (q : Q) : Z :=
  let fl := Qfloor q in
  let r := (q - inject_Z fl)%Q in
  match (r ?= 1 # 2)%Q with
  | Lt => fl
  | Gt => (fl + 1)%Z
  | Eq => if Z.even fl then fl else (fl + 1)%Z
  end.

Definition round1 (q : Q) : Q :=
  Qred (inject_Z (round_half_even (q * 10)) / 10).

(** [round(c, 0)] on a Python [int] returns the same [int]. *)
Definition round0 (c : Z) : Z := c.

(** ** backend_multimodal_graph.py *)

Fixpoint map_result {A B : Type} (f : A -> result B) (l : list A) : result (list B) :=
  match l with
  | [] => Ok []
  | a :: rest =>
      b <- f a ;;
      bs <- map_result f rest ;;
      Ok (b :: bs)
  end.

(** The body of the loop of [_add_mode_attributes], on one attribute
    dictionary.  Dividing by a zero speed raises. *)
Definition mode_attributes (mode : string) (speed_kmh : Q) (data : EdgeData)
  : result EdgeData :=
  match ed_length data with
  | Some len =>
      if Qeq_bool speed_kmh 0 then Raise ZeroDivisionError
      else
        let distance_km := (len / 1000)%Q in
        let time_hours := (distance_km / speed_kmh)%Q in
        let time_minutes := (time_hours * 60)%Q in
        Ok (mkEdgeData (Some mode) (Some time_minutes) (Some time_minutes) (Some len))
  | None => Ok (mkEdgeData (Some mode) (Some 1%Q) (Some 1%Q) None)
  end.

(** [MultimodalGraphBuilder._add_mode_attributes(graph, mode, speed_kmh)]:
    the graph after the in-place update of every edge. *)
Definition _add_mode_attributes (graph : Graph) (mode : string) (speed_kmh : Q)
  : result Graph :=
  edges' <- map_result
              (fun e =>
                 data <- mode_attributes mode speed_kmh (e_data e) ;;
                 Ok (mkEdge (e_src e) (e_dst e) (e_key e) data))
              (g_edges graph) ;;
  Ok (mkGraph (g_nodes graph) edges').

(** The keyword arguments of the two [add_edge] calls of the linker. *)
Definition transfer_attrs (transfer_time distance : Q) : EdgeData :=
  mkEdgeData (Some "transfer"%string) (Some transfer_time) (Some transfer_time)
             (Some distance).

Definition max_transfer_distance : Q := 10.

(** The position lookup: every node of the three layers that carries both
    ['y'] and ['x']. *)
Definition collect_positions (node_positions : list (string * coord)) (mode_graph : Graph)
  : list (string * coord) :=
  fold_left
    (fun tbl (entry : node * NodeData) =>
       let (node_id, nd) := entry in
       match nd_y nd, nd_x nd with
       | Some lat, Some lon => dict_set node_id (lat, lon) tbl
       | _, _ => tbl
       end)
    (g_nodes mode_graph) node_positions.

Definition node_positions (walk_graph bike_graph car_graph : Graph)
  : list (string * coord) :=
  fold_left collect_positions [walk_graph; bike_graph; car_graph] [].

Section Code.

(** [geopy.distance.geodesic(p, q).meters], an external library. *)
Variable geodesic : coord -> coord -> Q.

(** [networkx.shortest_path(graph, source, target, weight='time')], an
    external library; [None] stands for [NetworkXNoPath]. *)
Variable shortest_path : AnyGraph -> node -> node -> option (list node).

(** The body of the inner loop of [_add_interlayer_edges]. *)
Definition link_pair (merged_graph : Graph) (n1 n2 : string * coord) : Graph :=
  let (node1, pos1) := n1 in
  let (node2, pos2) := n2 in
  if String.eqb node1 node2 then merged_graph
  else
    let original_id1 := original_id node1 in
    let original_id2 := original_id node2 in
    if String.eqb original_id1 original_id2 then
      add_edge merged_graph node1 node2 (transfer_attrs (1 # 2) 0)
    else
      let distance := geodesic pos1 pos2 in
      if Qle_bool distance max_transfer_distance then
        let transfer_time := 2%Q in
        add_edge
          (add_edge merged_graph node1 node2 (transfer_attrs transfer_time distance))
          node2 node1 (transfer_attrs transfer_time distance)
      else merged_graph.

(** [MultimodalGraphBuilder._add_interlayer_edges]: the merged graph after
    the pairwise scan. *)
Definition _add_interlayer_edges (merged_graph walk_graph bike_graph car_graph : Graph)
  : Graph :=
  let tbl := node_positions walk_graph bike_graph car_graph in
  fold_left
    (fun g n1 => fold_left (fun g' n2 => link_pair g' n1 n2) tbl g)
    tbl merged_graph.

(** ** utils_py.py: nearest_node *)

Definition Qlt_bool (a b : Q) : bool := negb (Qle_bool b a).

(** One iteration of the scan; [min_dist = None] is [float('inf')]. *)
Definition nearest_step (lat lon : Q) (acc : option Q * option node)
           (entry : node * NodeData) : option Q * option node :=
  let (min_dist, nearest) := acc in
  let (n, data) := entry in
  match nd_y data, nd_x data with
  | Some node_lat, Some node_lon =>
      let dist := geodesic (lat, lon) (node_lat, node_lon) in
      match min_dist with
      | None => (Some dist, Some n)
      | Some m => if Qlt_bool dist m then (Some dist, Some n) else acc
      end
  | _, _ => acc
  end.

Definition nearest_node (G : AnyGraph) (lat lon : Q) : option node :=
  snd (fold_left (nearest_step lat lon) (nodes G) (None, None)).

(** ** backend_router.py *)

(** What [_get_edge_data] returns: an attribute dictionary, or one of the
    values of an attribute dictionary, a string or a number. *)
Inductive object : Type :=
| Dict (d : EdgeData)
| Scalar.

(** [_get_edge_data(graph, u, v)].  What [graph.get_edge_data(u, v)]
    returns is a [dict] on either graph: the key dictionary of the parallel
    edges on a [MultiDiGraph], the attribute dictionary of the edge on a
    [DiGraph].  The keys of an attribute dictionary are attribute names, so
    [0] is none of them, and [list(edge_data.values())[0]] is the first of
    its values, a string or a number, or raises when it has none. *)
Definition _get_edge_data (graph : AnyGraph) (u v : node) : result object :=
  match graph with
  | MultiDiGraph g =>
      match get_edge_data g u v with
      | Some (first, rest) =>
          (* isinstance(edge_data, dict) *)
          match key_lookup 0 (first :: rest) with
          | Some d => Ok (Dict d)
          | None => Ok (Dict (snd first))
          end
      | None => Ok (Dict empty_attrs)
      end
  | DiGraph g =>
      match plain_get_edge_data g u v with
      | Some e =>
          (* isinstance(edge_data, dict), and 0 not in edge_data *)
          if no_attrs e then Raise IndexError else Ok Scalar
      | None => Ok (Dict empty_attrs)
      end
  end.

(** [d.get(key, default)]. *)
Definition attr_get {A : Type} (field : option A) (default : A) : A :=
  match field with
  | Some a => a
  | None => default
  end.

(** [edge_data.get(key, default)] on what [_get_edge_data] returned: a
    string or a number has no method [get]. *)
Definition object_get {A : Type} (edge_data : object) (field : EdgeData -> option A)
           (default : A) : result A :=
  match edge_data with
  | Dict d => Ok (attr_get (field d) default)
  | Scalar => Raise AttributeError
  end.

(** [[node_data['y'], node_data['x']]] for [node_data = graph.nodes[u]]. *)
Definition node_coord (graph : AnyGraph) (u : node) : result coord :=
  nd <- node_data graph u ;;
  match nd_y nd with
  | None => Raise (KeyError "y")
  | Some lat =>
      match nd_x nd with
      | None => Raise (KeyError "x")
      | Some lon => Ok (lat, lon)
      end
  end.

Definition coord_eqb (a b : coord) : bool :=
  Qeq_bool (fst a) (fst b) && Qeq_bool (snd a) (snd b).

(** [coord in current_coords]. *)
Definition coord_in (c : coord) (l : list coord) : bool :=
  existsb (coord_eqb c) l.

(** [if coord not in current_coords: current_coords.append(coord)]. *)
Definition append_new (l : list coord) (c : coord) : list coord :=
  if coord_in c l then l else l ++ [c].

(** The local variables of [_path_to_segments]. *)
Record Assembly : Type := mkAssembly {
  a_segments : list Segment;
  current_mode : option string;
  current_coords : list coord;
  current_time : Q;
  current_cost : Z
}.

Definition assembly_init : Assembly := mkAssembly [] None [] 0 0.

Definition is_nil {A : Type} (l : list A) : bool :=
  match l with [] => true | _ => false end.

(** The body of the loop over the edges of the path, from "Check if we
    need to start a new segment" on: the bookkeeping for an edge of mode
    [mode] and time [time] that leaves a node at [c]. *)
Definition accrue (st : Assembly) (mode : string) (time : Q) (c : coord) : Assembly :=
  let st1 :=
    match current_mode st with
    | None => mkAssembly (a_segments st) (Some mode) [c] (current_time st) (current_cost st)
    | Some _ => st
    end in
  let st2 :=
    match current_mode st1 with
    | Some m =>
        if String.eqb mode m then st1
        else
          let closed :=
            if is_nil (current_coords st1) then a_segments st1
            else a_segments st1 ++
                   [mkSegment m (current_coords st1)
                              (round1 (current_time st1)) (round0 (current_cost st1))] in
          mkAssembly closed (Some mode) [c] 0 0
    | None => st1
    end in
  mkAssembly (a_segments st2) (current_mode st2)
             (append_new (current_coords st2) c)
             (current_time st2 + time)%Q
             (current_cost st2 + calc_cost mode time)%Z.

(** The body of the loop over the edges of the path: the reads, which can
    raise, then the bookkeeping. *)
Definition process_edge (graph : AnyGraph) (st : Assembly) (u v : node)
  : result Assembly :=
  edge_data <- _get_edge_data graph u v ;;
  mode <- object_get edge_data ed_mode "walk"%string ;;
  time <- object_get edge_data ed_time 1%Q ;;
  c <- node_coord graph u ;;
  Ok (accrue st mode time c).

(** [for i in range(len(path) - 1)]. *)
Fixpoint assemble_loop (graph : AnyGraph) (st : Assembly) (path : list node)
  : result Assembly :=
  match path with
  | u :: ((v :: _) as rest) =>
      st' <- process_edge graph st u v ;;
      assemble_loop graph st' rest
  | _ => Ok st
  end.

(** [_path_to_segments(graph, path)]. *)
Definition _path_to_segments (graph : AnyGraph) (path : list node)
  : result (list Segment) :=
  if Nat.ltb (List.length path) 2 then Ok []
  else
    st <- assemble_loop graph assembly_init path ;;
    coords <- (if Nat.ltb 1 (List.length path) then
                 final_coord <- node_coord graph (last path ""%string) ;;
                 Ok (append_new (current_coords st) final_coord)
               else Ok (current_coords st)) ;;
    match current_mode st with
    | Some m =>
        if is_nil coords then Ok (a_segments st)
        else Ok (a_segments st ++
                   [mkSegment m coords (round1 (current_time st))
                              (round0 (current_cost st))])
    | None => Ok (a_segments st)
    end.

(** Python's [sum] over a generator of floats, starting from [0]. *)
Definition sum_Q (l : list Q) : Q := fold_left Qplus l 0%Q.
Definition sum_Z (l : list Z) : Z := fold_left Z.add l 0%Z.

(** [get_multimodal_route(graph, start_lat, start_lon, end_lat, end_lon)]. *)
Definition get_multimodal_route (graph : AnyGraph) (start_lat start_lon end_lat end_lon : Q)
  : result Route :=
  match nearest_node graph start_lat start_lon, nearest_node graph end_lat end_lon with
  | Some start_node, Some end_node =>
      match shortest_path graph start_node end_node with
      | None => Raise (ValueError "No path found between the specified points")
      | Some path =>
          segs <- _path_to_segments graph path ;;
          let total_time := sum_Q (map seg_time segs) in
          let total_cost := sum_Z (map seg_cost segs) in
          Ok (mkRoute (round1 total_time) (round0 total_cost) segs)
      end
  | _, _ => Raise (ValueError "Could not find valid nodes near the specified coordinates")
  end.

End Code.

(** ** Stand-ins for the external libraries, used to run the code on examples *)

(** A stand-in for the geodesic distance in metres: the differences in
    latitude and in longitude, at 111 320 m per degree.  It is symmetric and
    zero on equal points. *)
Definition planar_metres (p q : coord) : Q :=
  ((Qabs (fst p - fst q) + Qabs (snd p - snd q)) * 111320)%Q.

(** A label-correcting shortest-path search by ['time'] (default weight 1):
    [dict] maps a reached node to its distance and its path from the source. *)
Definition relax (tbl : list (string * (Q * list node))) (arc : node * node * Q)
  : list (string * (Q * list node)) :=
  let '(src, dst, time) := arc in
  match dict_get src tbl with
  | None => tbl
  | Some (d, p) =>
      let nd := (d + time)%Q in
      match dict_get dst tbl with
      | Some (d', _) =>
          if Qlt_bool nd d' then dict_set dst (nd, p ++ [dst]) tbl else tbl
      | None => dict_set dst (nd, p ++ [dst]) tbl
      end
  end.

Fixpoint relax_rounds (n : nat) (g : AnyGraph) (tbl : list (string * (Q * list node)))
  : list (string * (Q * list node)) :=
  match n with
  | O => tbl
  | S k => relax_rounds k g (fold_left relax (arcs g) tbl)
  end.

Definition relaxation_search (g : AnyGraph) (source target : node) : option (list node) :=
  if String.eqb source target then Some [source]
  else option_map snd
         (dict_get target
            (relax_rounds (List.length (nodes g)) g [(source, (0%Q, [source]))])).

(** ** Worked scenarios *)

(** Positions [(lat, lon)] along one street: [pos_B] about 500 m east of
    [pos_A], [pos_C] about 2000 m east of [pos_B], [pos_D] and [pos_E] about
    50 m and 90 m east of [pos_A], [pos_kerb] about 4 m east of [pos_A]. *)
Definition pos_A : coord := (52.37, 4.88)%Q.
Definition pos_B : coord := (52.37, 4.8874)%Q.
Definition pos_C : coord := (52.37, 4.9168)%Q.
Definition pos_D : coord := (52.37, 4.8807)%Q.
Definition pos_E : coord := (52.37, 4.8813)%Q.
Definition pos_kerb : coord := (52.37, 4.88006)%Q.

Definition located (n : node) (p : coord) : node * NodeData :=
  (n, mkNodeData (Some (fst p)) (Some (snd p))).

Definition road (u v : node) (len : Q) : Edge :=
  mkEdge u v 0 (mkEdgeData None None None (Some len)).

(** A walk edge of 500 m, a co-located car node and a car edge of 2000 m. *)
Definition walk_layer : Graph :=
  mkGraph [located "A_walk" pos_A; located "B_walk" pos_B]
          [road "A_walk" "B_walk" 500].

Definition bike_layer : Graph := mkGraph [] [].

Definition car_layer : Graph :=
  mkGraph [located "B_car" pos_B; located "C_car" pos_C]
          [road "B_car" "C_car" 2000].

(** [nx.compose_all] of layers with disjoint node sets. *)
Definition compose_all (layers : list Graph) : Graph :=
  mkGraph (flat_map g_nodes layers) (flat_map g_edges layers).

(** ** Specification predicates *)

(** What [_add_mode_attributes] leaves on an edge [e'] that was [e]. *)
Definition tagged (mode : string) (speed_kmh : Q) (e e' : Edge) : Prop :=
  e_src e' = e_src e /\ e_dst e' = e_dst e /\ e_key e' = e_key e /\
  ed_length (e_data e') = ed_length (e_data e) /\
  ed_mode (e_data e') = Some mode /\
  ed_time (e_data e') =
    Some (match ed_length (e_data e) with
          | Some length_meters => (length_meters / 1000 / speed_kmh * 60)%Q
          | None => 1%Q
          end) /\
  ed_weight (e_data e') = ed_time (e_data e').

Definition nonneg_length (e : Edge) : Prop :=
  forall len, ed_length (e_data e) = Some len -> (0 <= len)%Q.

(** [weight == time >= 0]. *)
Definition weight_is_time_nonneg (e : Edge) : Prop :=
  exists t, ed_time (e_data e) = Some t /\ ed_weight (e_data e) = Some t /\ (0 <= t)%Q.

(** The policy of the specification for parallel edges: the resolved
    attributes are those of a lowest-weight edge from [u] to [v]. *)
Definition picks_lowest_weight (graph : Graph) (u v : node) : Prop :=
  forall k d w resolved w0,
    In (k, d) (keydict graph u v) ->
    ed_weight d = Some w ->
    _get_edge_data (MultiDiGraph graph) u v = Ok (Dict resolved) ->
    ed_weight resolved = Some w0 ->
    (w0 <= w)%Q.

(** Two parallel walk edges, the heavier one inserted first. *)
Definition slow_attrs : EdgeData :=
  mkEdgeData (Some "walk"%string) (Some 5%Q) (Some 5%Q) (Some 400%Q).
Definition fast_attrs : EdgeData :=
  mkEdgeData (Some "walk"%string) (Some 1%Q) (Some 1%Q) (Some 80%Q).
Definition parallel_graph : Graph :=
  add_edge (add_edge (mkGraph [] []) "u" "v" slow_attrs) "u" "v" fast_attrs.

(** [graph.has_edge(u, v)]. *)
Definition has_edge (g : AnyGraph) (u v : node) : bool :=
  match g with
  | MultiDiGraph m => existsb (connects u v) (g_edges m)
  | DiGraph d => existsb (joins u v) (pg_edges d)
  end.

(** [walk g s t p]: [p] is a directed walk of [g] from [s] to [t]. *)
Inductive walk (g : AnyGraph) (s : node) : node -> list node -> Prop :=
| walk_start : walk g s s [s]
| walk_step (u v : node) (p : list node) :
    walk g s u p -> has_edge g u v = true -> walk g s v (p ++ [v]).

(** The mode and the time the assembler reads off the edge from [u] to
    [v], when the reads return. *)
Definition edge_mode (graph : AnyGraph) (u v : node) : result string :=
  edge_data <- _get_edge_data graph u v ;;
  object_get edge_data ed_mode "walk"%string.

Definition edge_time (graph : AnyGraph) (u v : node) : result Q :=
  edge_data <- _get_edge_data graph u v ;;
  object_get edge_data ed_time 1%Q.

(** The mode read off the edge from [u] to [v] is ['car']. *)
Definition car_edge (graph : AnyGraph) (u v : node) : bool :=
  match edge_mode graph u v with
  | Ok mode => String.eqb mode "car"
  | Raise _ => false
  end.

(** The number of edges of the path whose resolved mode is ['car']. *)
Fixpoint car_edge_count (graph : AnyGraph) (path : list node) : Z :=
  match path with
  | u :: ((v :: _) as rest) =>
      ((if car_edge graph u v then 1 else 0) + car_edge_count graph rest)%Z
  | _ => 0%Z
  end.

(** The cost accrued so far: the closed segments and the open one. *)
Definition accrued (st : Assembly) : Z :=
  (sum_Z (map seg_cost (a_segments st)) + current_cost st)%Z.

(** Every node of the path is a node of the graph with both coordinates. *)
Definition located_path (graph : AnyGraph) (path : list node) : Prop :=
  forall n, In n path -> exists c, node_coord graph n = Ok c.

(** An entry of the search table records a walk from the source. *)
Definition reaches (g : AnyGraph) (source : node) (entry : string * (Q * list node)) : Prop :=
  walk g source (fst entry) (snd (snd entry)).

(** The layers of the scenario after [_add_mode_attributes], their union,
    and the union after interlayer linking. *)
Definition tag_layer (layer : Graph) (mode : string) (speed_kmh : Q) : Graph :=
  match _add_mode_attributes layer mode speed_kmh with
  | Ok g => g
  | Raise _ => layer
  end.

Definition walk_tagged : Graph := Eval vm_compute in tag_layer walk_layer "walk" 5.
Definition bike_tagged : Graph := Eval vm_compute in tag_layer bike_layer "bike" 15.
Definition car_tagged : Graph := Eval vm_compute in tag_layer car_layer "car" 40.

Definition unlinked_city : Graph :=
  Eval vm_compute in compose_all [walk_tagged; bike_tagged; car_tagged].

Definition city : Graph :=
  Eval vm_compute in
    _add_interlayer_edges planar_metres unlinked_city walk_tagged bike_tagged car_tagged.

(** The route of the scenario from [A_walk] to [C_car]. *)
Definition scenario_route : Route :=
  Eval vm_compute in
    match get_multimodal_route planar_metres relaxation_search (MultiDiGraph city)
                               52.37 4.88 52.37 4.9168 with
    | Ok r => r
    | Raise _ => mkRoute 0 0 []
    end.

(** Two located nodes and no edge at all. *)
Definition edgeless : Graph :=
  mkGraph [located "A_walk" pos_A; located "C_car" pos_C] [].

(** The coordinates of a list in the order of their first occurrence: what
    repeated [append_new] builds from the empty list. *)
Definition keep_first (cs : list coord) : list coord := fold_left append_new cs [].

(** No two coordinates of the list are equal. *)
Fixpoint distinct (l : list coord) : bool :=
  match l with
  | [] => true
  | c :: rest => negb (coord_in c rest) && distinct rest
  end.

(** The specification's reading: a coordinate is skipped only if it
    duplicates the last recorded coordinate. *)
Definition append_unless_last (l : list coord) (c : coord) : list coord :=
  match rev l with
  | c' :: _ => if coord_eqb c c' then l else l ++ [c]
  | [] => [c]
  end.

Definition drop_consecutive (cs : list coord) : list coord :=
  fold_left append_unless_last cs [].

(** Every edge of the path resolves to mode [m]. *)
Fixpoint uniform_mode (graph : AnyGraph) (m : string) (path : list node) : Prop :=
  match path with
  | u :: ((v :: _) as rest) => edge_mode graph u v = Ok m /\ uniform_mode graph m rest
  | _ => True
  end.

(** The state of the assembler holds duplicate-free coordinate lists. *)
Definition duplicate_free (st : Assembly) : Prop :=
  Forall (fun s => distinct (seg_coords s) = true) (a_segments st) /\
  distinct (current_coords st) = true.

(** A footpath that passes under itself: [P] and [R] are different nodes at
    the same coordinates. *)
Definition walk_attrs (t len : Q) : EdgeData :=
  mkEdgeData (Some "walk"%string) (Some t) (Some t) (Some len).

Definition underpass : Graph :=
  mkGraph [located "P_walk" pos_A; located "Q_walk" pos_D;
           located "R_walk" pos_A; located "S_walk" pos_E]
          [mkEdge "P_walk" "Q_walk" 0 (walk_attrs (6 # 10) 50);
           mkEdge "Q_walk" "R_walk" 0 (walk_attrs (6 # 10) 50);
           mkEdge "R_walk" "S_walk" 0 (walk_attrs (108 # 100) 90)].

Definition underpass_path : list node :=
  ["P_walk"; "Q_walk"; "R_walk"; "S_walk"]%string.

Definition underpass_coords : list coord := [pos_A; pos_D; pos_A; pos_E].

Definition underpass_segments : list Segment :=
  Eval vm_compute in
    match _path_to_segments (MultiDiGraph underpass) underpass_path with
    | Ok segs => segs
    | Raise _ => []
    end.

(** C7 as the specification words it, for a path that stays in one mode: the
    segment lists the path's coordinates with consecutive repeats removed. *)
Definition consecutive_only (graph : AnyGraph) (path : list node) : Prop :=
  forall m cs,
    2 <= List.length path ->
    map_result (node_coord graph) path = Ok cs ->
    uniform_mode graph m path ->
    exists t cost,
      _path_to_segments graph path = Ok [mkSegment m (drop_consecutive cs) t cost].

(** ** Interlayer linking: specification vocabulary *)

Definition is_transfer (d : EdgeData) : bool :=
  match ed_mode d with
  | Some m => String.eqb m "transfer"
  | None => false
  end.

(** The attribute dictionaries of the transfer edges from [a] to [b], in
    insertion order. *)
Definition transfers (g : Graph) (a b : node) : list EdgeData :=
  filter is_transfer (map snd (keydict g a b)).

(** An [add_edge] call: source, target, attributes. *)
Definition add_call (g : Graph) (c : node * node * EdgeData) : Graph :=
  add_edge g (fst (fst c)) (snd (fst c)) (snd c).

(** The [add_edge] calls of one visit of the inner loop. *)
Definition pair_calls (geodesic : coord -> coord -> Q) (n1 n2 : string * coord)
  : list (node * node * EdgeData) :=
  if String.eqb (fst n1) (fst n2) then []
  else if String.eqb (original_id (fst n1)) (original_id (fst n2)) then
    [(fst n1, fst n2, transfer_attrs (1 # 2) 0)]
  else if Qle_bool (geodesic (snd n1) (snd n2)) max_transfer_distance then
    [(fst n1, fst n2, transfer_attrs 2 (geodesic (snd n1) (snd n2)));
     (fst n2, fst n1, transfer_attrs 2 (geodesic (snd n1) (snd n2)))]
  else [].

(** All the calls of the pairwise scan, in order. *)
Definition scan_calls (geodesic : coord -> coord -> Q) (tbl : list (string * coord))
  : list (node * node * EdgeData) :=
  flat_map (fun n1 => flat_map (pair_calls geodesic n1) tbl) tbl.

Definition to_pair (a b : node) (c : node * node * EdgeData) : bool :=
  String.eqb (fst (fst c)) a && String.eqb (snd (fst c)) b.

(** [a] and [b] are nodes of two different layers. *)
Definition cross_layer (layers : list Graph) (a b : node) : Prop :=
  exists i j ga gb,
    i <> j /\ nth_error layers i = Some ga /\ nth_error layers j = Some gb /\
    has_node ga a = true /\ has_node gb b = true.

(** [a] and [b] are distinct nodes of one layer. *)
Definition same_layer (layers : list Graph) (a b : node) : Prop :=
  a <> b /\ exists ga, In ga layers /\ has_node ga a = true /\ has_node ga b = true.

(** C2 as the specification words it: between two nodes of different layers
    that share their original id there is exactly one transfer edge, with
    [weight = time = 0.5] and [length = 0]. *)
Definition one_colocated_transfer (geodesic : coord -> coord -> Q)
           (walk_graph bike_graph car_graph : Graph) : Prop :=
  let layers := [walk_graph; bike_graph; car_graph] in
  let linked :=
    _add_interlayer_edges geodesic (compose_all layers)
                          walk_graph bike_graph car_graph in
  forall a b,
    cross_layer layers a b ->
    original_id a = original_id b ->
    transfers linked a b ++ transfers linked b a = [transfer_attrs (1 # 2) 0].

(** C1 as the specification words it, for two nodes of different layers with
    different original ids at positions [pa] and [pb]: within 10 m exactly
    one transfer edge in each direction, beyond 10 m none. *)
Definition one_proximate_pair (geodesic : coord -> coord -> Q)
           (walk_graph bike_graph car_graph : Graph) : Prop :=
  let layers := [walk_graph; bike_graph; car_graph] in
  let tbl := node_positions walk_graph bike_graph car_graph in
  let linked :=
    _add_interlayer_edges geodesic (compose_all layers)
                          walk_graph bike_graph car_graph in
  forall a b pa pb,
    cross_layer layers a b ->
    original_id a <> original_id b ->
    dict_get a tbl = Some pa ->
    dict_get b tbl = Some pb ->
    if Qle_bool (geodesic pa pb) max_transfer_distance then
      transfers linked a b = [transfer_attrs 2 (geodesic pa pb)] /\
      transfers linked b a = [transfer_attrs 2 (geodesic pa pb)]
    else
      transfers linked a b = [] /\ transfers linked b a = [].

(** C3 as the specification words it: no transfer edge between two distinct
    nodes of one layer. *)
Definition no_same_layer_transfer (geodesic : coord -> coord -> Q)
           (walk_graph bike_graph car_graph : Graph) : Prop :=
  let layers := [walk_graph; bike_graph; car_graph] in
  let linked :=
    _add_interlayer_edges geodesic (compose_all layers)
                          walk_graph bike_graph car_graph in
  forall a b, same_layer layers a b -> transfers linked a b = [].

(** Layers as [from_pandas_edgelist] builds them: nodes without attributes. *)
Definition bare (n : node) : node * NodeData := (n, mkNodeData None None).

Definition bare_walk : Graph :=
  mkGraph [bare "7_walk"; bare "8_walk"]
          [mkEdge "7_walk" "8_walk" 0 (walk_attrs (6 # 10) 50)].
Definition bare_bike : Graph :=
  mkGraph [bare "7_bike"; bare "8_bike"]
          [mkEdge "7_bike" "8_bike" 0
                  (mkEdgeData (Some "bike"%string) (Some (2 # 10)%Q) (Some (2 # 10)%Q) (Some 50%Q))].
Definition no_layer : Graph := mkGraph [] [].

(** The same crossing with coordinates on the nodes. *)
Definition stop_walk : Graph :=
  mkGraph [located "7_walk" pos_A; located "8_walk" pos_D]
          [mkEdge "7_walk" "8_walk" 0 (walk_attrs (6 # 10) 50)].
Definition stop_bike : Graph :=
  mkGraph [located "7_bike" pos_A; located "8_bike" pos_D]
          [mkEdge "7_bike" "8_bike" 0
                  (mkEdgeData (Some "bike"%string) (Some (2 # 10)%Q) (Some (2 # 10)%Q) (Some 50%Q))].

Definition stop_linked : Graph :=
  Eval vm_compute in
    _add_interlayer_edges planar_metres (compose_all [stop_walk; stop_bike; no_layer])
                          stop_walk stop_bike no_layer.

(** A footpath node and a cycle-track node about 4 m apart, with different
    original ids. *)
Definition kerb_walk : Graph := mkGraph [located "1_walk" pos_A] [].
Definition kerb_bike : Graph := mkGraph [located "2_bike" pos_kerb] [].

Definition kerb_linked : Graph :=
  Eval vm_compute in
    _add_interlayer_edges planar_metres (compose_all [kerb_walk; kerb_bike; no_layer])
                          kerb_walk kerb_bike no_layer.

(** Two footpath nodes about 4 m apart, joined by a footpath edge. *)
Definition lane_walk : Graph :=
  mkGraph [located "1_walk" pos_A; located "2_walk" pos_kerb]
          [mkEdge "1_walk" "2_walk" 0 (walk_attrs (48 # 1000) 4)].

Definition lane_linked : Graph :=
  Eval vm_compute in
    _add_interlayer_edges planar_metres (compose_all [lane_walk; no_layer; no_layer])
                          lane_walk no_layer no_layer.

(** ** Further code: relabelling, building, statistics *)

(** [f"{n}_{mode_suffix}"]. *)
Definition relabel_name (mode_suffix : string) (n : node) : node :=
  (n ++ "_" ++ mode_suffix)%string.

(** [MultimodalGraphBuilder._relabel_nodes(graph, mode_suffix)], that is
    [nx.relabel_nodes(graph, lambda n: f"{n}_{mode_suffix}")]: a copy in
    which every node is renamed and every edge keeps its key and its
    attributes.  (networkx renumbers a key only when two edges of the copy
    would share source, target and key, which a renaming that keeps
    different nodes apart never causes.) *)
Definition _relabel_nodes (graph : Graph) (mode_suffix : string) : Graph :=
  mkGraph
    (map (fun entry : node * NodeData =>
            (relabel_name mode_suffix (fst entry), snd entry))
         (g_nodes graph))
    (map (fun e =>
            mkEdge (relabel_name mode_suffix (e_src e))
                   (relabel_name mode_suffix (e_dst e))
                   (e_key e) (e_data e))
         (g_edges graph)).

Section BuildCode.

Variable geodesic : coord -> coord -> Q.

(** [self._extract_graph(network_type)]: the map-data extraction, an
    external collaborator that returns a graph or raises. *)
Variable _extract_graph : string -> result Graph.

(** [MultimodalGraphBuilder.build()].  The file system is an input:
    [graphml] is [Some g] when [graphml_path] is set and names an existing
    file that [nx.read_graphml] reads as [g], a [MultiDiGraph] or a plain
    [DiGraph]; [osm_file_exists] tells whether [osm_file] is set and exists.
    Writing the cache file at the end leaves the returned graph unchanged
    and is not modelled. *)
Definition build (graphml : option AnyGraph) (osm_file_exists : bool)
           (walk_speed bike_speed car_speed : Q) : result AnyGraph :=
  match graphml with
  | Some g => Ok g
  | None =>
      if osm_file_exists then
        walk_graph <- _extract_graph "walking" ;;
        bike_graph <- _extract_graph "cycling" ;;
        car_graph <- _extract_graph "driving" ;;
        let walk_graph := _relabel_nodes walk_graph "walk" in
        let bike_graph := _relabel_nodes bike_graph "bike" in
        let car_graph := _relabel_nodes car_graph "car" in
        walk_graph <- _add_mode_attributes walk_graph "walk" walk_speed ;;
        bike_graph <- _add_mode_attributes bike_graph "bike" bike_speed ;;
        car_graph <- _add_mode_attributes car_graph "car" car_speed ;;
        let merged_graph := compose_all [walk_graph; bike_graph; car_graph] in
        Ok (MultiDiGraph
              (_add_interlayer_edges geodesic merged_graph walk_graph bike_graph car_graph))
      else Raise (ValueError "No valid OSM PBF file provided.")
  end.

End BuildCode.

Record GraphStats : Type := mkGraphStats {
  total_nodes : nat;
  total_edges : nat;
  edges_by_mode : list (string * nat);
  is_directed : bool;
  is_multigraph : bool
}.

(** The body of the counting loop of [get_graph_stats], on the attribute
    dictionary of an edge: a mode seen for the first time is entered with
    [0], then the entry is incremented. *)
Definition tally (mode_stats : list (string * nat)) (data : EdgeData) : list (string * nat) :=
  let mode := attr_get (ed_mode data) "unknown"%string in
  match dict_get mode mode_stats with
  | None => dict_set mode (0 + 1) (dict_set mode 0 mode_stats)
  | Some count => dict_set mode (count + 1) mode_stats
  end.

(** [MultimodalGraphBuilder.get_graph_stats()], on [self.graph]; the left
    result is the [{"error": ...}] dictionary. *)
Definition get_graph_stats (graph : option AnyGraph) : string + GraphStats :=
  match graph with
  | None => inl "Graph not built yet"%string
  | Some g =>
      let mode_stats := fold_left tally (edges_data g) [] in
      inr (mkGraphStats (List.length (nodes g)) (List.length (edges_data g))
                        mode_stats true
                        match g with MultiDiGraph _ => true | DiGraph _ => false end)
  end.

(** ** Further specification vocabulary *)

(** The position of a node that carries both coordinates. *)
Definition node_position (nd : NodeData) : option coord :=
  match nd_y nd, nd_x nd with
  | Some lat, Some lon => Some (lat, lon)
  | _, _ => None
  end.

(** The graph has no node with both coordinates. *)
Definition unlocated (G : AnyGraph) : Prop :=
  Forall (fun entry : node * NodeData => node_position (snd entry) = None) (nodes G).

(** The mode and the time of every edge of the path, as the assembler reads
    them. *)
Fixpoint edge_steps (graph : AnyGraph) (path : list node) : result (list (string * Q)) :=
  match path with
  | u :: ((v :: _) as rest) =>
      mode <- edge_mode graph u v ;;
      time <- edge_time graph u v ;;
      steps <- edge_steps graph rest ;;
      Ok ((mode, time) :: steps)
  | _ => Ok []
  end.

(** The maximal runs of steps of one mode: each run with its mode and what
    its steps carry, a time or a coordinate. *)
Section Runs.
Variable A : Type.

Fixpoint runs_from (m : string) (ts : list A) (steps : list (string * A))
  : list (string * list A) :=
  match steps with
  | [] => [(m, ts)]
  | (m', t) :: rest =>
      if String.eqb m' m then runs_from m (ts ++ [t]) rest
      else (m, ts) :: runs_from m' [t] rest
  end.

Definition runs (steps : list (string * A)) : list (string * list A) :=
  match steps with
  | [] => []
  | (m, t) :: rest => runs_from m [t] rest
  end.
End Runs.

(** The mode read off every edge of the path, with the coordinate of the
    node the edge leaves. *)
Fixpoint coord_steps (graph : AnyGraph) (path : list node)
  : result (list (string * coord)) :=
  match path with
  | u :: ((v :: _) as rest) =>
      mode <- edge_mode graph u v ;;
      c <- node_coord graph u ;;
      steps <- coord_steps graph rest ;;
      Ok ((mode, c) :: steps)
  | _ => Ok []
  end.

(** The destination joins the last run. *)
Fixpoint with_destination (c : coord) (rs : list (string * list coord))
  : list (string * list coord) :=
  match rs with
  | [] => []
  | (m, cs) :: rest =>
      match rest with
      | [] => [(m, cs ++ [c])]
      | _ :: _ => (m, cs) :: with_destination c rest
      end
  end.

(** What a run is reported as, on the side of the coordinates: its mode and
    its coordinates in the order of their first occurrence. *)
Definition run_coords (r : string * list coord) : string * list coord :=
  (fst r, keep_first (snd r)).

Definition segment_coords (s : Segment) : string * list coord :=
  (seg_mode s, seg_coords s).

(** The open segment of the assembler lists the coordinates [cs] of the run
    of mode [m]. *)
Definition lists (st : Assembly) (m : string) (cs : list coord) : Prop :=
  current_mode st = Some m /\ current_coords st = keep_first cs /\ cs <> [].

(** [u] is followed by [v] on the path. *)
Definition adjacent (u v : node) (path : list node) : Prop :=
  exists pre post, path = pre ++ u :: v :: post.

(** What makes the assembler raise [e] on the path: a node of the path that
    is missing or lacks a coordinate, or an edge of the path in a plain
    [DiGraph], one without attributes for [IndexError]. *)
Definition raised_by (graph : AnyGraph) (path : list node) (e : exn) : Prop :=
  (exists n k, In n path /\ node_coord graph n = Raise (KeyError k) /\ e = KeyError k) \/
  (exists g u v edge,
      graph = DiGraph g /\ adjacent u v path /\
      plain_get_edge_data g u v = Some edge /\
      e = if no_attrs edge then IndexError else AttributeError).

(** What a run is reported as: its mode, the rounded sum of its times, and
    20 per step for a car run. *)
Definition run_cost (m : string) (ts : list Q) : Z :=
  if String.eqb m "car" then (20 * Z.of_nat (List.length ts))%Z else 0%Z.

Definition run_summary (r : string * list Q) : string * Q * Z :=
  (fst r, round1 (sum_Q (snd r)), run_cost (fst r) (snd r)).

Definition segment_summary (s : Segment) : string * Q * Z :=
  (seg_mode s, seg_time s, seg_cost s).

(** No two neighbours of the list are equal. *)
Fixpoint no_repeat (l : list string) : Prop :=
  match l with
  | a :: ((b :: _) as rest) => a <> b /\ no_repeat rest
  | _ => True
  end.

(** The string holds no underscore. *)
Fixpoint underscore_free (s : string) : bool :=
  match s with
  | EmptyString => true
  | String c rest => negb (Ascii.eqb c "_"%char) && underscore_free rest
  end.

(** What follows the last underscore of a string, if it has one. *)
Fixpoint after_last_underscore (s : string) : option string :=
  match s with
  | EmptyString => None
  | String c rest =>
      match after_last_underscore rest with
      | Some t => Some t
      | None => if Ascii.eqb c "_"%char then Some rest else None
      end
  end.

(** The number of attribute dictionaries whose mode, ['unknown'] when
    absent, is [m]. *)
Definition edges_of_mode (m : string) (edges : list EdgeData) : nat :=
  List.length
    (filter (fun data => String.eqb (attr_get (ed_mode data) "unknown"%string) m) edges).

(** An edge as the interlayer linker inserts them: no loop, mode
    ['transfer'], [weight = time], either 0.5 min over length 0 or 2 min
    over a measured length of at most 10 m. *)
Definition linker_edge (e : Edge) : Prop :=
  e_src e <> e_dst e /\
  ed_mode (e_data e) = Some "transfer"%string /\
  ed_weight (e_data e) = ed_time (e_data e) /\
  ((ed_time (e_data e) = Some (1 # 2)%Q /\ ed_length (e_data e) = Some 0%Q) \/
   (ed_time (e_data e) = Some 2%Q /\
    exists d, ed_length (e_data e) = Some d /\ Qle_bool d max_transfer_distance = true)).

(** The mode of the edge is one of the four of the data model. *)
Definition known_mode (e : Edge) : Prop :=
  exists m, ed_mode (e_data e) = Some m /\
            In m ["walk"; "bike"; "car"; "transfer"]%string.

(** The state of the scan of [nearest_node] after the nodes [seen]: nothing
    yet when none of them has a position; otherwise the node kept, its
    distance, strictly below that of every positioned node before it and
    at most that of every positioned node after it. *)
Definition scan_state (geodesic : coord -> coord -> Q) (q : coord)
           (seen : list (node * NodeData)) (acc : option Q * option node) : Prop :=
  match acc with
  | (None, None) => Forall (fun e : node * NodeData => node_position (snd e) = None) seen
  | (Some d, Some n) =>
      exists before nd after p,
        seen = before ++ (n, nd) :: after /\
        node_position nd = Some p /\
        d = geodesic q p /\
        (forall m md p', In (m, md) before -> node_position md = Some p' ->
                         (d < geodesic q p')%Q) /\
        (forall m md p', In (m, md) after -> node_position md = Some p' ->
                         (d <= geodesic q p')%Q)
  | _ => False
  end.

(** The open segment of the assembler is the run of mode [m] with step
    times [ts]. *)
Definition tracks (st : Assembly) (m : string) (ts : list Q) : Prop :=
  current_mode st = Some m /\
  current_time st = sum_Q ts /\
  current_cost st = run_cost m ts /\
  current_coords st <> [].

(** The first coordinate recorded by the assembler is [c]. *)
Definition starts_at (c : coord) (st : Assembly) : Prop :=
  match a_segments st with
  | s :: _ => hd_error (seg_coords s) = Some c
  | [] => hd_error (current_coords st) = Some c
  end.

(** The extraction of the scenario: the layers before relabelling. *)
Definition raw_walk : Graph :=
  mkGraph [located "A" pos_A; located "B" pos_B] [road "A" "B" 500].
Definition raw_car : Graph :=
  mkGraph [located "B" pos_B; located "C" pos_C] [road "B" "C" 2000].

Definition scenario_extract (network_type : string) : result Graph :=
  if String.eqb network_type "walking" then Ok raw_walk
  else if String.eqb network_type "cycling" then Ok (mkGraph [] [])
  else if String.eqb network_type "driving" then Ok raw_car
  else Raise (ValueError "unknown network type").

(** An extraction as [from_pandas_edgelist] builds it: edges with lengths,
    nodes without attributes. *)
Definition plain_extract (network_type : string) : result Graph :=
  if String.eqb network_type "walking"
  then Ok (mkGraph [bare "A"; bare "B"] [road "A" "B" 500])
  else if String.eqb network_type "cycling" then Ok (mkGraph [] [])
  else Ok (mkGraph [bare "B"; bare "C"] [road "B" "C" 2000]).

Definition plain_city : Graph :=
  Eval vm_compute in
    match build planar_metres plain_extract None true 5 15 40 with
    | Ok (MultiDiGraph g) => g
    | _ => mkGraph [] []
    end.

(** The counts of [get_graph_stats] after the edges [seen]. *)
Definition tallied (seen : list EdgeData) (mode_stats : list (string * nat)) : Prop :=
  (forall m, dict_get m mode_stats =
             if Nat.eqb (edges_of_mode m seen) 0 then None
             else Some (edges_of_mode m seen)) /\
  list_sum (map snd mode_stats) = List.length seen.

Definition scenario_path : list node := ["A_walk"; "B_walk"; "B_car"; "C_car"]%string.

Definition kerb_merged : Graph := compose_all [kerb_walk; kerb_bike; no_layer].

(** C10 as the specification words it: along a path whose nodes carry
    coordinates, segment assembly never fails, whatever edges and edge
    attributes are missing. *)
Definition never_fails (graph : AnyGraph) : Prop :=
  forall path, located_path graph path ->
               exists segs, _path_to_segments graph path = Ok segs.

(** A street of 500 m as [networkx.read_graphml] returns it from a
    pre-downloaded file without parallel edges and without modes and times:
    a plain [DiGraph] whose one edge has a length.  [bare_street] is the
    same street with no attribute on its edge, [street] the same street as
    a [MultiDiGraph]. *)
Definition cached_street : PlainGraph :=
  mkPlainGraph [located "A" pos_A; located "B" pos_B]
               [mkDiEdge "A" "B" (mkEdgeData None None None (Some 500%Q)) []].

Definition bare_street : PlainGraph :=
  mkPlainGraph [located "A" pos_A; located "B" pos_B]
               [mkDiEdge "A" "B" empty_attrs []].

Definition street : Graph :=
  mkGraph [located "A" pos_A; located "B" pos_B] [road "A" "B" 500].

(** * Properties *)

(** ** Mode attributes *)

Section ModeAttributes.

Variable mode : string.
Variable speed_kmh : Q.

(** What the loop body leaves in an attribute dictionary when it does not
    raise. *)
Lemma mode_attributes_result (data data' : EdgeData) :
  mode_attributes mode speed_kmh data = Ok data' ->
  data' =
    (let t := match ed_length data with
              | Some len => (len / 1000 / speed_kmh * 60)%Q
              | None => 1%Q
              end in
     mkEdgeData (Some mode) (Some t) (Some t) (ed_length data)).
Proof.
  unfold mode_attributes. destruct (ed_length data) as [len|].
  - destruct (Qeq_bool speed_kmh 0); [discriminate|].
    intros H. injection H as <-. reflexivity.
  - intros H. injection H as <-. reflexivity.
Qed.

Lemma mode_attributes_nonzero (data : EdgeData) :
  ~ (speed_kmh == 0)%Q -> exists data', mode_attributes mode speed_kmh data = Ok data'.
Proof.
  intros Hs. unfold mode_attributes.
  destruct (ed_length data) as [len|]; [|eexists; reflexivity].
  destruct (Qeq_bool speed_kmh 0) eqn:E; [|eexists; reflexivity].
  apply Qeq_bool_eq in E. contradiction.
Qed.

Lemma travel_time_nonneg (len : Q) :
  (0 < speed_kmh)%Q -> (0 <= len)%Q -> (0 <= len / 1000 / speed_kmh * 60)%Q.
Proof.
  intros Hs Hl. unfold Qdiv.
  repeat apply Qmult_le_0_compat; try assumption.
  - apply Qinv_le_0_compat. discriminate.
  - apply Qinv_le_0_compat. apply Qlt_le_weak. assumption.
  - discriminate.
Qed.

Lemma tag_edges_result (edges : list Edge) :
  forall edges',
    map_result
      (fun e =>
         data <- mode_attributes mode speed_kmh (e_data e) ;;
         Ok (mkEdge (e_src e) (e_dst e) (e_key e) data)) edges = Ok edges' ->
    Forall2 (tagged mode speed_kmh) edges edges'.
Proof.
  induction edges as [|e rest IH]; intros edges' Hrun.
  - injection Hrun as <-. constructor.
  - cbn [map_result] in Hrun.
    destruct (mode_attributes mode speed_kmh (e_data e)) as [d|err] eqn:Ed;
      [|discriminate].
    cbn [bind] in Hrun.
    destruct (map_result _ rest) as [rest'|err]; [|discriminate].
    cbn [bind] in Hrun. injection Hrun as <-.
    constructor; [|apply IH; reflexivity].
    apply mode_attributes_result in Ed. subst d.
    unfold tagged. cbn. repeat split; reflexivity.
Qed.

Lemma tag_edges_total (edges : list Edge) :
  ~ (speed_kmh == 0)%Q ->
  exists edges',
    map_result
      (fun e =>
         data <- mode_attributes mode speed_kmh (e_data e) ;;
         Ok (mkEdge (e_src e) (e_dst e) (e_key e) data)) edges = Ok edges'.
Proof.
  intros Hs. induction edges as [|e rest IH]; [eexists; reflexivity|].
  destruct IH as (rest' & Hrest).
  destruct (mode_attributes_nonzero (e_data e) Hs) as (d & Hd).
  cbn [map_result]. rewrite Hd. cbn [bind]. rewrite Hrest. cbn [bind].
  eexists. reflexivity.
Qed.

Lemma tagged_nonneg (e e' : Edge) :
  (0 < speed_kmh)%Q -> nonneg_length e -> tagged mode speed_kmh e e' ->
  weight_is_time_nonneg e'.
Proof.
  intros Hs Hlen (_ & _ & _ & _ & _ & Ht & Hw).
  unfold weight_is_time_nonneg. rewrite Hw, Ht.
  eexists. split; [reflexivity|]. split; [reflexivity|].
  destruct (ed_length (e_data e)) as [len|] eqn:E.
  - apply travel_time_nonneg; [assumption|]. apply Hlen. assumption.
  - discriminate.
Qed.

(** C4. Whenever [_add_mode_attributes] completes it keeps the nodes and
    the edges and leaves on every edge [mode], the time
    [(length / 1000 / speed) * 60] when the edge has a length and [1.0]
    otherwise, and [weight = time]; with a positive speed and non-negative
    lengths every edge then has [weight == time >= 0].  It completes for
    every non-zero speed. *)
Theorem add_mode_attributes_spec (graph : Graph) :
  (forall graph',
      _add_mode_attributes graph mode speed_kmh = Ok graph' ->
      g_nodes graph' = g_nodes graph /\
      Forall2 (tagged mode speed_kmh) (g_edges graph) (g_edges graph') /\
      ((0 < speed_kmh)%Q -> Forall nonneg_length (g_edges graph) ->
       Forall weight_is_time_nonneg (g_edges graph'))) /\
  (~ (speed_kmh == 0)%Q ->
   exists graph', _add_mode_attributes graph mode speed_kmh = Ok graph').
Proof.
  split.
  - intros graph' Hrun. unfold _add_mode_attributes in Hrun.
    destruct (map_result _ (g_edges graph)) as [edges'|err] eqn:E; [|discriminate].
    cbn [bind] in Hrun. injection Hrun as <-. cbn [g_nodes g_edges].
    apply tag_edges_result in E.
    split; [reflexivity|]. split; [assumption|].
    intros Hpos Hlen.
    induction E as [|e e' l l' He Hrest IH]; constructor.
    + inversion Hlen; subst. eapply tagged_nonneg; eassumption.
    + apply IH. inversion Hlen; assumption.
  - intros Hs. destruct (tag_edges_total (g_edges graph) Hs) as (edges' & Hrun).
    unfold _add_mode_attributes. rewrite Hrun. cbn [bind]. eexists. reflexivity.
Qed.

End ModeAttributes.

Lemma add_mode_attributes_spec_witness :
  _add_mode_attributes walk_layer "walk" 5 = Ok walk_tagged /\
  g_nodes walk_tagged = g_nodes walk_layer /\
  Forall2 (tagged "walk" 5) (g_edges walk_layer) (g_edges walk_tagged) /\
  Forall weight_is_time_nonneg (g_edges walk_tagged) /\
  exists graph', _add_mode_attributes walk_layer "walk" 5 = Ok graph'.
Proof.
  destruct (@add_mode_attributes_spec "walk" 5 walk_layer) as (Hspec & Htotal).
  destruct (Hspec walk_tagged eq_refl) as (Hnodes & Hedges & Hnonneg).
  split; [reflexivity|]. split; [exact Hnodes|]. split; [exact Hedges|].
  split.
  - apply Hnonneg.
    + reflexivity.
    + repeat constructor. intros len H. injection H as <-. discriminate.
  - apply Htotal. discriminate.
Defined.

(** ** The multigraph operations *)

Section GraphFacts.

Lemma add_node_edges (g : Graph) (n : node) : g_edges (add_node g n) = g_edges g.
Proof. unfold add_node. destruct (has_node g n); reflexivity. Qed.

Lemma add_edge_edges (g : Graph) (u v : node) (attr : EdgeData) :
  g_edges (add_edge g u v attr) =
    g_edges g ++ [mkEdge u v (new_edge_key g u v) attr].
Proof. unfold add_edge. simpl. rewrite !add_node_edges. reflexivity. Qed.

Lemma connects_refl (u v : node) (k : nat) (d : EdgeData) :
  connects u v (mkEdge u v k d) = true.
Proof. unfold connects. simpl. rewrite !String.eqb_refl. reflexivity. Qed.

Lemma keydict_add_edge_same (g : Graph) (u v : node) (attr : EdgeData) :
  keydict (add_edge g u v attr) u v =
    keydict g u v ++ [(new_edge_key g u v, attr)].
Proof.
  unfold keydict. rewrite add_edge_edges, filter_app, map_app. simpl.
  rewrite connects_refl. reflexivity.
Qed.

Lemma bump_key_ge (kd : list (nat * EdgeData)) (fuel key : nat) :
  key <= bump_key fuel key kd.
Proof.
  revert key. induction fuel as [|fuel IH]; intros key; simpl.
  - destruct (key_lookup key kd); lia.
  - destruct (key_lookup key kd); [|lia].
    specialize (IH (S key)). lia.
Qed.

Lemma filter_leb_length (kd : list (nat * EdgeData)) (key : nat) :
  List.length (filter (fun p => Nat.leb (S key) (fst p)) kd)
  <= List.length (filter (fun p => Nat.leb key (fst p)) kd).
Proof.
  induction kd as [|[a b] r IHr]; cbn [filter fst]; [lia|].
  destruct (Nat.leb_spec (S key) a), (Nat.leb_spec key a); cbn [List.length]; lia.
Qed.

Lemma key_lookup_filter_lt (kd : list (nat * EdgeData)) (key : nat) (d : EdgeData) :
  key_lookup key kd = Some d ->
  List.length (filter (fun p => Nat.leb (S key) (fst p)) kd)
  < List.length (filter (fun p => Nat.leb key (fst p)) kd).
Proof.
  induction kd as [|[k' d'] rest IH]; cbn [key_lookup filter fst]; [discriminate|].
  destruct (Nat.eqb_spec key k') as [->|Hne].
  - intros _. pose proof (filter_leb_length rest k').
    destruct (Nat.leb_spec (S k') k'), (Nat.leb_spec k' k'); cbn [List.length]; lia.
  - intros H. specialize (IH H).
    destruct (Nat.leb_spec (S key) k'), (Nat.leb_spec key k'); cbn [List.length]; lia.
Qed.

Lemma bump_key_fresh (kd : list (nat * EdgeData)) (fuel key : nat) :
  List.length (filter (fun p => Nat.leb key (fst p)) kd) <= fuel ->
  key_lookup (bump_key fuel key kd) kd = None.
Proof.
  revert key. induction fuel as [|fuel IH]; intros key Hlen; simpl.
  - destruct (key_lookup key kd) eqn:E; [|assumption].
    apply key_lookup_filter_lt in E. lia.
  - destruct (key_lookup key kd) eqn:E; [|assumption].
    apply IH. apply key_lookup_filter_lt in E. lia.
Qed.

(** The key search of [new_edge_key] never runs out of steps: the key it
    returns is not in use. *)
Lemma new_edge_key_fresh (g : Graph) (u v : node) :
  key_lookup (new_edge_key g u v) (keydict g u v) = None.
Proof.
  unfold new_edge_key. destruct (keydict g u v) as [|first rest] eqn:E.
  - reflexivity.
  - apply bump_key_fresh. apply filter_length_le.
Qed.

Lemma key_lookup_app_other (kd : list (nat * EdgeData)) (k k' : nat) (d : EdgeData) :
  k <> k' -> key_lookup k (kd ++ [(k', d)]) = key_lookup k kd.
Proof.
  intros Hne. induction kd as [|[a b] rest IH]; simpl.
  - destruct (Nat.eqb_spec k k'); [contradiction | reflexivity].
  - destruct (Nat.eqb k a); [reflexivity | assumption].
Qed.

End GraphFacts.

(** ** Resolving the attributes of a path edge *)

Lemma get_edge_data_resolved (graph : Graph) (u v : node) :
  _get_edge_data (MultiDiGraph graph) u v =
    Ok (Dict match key_lookup 0 (keydict graph u v) with
             | Some d => d
             | None =>
                 match keydict graph u v with
                 | [] => empty_attrs
                 | (_, d) :: _ => d
                 end
             end).
Proof.
  unfold _get_edge_data, get_edge_data.
  destruct (keydict graph u v) as [|[k d] rest]; [reflexivity|].
  destruct (key_lookup 0 ((k, d) :: rest)); reflexivity.
Qed.

(** C6 (as amended). [_get_edge_data] takes the parallel edge with key [0]
    if there is one and the first inserted edge otherwise, whatever the
    weights.  So the first edge inserted between two nodes is the one
    resolved: once an edge from [u] to [v] exists, inserting a further
    parallel edge never changes the resolved attributes. *)
Theorem get_edge_data_first_inserted (graph : Graph) (u v : node) (attr : EdgeData) :
  _get_edge_data (MultiDiGraph graph) u v =
    Ok (Dict match key_lookup 0 (keydict graph u v) with
             | Some d => d
             | None =>
                 match keydict graph u v with
                 | [] => empty_attrs
                 | (_, d) :: _ => d
                 end
             end) /\
  _get_edge_data (MultiDiGraph (add_edge graph u v attr)) u v =
    match get_edge_data graph u v with
    | None => Ok (Dict attr)
    | Some _ => _get_edge_data (MultiDiGraph graph) u v
    end.
Proof.
  split; [apply get_edge_data_resolved|].
  unfold _get_edge_data, get_edge_data.
  rewrite keydict_add_edge_same. unfold new_edge_key.
  destruct (keydict graph u v) as [|first rest] eqn:E.
  - reflexivity.
  - set (k := bump_key _ _ _).
    assert (Hk : 0 <> k).
    { pose proof (bump_key_ge (first :: rest) (List.length (first :: rest))
                              (List.length (first :: rest))) as H.
      fold k in H. simpl in H. lia. }
    change ((first :: rest) ++ [(k, attr)]) with (first :: (rest ++ [(k, attr)])).
    cbv iota beta.
    change (first :: rest ++ [(k, attr)]) with ((first :: rest) ++ [(k, attr)]).
    rewrite (key_lookup_app_other _ attr Hk). reflexivity.
Qed.

(** C6 (as stated) fails: with a heavier edge inserted before a lighter
    parallel one, the heavier edge's attributes are resolved. *)
Lemma get_edge_data_not_lowest_weight :
  keydict parallel_graph "u" "v" = [(0, slow_attrs); (1, fast_attrs)] /\
  _get_edge_data (MultiDiGraph parallel_graph) "u" "v" = Ok (Dict slow_attrs) /\
  ~ picks_lowest_weight parallel_graph "u" "v".
Proof.
  split; [reflexivity|]. split; [reflexivity|].
  intros H.
  specialize (H 1 fast_attrs 1%Q slow_attrs 5%Q).
  assert (Hle : (5 <= 1)%Q).
  { apply H; [right; left; reflexivity | reflexivity | reflexivity | reflexivity]. }
  revert Hle. apply Qlt_not_le. reflexivity.
Qed.

(** ** The segment assembler *)

Section Assembler.

Variable graph : AnyGraph.

Lemma sum_Z_acc (l : list Z) (a : Z) :
  fold_left Z.add l a = (a + sum_Z l)%Z.
Proof.
  unfold sum_Z. revert a. induction l as [|z l IH]; intros a; simpl.
  - lia.
  - rewrite IH, (IH z). lia.
Qed.

Lemma sum_Z_snoc (l : list Z) (z : Z) : sum_Z (l ++ [z]) = (sum_Z l + z)%Z.
Proof. unfold sum_Z. rewrite fold_left_app. reflexivity. Qed.

Lemma calc_cost_flat (mode : string) (t : Q) :
  calc_cost mode t = if String.eqb mode "car" then 20%Z else 0%Z.
Proof.
  unfold calc_cost.
  destruct (String.eqb mode "car"); [reflexivity|].
  destruct (String.eqb mode "bike"); [reflexivity|].
  destruct (String.eqb mode "walk"); [reflexivity|].
  destruct (String.eqb mode "transfer"); reflexivity.
Qed.

Lemma append_new_not_nil (l : list coord) (c : coord) : append_new l c <> [].
Proof.
  unfold append_new. destruct (coord_in c l) eqn:E.
  - destruct l; [discriminate E | discriminate].
  - destruct l; discriminate.
Qed.

(** An iteration that returns has read a mode and a time off the edge and a
    coordinate off the node the edge leaves, and has done the bookkeeping
    with them. *)
Lemma process_edge_inv (st st' : Assembly) (u v : node) :
  process_edge graph st u v = Ok st' ->
  exists mode time c,
    edge_mode graph u v = Ok mode /\
    edge_time graph u v = Ok time /\
    node_coord graph u = Ok c /\
    st' = accrue st mode time c.
Proof.
  unfold process_edge, edge_mode, edge_time.
  destruct (_get_edge_data graph u v) as [[d|]|e]; cbn [bind object_get];
    try discriminate.
  destruct (node_coord graph u) as [c|e]; cbn [bind]; [|discriminate].
  intros H. injection H as <-. eexists _, _, c. repeat split.
Qed.

(** Conversely, when the three reads return, so does the iteration. *)
Lemma process_edge_returns (st : Assembly) (u v : node) (mode : string) (time : Q)
      (c : coord) :
  edge_mode graph u v = Ok mode ->
  edge_time graph u v = Ok time ->
  node_coord graph u = Ok c ->
  process_edge graph st u v = Ok (accrue st mode time c).
Proof.
  unfold process_edge, edge_mode, edge_time.
  destruct (_get_edge_data graph u v) as [[d|]|e]; cbn [bind object_get];
    try discriminate.
  intros Hm Ht ->. injection Hm as <-. injection Ht as <-. reflexivity.
Qed.

(** The bookkeeping: the cost of the edge is accrued, nothing is lost when a
    segment is closed, and a segment is open afterwards. *)
Lemma accrue_accrued (st : Assembly) (mode : string) (time : Q) (c : coord) :
  (current_mode st <> None -> current_coords st <> []) ->
  accrued (accrue st mode time c) = (accrued st + calc_cost mode time)%Z /\
  current_mode (accrue st mode time c) = Some mode /\
  current_coords (accrue st mode time c) <> [].
Proof.
  intros Hopen. unfold accrue.
  destruct st as [sg cm cc ct cost]. cbn [current_mode current_coords a_segments
    current_time current_cost] in *.
  destruct cm as [m|].
  - cbn [current_mode current_coords a_segments current_time current_cost].
    destruct (String.eqb_spec mode m) as [<-|Hne].
    + unfold accrued. cbn [current_mode current_coords a_segments current_time current_cost].
      repeat split; try lia; apply append_new_not_nil.
    + assert (Hcc : cc <> []) by (apply Hopen; discriminate).
      destruct cc as [|c0 cc]; [contradiction|].
      unfold accrued. cbn [current_mode current_coords a_segments current_time current_cost is_nil].
      rewrite map_app. cbn [map seg_cost]. rewrite sum_Z_snoc. unfold round0.
      repeat split; try lia; apply append_new_not_nil.
  - cbn [current_mode current_coords a_segments current_time current_cost].
    rewrite String.eqb_refl. unfold accrued.
    cbn [current_mode current_coords a_segments current_time current_cost].
    repeat split; try lia; apply append_new_not_nil.
Qed.

Lemma assemble_loop_accrued (path : list node) :
  forall st st',
    assemble_loop graph st path = Ok st' ->
    (current_mode st <> None -> current_coords st <> []) ->
    accrued st' = (accrued st + 20 * car_edge_count graph path)%Z /\
    (current_mode st' <> None -> current_coords st' <> []) /\
    (2 <= List.length path -> current_mode st' <> None).
Proof.
  induction path as [|u rest IH]; intros st st' Hrun Hopen.
  - injection Hrun as <-. cbn. repeat split; [lia | assumption | lia].
  - destruct rest as [|v rest'].
    + injection Hrun as <-. cbn. repeat split; [lia | assumption | lia].
    + cbn [assemble_loop] in Hrun.
      destruct (process_edge graph st u v) as [st1|e] eqn:E; [|discriminate].
      cbn [bind] in Hrun.
      destruct (process_edge_inv _ _ _ E) as (mode & time & c & Hm & _ & _ & ->).
      destruct (accrue_accrued st mode time c Hopen) as (Hacc & Hmode & Hcoords).
      destruct (IH _ st' Hrun (fun _ => Hcoords)) as (Hacc' & Hopen' & Hmode').
      split; [|split].
      * rewrite Hacc', Hacc, calc_cost_flat. cbn [car_edge_count].
        unfold car_edge. rewrite Hm.
        destruct (String.eqb mode "car"); lia.
      * assumption.
      * intros _. destruct rest' as [|w rest''].
        -- injection Hrun as <-. rewrite Hmode. discriminate.
        -- apply Hmode'. cbn. lia.
Qed.

(** The sum of the segment costs is 20 per car edge of the path. *)
Lemma path_to_segments_cost (path : list node) (segs : list Segment) :
  _path_to_segments graph path = Ok segs ->
  sum_Z (map seg_cost segs) = (20 * car_edge_count graph path)%Z.
Proof.
  unfold _path_to_segments.
  destruct (Nat.ltb_spec (List.length path) 2) as [Hshort|Hlong].
  - intros H. injection H as <-.
    destruct path as [|u [|v rest]]; cbn in *; try reflexivity. lia.
  - destruct (assemble_loop graph assembly_init path) as [st|e] eqn:E; [|discriminate].
    cbn [bind].
    assert (Hinit : current_mode assembly_init <> None ->
                    current_coords assembly_init <> []) by (cbn; congruence).
    destruct (assemble_loop_accrued _ _ E Hinit) as (Hacc & _ & Hmode).
    specialize (Hmode Hlong).
    destruct (Nat.ltb_spec 1 (List.length path)) as [_|Hbad]; [|lia].
    destruct (node_coord graph (last path ""%string)) as [fc|e]; [|discriminate].
    cbn [bind].
    destruct (current_mode st) as [m|]; [|contradiction].
    destruct (append_new (current_coords st) fc) as [|c0 cs] eqn:Ea.
    + exfalso. revert Ea. apply append_new_not_nil.
    + cbn [is_nil]. intros H. injection H as <-.
      rewrite map_app. cbn [map seg_cost]. rewrite sum_Z_snoc. unfold round0.
      change (accrued assembly_init) with 0%Z in Hacc.
      unfold accrued in Hacc. lia.
Qed.

End Assembler.

(** ** The reference search meets the contract of the library *)

Section Search.

Variable g : AnyGraph.
Variable source : node.

Lemma dict_get_In (V : Type) (k : string) (v : V) (d : list (string * V)) :
  dict_get k d = Some v -> In (k, v) d.
Proof.
  induction d as [|[k' v'] rest IH]; simpl; [discriminate|].
  destruct (String.eqb_spec k k') as [->|_].
  - intros H. injection H as ->. left. reflexivity.
  - intros H. right. apply IH. assumption.
Qed.

Lemma dict_set_Forall (V : Type) (P : string * V -> Prop) (k : string) (v : V)
      (d : list (string * V)) :
  Forall P d -> P (k, v) -> Forall P (dict_set k v d).
Proof.
  intros Hd Hk. induction Hd as [|[k' v'] rest Hh Ht IH]; simpl.
  - constructor; [assumption | constructor].
  - destruct (String.eqb k k'); constructor; assumption.
Qed.

Lemma has_edge_of_arc (src dst : node) (time : Q) :
  In (src, dst, time) (arcs g) -> has_edge g src dst = true.
Proof.
  unfold arcs, has_edge. destruct g as [m|d]; intros H;
    apply in_map_iff in H; destruct H as (e & Heq & Hin);
    injection Heq as <- <- _; apply existsb_exists; exists e;
    (split; [assumption|]).
  - unfold connects. rewrite !String.eqb_refl. reflexivity.
  - unfold joins. rewrite !String.eqb_refl. reflexivity.
Qed.

Lemma relax_sound (tbl : list (string * (Q * list node))) (arc : node * node * Q) :
  In arc (arcs g) ->
  Forall (reaches g source) tbl -> Forall (reaches g source) (relax tbl arc).
Proof.
  destruct arc as [[src dst] time]. intros He Htbl. unfold relax.
  destruct (dict_get src tbl) as [[d p]|] eqn:Esrc; [|assumption].
  assert (Hnew : forall q, reaches g source (dst, (q, p ++ [dst]))).
  { intros q. unfold reaches. simpl.
    apply walk_step with (u := src); [|eapply has_edge_of_arc; eassumption].
    apply dict_get_In in Esrc.
    rewrite Forall_forall in Htbl. apply (Htbl _ Esrc). }
  destruct (dict_get dst tbl) as [[d' p']|].
  - destruct (Qlt_bool _ d'); [|assumption].
    apply dict_set_Forall; [assumption | apply Hnew].
  - apply dict_set_Forall; [assumption | apply Hnew].
Qed.

Lemma relax_all_sound (edges : list (node * node * Q)) :
  incl edges (arcs g) ->
  forall tbl, Forall (reaches g source) tbl ->
              Forall (reaches g source) (fold_left relax edges tbl).
Proof.
  induction edges as [|e rest IH]; intros Hincl tbl Htbl; simpl; [assumption|].
  apply IH.
  - intros x Hx. apply Hincl. right. assumption.
  - apply relax_sound; [apply Hincl; left; reflexivity | assumption].
Qed.

Lemma relax_rounds_sound (n : nat) :
  forall tbl, Forall (reaches g source) tbl ->
              Forall (reaches g source) (relax_rounds n g tbl).
Proof.
  induction n as [|n IH]; intros tbl Htbl; simpl; [assumption|].
  apply IH. apply relax_all_sound; [apply incl_refl | assumption].
Qed.

(** Any path the reference search returns is a directed walk of the graph. *)
Lemma relaxation_search_walk (target : node) (p : list node) :
  relaxation_search g source target = Some p -> walk g source target p.
Proof.
  unfold relaxation_search.
  destruct (String.eqb_spec source target) as [<-|_].
  - intros H. injection H as <-. constructor.
  - destruct (dict_get target _) as [[d q]|] eqn:E; [|discriminate].
    simpl. intros H. injection H as <-.
    apply dict_get_In in E.
    assert (Hall : Forall (reaches g source)
                     (relax_rounds (List.length (nodes g)) g [(source, (0%Q, [source]))])).
    { apply relax_rounds_sound. constructor; [|constructor].
      unfold reaches. simpl. constructor. }
    rewrite Forall_forall in Hall. apply (Hall _ E).
Qed.

Lemma relaxation_search_self : relaxation_search g source source = Some [source].
Proof. unfold relaxation_search. rewrite String.eqb_refl. reflexivity. Qed.

End Search.

(** ** Route computation *)

Section Routing.

Variable geodesic : coord -> coord -> Q.
Variable shortest_path : AnyGraph -> node -> node -> option (list node).

(** The contract of [networkx.shortest_path]: a returned path is a
    directed walk from the source to the target, and the path from a node
    of the graph to itself is that node alone. *)
Hypothesis shortest_path_walk :
  forall g s t p, shortest_path g s t = Some p -> walk g s t p.
Hypothesis shortest_path_self :
  forall g s, In s (map fst (nodes g)) -> shortest_path g s s = Some [s].

Lemma nearest_fold_in_graph (G : AnyGraph) (lat lon : Q) (l : list (node * NodeData)) :
  forall acc,
    (forall n, snd acc = Some n -> In n (map fst (nodes G))) ->
    (forall e, In e l -> In (fst e) (map fst (nodes G))) ->
    forall n, snd (fold_left (nearest_step geodesic lat lon) l acc) = Some n ->
              In n (map fst (nodes G)).
Proof.
  induction l as [|[m data] rest IH]; intros acc Hacc Hl n; simpl.
  - apply Hacc.
  - apply IH.
    + intros k. destruct acc as [min_dist nearest]. unfold nearest_step.
      assert (Hm : In m (map fst (nodes G))) by (apply (Hl (m, data)); left; reflexivity).
      destruct (nd_y data); [|apply Hacc].
      destruct (nd_x data); [|apply Hacc].
      destruct min_dist as [d|].
      * destruct (Qlt_bool _ d); [|apply Hacc].
        simpl. intros H. injection H as <-. assumption.
      * simpl. intros H. injection H as <-. assumption.
    + intros e He. apply Hl. right. assumption.
Qed.

(** [nearest_node] only ever returns a node of the graph. *)
Lemma nearest_node_in_graph (G : AnyGraph) (lat lon : Q) (n : node) :
  nearest_node geodesic G lat lon = Some n -> In n (map fst (nodes G)).
Proof.
  unfold nearest_node. apply nearest_fold_in_graph.
  - simpl. discriminate.
  - intros e He. apply in_map. assumption.
Qed.

(** C9. When both coordinates resolve to the same nearest node, the route
    has no segment and its totals are zero. *)
Theorem same_node_route (graph : AnyGraph) (start_lat start_lon end_lat end_lon : Q)
        (n : node) :
  nearest_node geodesic graph start_lat start_lon = Some n ->
  nearest_node geodesic graph end_lat end_lon = Some n ->
  get_multimodal_route geodesic shortest_path graph start_lat start_lon end_lat end_lon
  = Ok (mkRoute 0 0 []).
Proof.
  intros Hs He. unfold get_multimodal_route. rewrite Hs, He.
  rewrite shortest_path_self by (eapply nearest_node_in_graph; eassumption).
  reflexivity.
Qed.

(** C8. When no directed walk leads from the resolved start node to the
    resolved end node, route computation raises the "No path found" error
    and returns no route. *)
Theorem disconnected_no_route (graph : AnyGraph)
        (start_lat start_lon end_lat end_lon : Q) (start_node end_node : node) :
  nearest_node geodesic graph start_lat start_lon = Some start_node ->
  nearest_node geodesic graph end_lat end_lon = Some end_node ->
  (forall p, ~ walk graph start_node end_node p) ->
  get_multimodal_route geodesic shortest_path graph start_lat start_lon end_lat end_lon
  = Raise (ValueError "No path found between the specified points").
Proof.
  intros Hs He Hnone. unfold get_multimodal_route. rewrite Hs, He.
  destruct (shortest_path graph start_node end_node) as [p|] eqn:E; [|reflexivity].
  exfalso. apply (Hnone p). apply shortest_path_walk. assumption.
Qed.

(** C5. [calc_cost] is 20 for ['car'] and 0 for every other mode, and the
    total cost of a computed route is 20 times the number of car-mode
    edges of the path it was assembled from. *)
Theorem route_cost_per_car_edge (graph : AnyGraph)
        (start_lat start_lon end_lat end_lon : Q) (r : Route) :
  get_multimodal_route geodesic shortest_path graph start_lat start_lon end_lat end_lon
  = Ok r ->
  (forall mode t, calc_cost mode t = if String.eqb mode "car" then 20%Z else 0%Z) /\
  exists start_node end_node path,
    nearest_node geodesic graph start_lat start_lon = Some start_node /\
    nearest_node geodesic graph end_lat end_lon = Some end_node /\
    shortest_path graph start_node end_node = Some path /\
    _path_to_segments graph path = Ok (segments r) /\
    total_cost r = (20 * car_edge_count graph path)%Z.
Proof.
  intros H. split; [apply calc_cost_flat|].
  unfold get_multimodal_route in H.
  destruct (nearest_node geodesic graph start_lat start_lon) as [s|]; [|discriminate].
  destruct (nearest_node geodesic graph end_lat end_lon) as [e|]; [|discriminate].
  destruct (shortest_path graph s e) as [path|] eqn:Esp; [|discriminate].
  destruct (_path_to_segments graph path) as [segs|err] eqn:E; [|discriminate].
  cbn [bind] in H. injection H as <-.
  exists s, e, path. cbn [segments total_cost]. unfold round0.
  repeat split; try reflexivity; try assumption.
  apply path_to_segments_cost with (graph := graph). assumption.
Qed.

End Routing.

Lemma same_node_route_witness :
  nearest_node planar_metres (MultiDiGraph city) 52.37 4.88 = Some "A_walk"%string /\
  nearest_node planar_metres (MultiDiGraph city) 52.3701 4.8801 = Some "A_walk"%string /\
  get_multimodal_route planar_metres relaxation_search (MultiDiGraph city)
                       52.37 4.88 52.3701 4.8801
  = Ok (mkRoute 0 0 []).
Proof.
  split; [reflexivity|]. split; [reflexivity|].
  apply same_node_route with (n := "A_walk"%string).
  - intros g s _. apply relaxation_search_self.
  - reflexivity.
  - reflexivity.
Defined.

Lemma has_edge_arc (g : AnyGraph) (u v : node) :
  has_edge g u v = true -> exists time, In (u, v, time) (arcs g).
Proof.
  unfold has_edge, arcs. destruct g as [m|d]; intros H;
    apply existsb_exists in H; destruct H as (e & Hin & Hc);
    apply andb_prop in Hc; destruct Hc as [Hsrc Hdst];
    apply String.eqb_eq in Hsrc; apply String.eqb_eq in Hdst; subst u v;
    eexists; apply in_map_iff; exists e; (split; [reflexivity | assumption]).
Qed.

(** The properties of the start node that hold along the edges hold at the
    end of every walk. *)
Lemma walk_invariant (g : AnyGraph) (s : node) (P : node -> Prop) :
  P s ->
  (forall src dst time, In (src, dst, time) (arcs g) -> P src -> P dst) ->
  forall t p, walk g s t p -> P t.
Proof.
  intros Hs Hstep t p Hw. induction Hw as [|u v p Hw IH He]; [assumption|].
  apply has_edge_arc in He. destruct He as (time & Hin).
  eapply Hstep; eassumption.
Qed.

Lemma disconnected_no_route_witness :
  nearest_node planar_metres (MultiDiGraph unlinked_city) 52.37 4.88 = Some "A_walk"%string /\
  nearest_node planar_metres (MultiDiGraph unlinked_city) 52.37 4.9168
  = Some "C_car"%string /\
  (forall p, ~ walk (MultiDiGraph unlinked_city) "A_walk" "C_car" p) /\
  get_multimodal_route planar_metres relaxation_search (MultiDiGraph unlinked_city)
                       52.37 4.88 52.37 4.9168
  = Raise (ValueError "No path found between the specified points").
Proof.
  assert (Hnone : forall p, ~ walk (MultiDiGraph unlinked_city) "A_walk" "C_car" p).
  { intros p Hw.
    assert (HP : "C_car"%string = "A_walk"%string \/ "C_car"%string = "B_walk"%string).
    { apply walk_invariant
        with (P := fun n : node => n = "A_walk"%string \/ n = "B_walk"%string)
             (g := MultiDiGraph unlinked_city) (s := "A_walk"%string) (p := p).
      - left. reflexivity.
      - intros src dst time [Ha|[Ha|[]]] [H|H]; injection Ha as <- <- _;
          try discriminate H.
        right. reflexivity.
      - exact Hw. }
    destruct HP as [H|H]; discriminate H. }
  split; [reflexivity|]. split; [reflexivity|]. split; [exact Hnone|].
  apply disconnected_no_route with (start_node := "A_walk"%string)
                                   (end_node := "C_car"%string).
  - intros g s t p. apply relaxation_search_walk.
  - reflexivity.
  - reflexivity.
  - exact Hnone.
Defined.

(** The scenario of the specification: 6.0 min on foot, a 0.5 min transfer,
    3.0 min by car for 20 units. *)
Example scenario_route_value :
  scenario_route =
    mkRoute (19 # 2) 20
            [mkSegment "walk" [pos_A] 6 0;
             mkSegment "transfer" [pos_B] (1 # 2) 0;
             mkSegment "car" [pos_B; pos_C] 3 20].
Proof. reflexivity. Qed.

Lemma route_cost_per_car_edge_witness :
  get_multimodal_route planar_metres relaxation_search (MultiDiGraph city)
                       52.37 4.88 52.37 4.9168
  = Ok scenario_route /\
  total_cost scenario_route = 20%Z /\
  exists start_node end_node path,
    nearest_node planar_metres (MultiDiGraph city) 52.37 4.88 = Some start_node /\
    nearest_node planar_metres (MultiDiGraph city) 52.37 4.9168 = Some end_node /\
    relaxation_search (MultiDiGraph city) start_node end_node = Some path /\
    _path_to_segments (MultiDiGraph city) path = Ok (segments scenario_route) /\
    total_cost scenario_route = (20 * car_edge_count (MultiDiGraph city) path)%Z.
Proof.
  split; [reflexivity|]. split; [reflexivity|].
  apply (@route_cost_per_car_edge planar_metres relaxation_search (MultiDiGraph city)
                                  52.37%Q 4.88%Q 52.37%Q 4.9168%Q scenario_route).
  reflexivity.
Defined.

(** ** Missing edges and missing attributes *)

Lemma last_In (path : list node) (d : node) : path <> [] -> In (last path d) path.
Proof.
  induction path as [|u rest IH]; [congruence|]. intros _.
  destruct rest as [|v rest']; [left; reflexivity|].
  right. apply IH. discriminate.
Qed.

(** The bookkeeping works with the mode and the time it is given. *)
Lemma accrue_reads (st : Assembly) (mode : string) (time : Q) (c : coord) :
  current_mode (accrue st mode time c) = Some mode /\
  current_time (accrue st mode time c) =
    ((match current_mode st with
      | Some m => if String.eqb mode m then current_time st else 0
      | None => current_time st
      end) + time)%Q.
Proof.
  unfold accrue. destruct (current_mode st) as [m|] eqn:Em.
  - rewrite Em. destruct (String.eqb_spec mode m) as [<-|Hne].
    + split; [assumption | reflexivity].
    + split; reflexivity.
  - cbn [current_mode]. rewrite String.eqb_refl. split; reflexivity.
Qed.

Section Defaults.

Variable g : Graph.

(** On a [MultiDiGraph] the reads off an edge always return. *)
Lemma multigraph_edge_reads (u v : node) :
  exists d,
    _get_edge_data (MultiDiGraph g) u v = Ok (Dict d) /\
    edge_mode (MultiDiGraph g) u v = Ok (attr_get (ed_mode d) "walk"%string) /\
    edge_time (MultiDiGraph g) u v = Ok (attr_get (ed_time d) 1%Q).
Proof.
  unfold edge_mode, edge_time. rewrite get_edge_data_resolved.
  eexists. repeat split.
Qed.

Lemma assemble_loop_total (path : list node) :
  located_path (MultiDiGraph g) path ->
  forall st, exists st', assemble_loop (MultiDiGraph g) st path = Ok st'.
Proof.
  induction path as [|u rest IH]; intros Hloc st; [eexists; reflexivity|].
  destruct rest as [|v rest']; [eexists; reflexivity|].
  cbn [assemble_loop].
  destruct (Hloc u (or_introl eq_refl)) as (c & Hc).
  destruct (multigraph_edge_reads u v) as (d & _ & Hm & Ht).
  rewrite (@process_edge_returns (MultiDiGraph g) st u v _ _ c Hm Ht Hc). cbn [bind].
  apply IH. intros n Hn. apply Hloc. right. assumption.
Qed.

(** With coordinates on every node of the path the assembler returns. *)
Lemma path_to_segments_total (path : list node) :
  located_path (MultiDiGraph g) path ->
  exists segs, _path_to_segments (MultiDiGraph g) path = Ok segs.
Proof.
  intros Hloc. unfold _path_to_segments.
  destruct (Nat.ltb (List.length path) 2); [eexists; reflexivity|].
  destruct (assemble_loop_total Hloc assembly_init) as (st & ->). cbn [bind].
  destruct (Nat.ltb_spec 1 (List.length path)) as [Hlen|_].
  - destruct (Hloc (last path ""%string)) as (c & ->).
    { apply last_In. destruct path; [simpl in Hlen; lia | discriminate]. }
    cbn [bind]. destruct (current_mode st); [|eexists; reflexivity].
    destruct (is_nil _); eexists; reflexivity.
  - cbn [bind]. destruct (current_mode st); [|eexists; reflexivity].
    destruct (is_nil _); eexists; reflexivity.
Qed.

End Defaults.

(** C10 at a failing input: the street as [build] returns it from a cache
    file without parallel edges, a plain [DiGraph].  Its edge has a length
    and neither mode nor time, and both nodes carry coordinates.  The
    attribute dictionary of the edge is taken for a key dictionary, its
    first value is resolved in place of the edge data, and reading the mode
    off that value raises; on an edge without any attribute taking the
    first value raises.  Against the edge, from [B] to [A], there is no
    edge and the defaults apply; and the same street as a [MultiDiGraph] is
    assembled with the defaults. *)
Theorem digraph_defaults_not_applied :
  build planar_metres scenario_extract (Some (DiGraph cached_street)) true 5 15 40
  = Ok (DiGraph cached_street) /\
  located_path (DiGraph cached_street) ["A"; "B"]%string /\
  _get_edge_data (DiGraph cached_street) "A" "B" = Ok Scalar /\
  edge_mode (DiGraph cached_street) "A" "B" = Raise AttributeError /\
  _path_to_segments (DiGraph cached_street) ["A"; "B"]%string = Raise AttributeError /\
  get_multimodal_route planar_metres relaxation_search (DiGraph cached_street)
                       52.37 4.88 52.37 4.8874
  = Raise AttributeError /\
  _path_to_segments (DiGraph bare_street) ["A"; "B"]%string = Raise IndexError /\
  _path_to_segments (DiGraph cached_street) ["B"; "A"]%string
  = Ok [mkSegment "walk" [pos_B; pos_A] 1 0] /\
  edge_mode (MultiDiGraph street) "A" "B" = Ok "walk"%string /\
  edge_time (MultiDiGraph street) "A" "B" = Ok 1%Q /\
  _path_to_segments (MultiDiGraph street) ["A"; "B"]%string
  = Ok [mkSegment "walk" [pos_A; pos_B] 1 0] /\
  ~ never_fails (DiGraph cached_street) /\
  ~ never_fails (DiGraph bare_street).
Proof.
  assert (Hloc : forall d, located_path (DiGraph (mkPlainGraph (pg_nodes cached_street) d))
                                        ["A"; "B"]%string).
  { intros d n [<-|[<-|[]]]; eexists; reflexivity. }
  split; [reflexivity|]. split; [apply Hloc|].
  do 9 (split; [reflexivity|]).
  split; intros H.
  - destruct (H ["A"; "B"]%string (Hloc _)) as (segs & Hsegs). discriminate Hsegs.
  - destruct (H ["A"; "B"]%string (Hloc _)) as (segs & Hsegs). discriminate Hsegs.
Qed.

(** ** Segment coordinates *)

Section Coordinates.

Variable graph : AnyGraph.

Lemma coord_eqb_refl (c : coord) : coord_eqb c c = true.
Proof. unfold coord_eqb. rewrite !Qeq_bool_refl. reflexivity. Qed.

Lemma coord_eqb_comm (a b : coord) : coord_eqb a b = coord_eqb b a.
Proof.
  unfold coord_eqb.
  rewrite (Qeq_bool_comm (fst a)), (Qeq_bool_comm (snd a)). reflexivity.
Qed.

Lemma coord_in_snoc (x c : coord) (l : list coord) :
  coord_in x (l ++ [c]) = coord_in x l || coord_eqb x c.
Proof.
  unfold coord_in. rewrite existsb_app. simpl. rewrite orb_false_r. reflexivity.
Qed.

Lemma append_new_in (l : list coord) (c : coord) : coord_in c (append_new l c) = true.
Proof.
  unfold append_new. destruct (coord_in c l) eqn:E; [assumption|].
  rewrite coord_in_snoc, coord_eqb_refl. apply orb_true_r.
Qed.

Lemma append_new_keeps (l : list coord) (c x : coord) :
  coord_in x l = true -> coord_in x (append_new l c) = true.
Proof.
  intros H. unfold append_new. destruct (coord_in c l); [assumption|].
  rewrite coord_in_snoc, H. reflexivity.
Qed.

Lemma distinct_snoc (l : list coord) (c : coord) :
  distinct l = true -> coord_in c l = false -> distinct (l ++ [c]) = true.
Proof.
  induction l as [|a rest IH]; intros Hd Hc; [reflexivity|].
  cbn [distinct app] in *. apply andb_prop in Hd. destruct Hd as [Ha Hrest].
  cbn [coord_in existsb] in Hc. apply orb_false_elim in Hc. destruct Hc as [Hca Hcr].
  rewrite coord_in_snoc, (coord_eqb_comm a c), Hca, orb_false_r, Ha.
  apply IH; assumption.
Qed.

Lemma append_new_distinct (l : list coord) (c : coord) :
  distinct l = true -> distinct (append_new l c) = true.
Proof.
  intros H. unfold append_new. destruct (coord_in c l) eqn:E; [assumption|].
  apply distinct_snoc; assumption.
Qed.

Lemma fold_append_new_distinct (cs : list coord) :
  forall l, distinct l = true -> distinct (fold_left append_new cs l) = true.
Proof.
  induction cs as [|c rest IH]; intros l H; [assumption|].
  apply IH. apply append_new_distinct. assumption.
Qed.

Lemma fold_append_new_keeps (cs : list coord) (x : coord) :
  forall l, coord_in x l = true -> coord_in x (fold_left append_new cs l) = true.
Proof.
  induction cs as [|c rest IH]; intros l H; [assumption|].
  apply IH. apply append_new_keeps. assumption.
Qed.

Lemma fold_append_new_all (cs : list coord) (x : coord) :
  forall l, In x cs -> coord_in x (fold_left append_new cs l) = true.
Proof.
  induction cs as [|c rest IH]; intros l Hx; [contradiction|].
  cbn [fold_left]. destruct Hx as [->|Hx].
  - apply fold_append_new_keeps. apply append_new_in.
  - apply IH. assumption.
Qed.

Lemma append_new_single (c : coord) : append_new [c] c = [c].
Proof.
  unfold append_new. cbn [coord_in existsb]. rewrite coord_eqb_refl. reflexivity.
Qed.

(** The bookkeeping keeps every coordinate list duplicate-free. *)
Lemma accrue_duplicate_free (st : Assembly) (mode : string) (time : Q) (c : coord) :
  duplicate_free st -> duplicate_free (accrue st mode time c).
Proof.
  unfold accrue. intros [Hsegs Hcur].
  destruct st as [sg cm cc ct cost].
  cbn [current_mode current_coords a_segments current_time current_cost] in *.
  destruct cm as [m|];
    cbn [current_mode current_coords a_segments current_time current_cost].
  - destruct (String.eqb mode m);
      cbn [current_mode current_coords a_segments current_time current_cost].
    + split; [assumption | apply append_new_distinct; assumption].
    + split; [|apply append_new_distinct; reflexivity].
      destruct cc as [|c0 cc']; cbn [is_nil]; [assumption|].
      apply Forall_app. split; [assumption|].
      constructor; [assumption | constructor].
  - rewrite String.eqb_refl.
    cbn [current_mode current_coords a_segments current_time current_cost].
    split; [assumption | apply append_new_distinct; reflexivity].
Qed.

Lemma assemble_loop_duplicate_free (path : list node) :
  forall st st',
    assemble_loop graph st path = Ok st' -> duplicate_free st -> duplicate_free st'.
Proof.
  induction path as [|u rest IH]; intros st st' Hrun Hinv.
  - injection Hrun as <-. assumption.
  - destruct rest as [|v rest'].
    + injection Hrun as <-. assumption.
    + cbn [assemble_loop] in Hrun.
      destruct (process_edge graph st u v) as [st1|e] eqn:E; [|discriminate].
      cbn [bind] in Hrun.
      destruct (process_edge_inv _ _ _ _ E) as (mode & time & c & _ & _ & _ & ->).
      apply (IH _ st' Hrun). apply accrue_duplicate_free. assumption.
Qed.

(** The bookkeeping inside a run of mode [m]: no segment is closed and the
    coordinate goes through [append_new]. *)
Lemma accrue_uniform (st : Assembly) (m : string) (time : Q) (c : coord) :
  current_mode st = Some m \/ (current_mode st = None /\ current_coords st = []) ->
  a_segments (accrue st m time c) = a_segments st /\
  current_mode (accrue st m time c) = Some m /\
  current_coords (accrue st m time c) = append_new (current_coords st) c.
Proof.
  intros Hst. unfold accrue.
  destruct st as [sg cm cc ct cost].
  cbn [current_mode current_coords a_segments current_time current_cost] in *.
  destruct Hst as [->|[-> ->]];
    cbn [current_mode current_coords a_segments current_time current_cost];
    rewrite String.eqb_refl;
    cbn [current_mode current_coords a_segments current_time current_cost].
  - repeat split.
  - repeat split. unfold append_new. cbn [coord_in existsb].
    rewrite coord_eqb_refl. reflexivity.
Qed.

(** Where the mode can be read off an edge, so can the time. *)
Lemma edge_mode_time (u v : node) (m : string) :
  edge_mode graph u v = Ok m -> exists t, edge_time graph u v = Ok t.
Proof.
  unfold edge_mode, edge_time.
  destruct (_get_edge_data graph u v) as [[d|]|e]; cbn [bind object_get];
    try discriminate.
  intros _. eexists. reflexivity.
Qed.

Lemma map_result_cons (A B : Type) (f : A -> result B) (a : A) (l : list A)
      (bs : list B) :
  map_result f (a :: l) = Ok bs ->
  exists b bs', f a = Ok b /\ map_result f l = Ok bs' /\ bs = b :: bs'.
Proof.
  cbn [map_result]. destruct (f a) as [b|e]; [|discriminate]. cbn [bind].
  destruct (map_result f l) as [bs'|e]; [|discriminate]. cbn [bind].
  intros H. injection H as <-. exists b, bs'. repeat split.
Qed.

Lemma assemble_loop_uniform (m : string) (path : list node) :
  forall cs st,
    path <> [] ->
    map_result (node_coord graph) path = Ok cs ->
    uniform_mode graph m path ->
    current_mode st = Some m \/ (current_mode st = None /\ current_coords st = []) ->
    exists st' c_last,
      assemble_loop graph st path = Ok st' /\
      a_segments st' = a_segments st /\
      node_coord graph (last path ""%string) = Ok c_last /\
      append_new (current_coords st') c_last
      = fold_left append_new cs (current_coords st) /\
      (2 <= List.length path -> current_mode st' = Some m).
Proof.
  induction path as [|u rest IH]; intros cs st Hne Hcs Hu Hst; [congruence|].
  apply map_result_cons in Hcs. destruct Hcs as (c & cs' & Hc & Hcs' & ->).
  destruct rest as [|v rest'].
  - injection Hcs' as <-. exists st, c. repeat split; try assumption.
    cbn. intros H. lia.
  - destruct Hu as [Hm Hu].
    destruct (edge_mode_time _ _ Hm) as (time & Ht).
    pose proof (@process_edge_returns graph st u v m time c Hm Ht Hc) as Hstep.
    destruct (@accrue_uniform st m time c Hst) as (Hsg & Hmode & Hcc).
    set (st1 := accrue st m time c) in *.
    destruct (IH cs' st1) as (st' & c_last & Hrun & Hsg' & Hlast & Hfold & _);
      try assumption; [discriminate | left; assumption |].
    exists st', c_last. cbn [assemble_loop]. rewrite Hstep. cbn [bind].
    repeat split.
    + assumption.
    + congruence.
    + assumption.
    + rewrite Hfold, Hcc. reflexivity.
    + intros _. destruct rest' as [|w rest''].
      * injection Hrun as <-. assumption.
      * destruct Hu as [Hm' Hu'].
        destruct (IH cs' st1) as (st2 & c2 & Hrun2 & _ & _ & _ & Hmode2);
          try assumption; [discriminate | split; assumption | left; assumption |].
        rewrite Hrun in Hrun2. injection Hrun2 as <-.
        apply Hmode2. cbn. lia.
Qed.

(** The bookkeeping, on the coordinate list: the coordinate goes through
    [append_new] when the segment continues, and starts the list of a new
    segment otherwise. *)
Lemma accrue_coords (st : Assembly) (mode : string) (time : Q) (c : coord) :
  current_coords (accrue st mode time c) =
    match current_mode st with
    | Some m => if String.eqb mode m then append_new (current_coords st) c else [c]
    | None => [c]
    end.
Proof.
  unfold accrue. destruct st as [sg cm cc ct cost].
  cbn [current_mode current_coords a_segments current_time current_cost].
  destruct cm as [m|];
    cbn [current_mode current_coords a_segments current_time current_cost].
  - destruct (String.eqb mode m);
      cbn [current_mode current_coords a_segments current_time current_cost];
      [reflexivity | apply append_new_single].
  - rewrite String.eqb_refl.
    cbn [current_mode current_coords a_segments current_time current_cost].
    apply append_new_single.
Qed.

Lemma process_edge_coords (st st' : Assembly) (u v : node) (c : coord) (mode : string) :
  process_edge graph st u v = Ok st' ->
  node_coord graph u = Ok c ->
  edge_mode graph u v = Ok mode ->
  current_coords st' =
    match current_mode st with
    | Some m => if String.eqb mode m then append_new (current_coords st) c else [c]
    | None => [c]
    end.
Proof.
  intros H Hc Hm.
  destruct (process_edge_inv _ _ _ _ H) as (mode' & time & c' & Hm' & _ & Hc' & ->).
  rewrite Hm in Hm'. injection Hm' as <-. rewrite Hc in Hc'. injection Hc' as <-.
  apply accrue_coords.
Qed.

Lemma keep_first_snoc (cs : list coord) (c : coord) :
  keep_first (cs ++ [c]) = append_new (keep_first cs) c.
Proof. unfold keep_first. rewrite fold_left_app. reflexivity. Qed.

Lemma keep_first_not_nil (cs : list coord) : cs <> [] -> keep_first cs <> [].
Proof.
  intros Hne. destruct (exists_last Hne) as (front & c & ->).
  rewrite keep_first_snoc. apply append_new_not_nil.
Qed.

(** The bookkeeping on an open run: the coordinate joins the run, or the run
    is closed as one segment and a new run starts. *)
Lemma accrue_lists (st : Assembly) (m : string) (cs : list coord)
      (mode : string) (time : Q) (c : coord) :
  lists st m cs ->
  if String.eqb mode m
  then lists (accrue st mode time c) m (cs ++ [c]) /\
       a_segments (accrue st mode time c) = a_segments st
  else lists (accrue st mode time c) mode [c] /\
       map segment_coords (a_segments (accrue st mode time c))
       = map segment_coords (a_segments st) ++ [run_coords (m, cs)].
Proof.
  intros (Hmode & Hcoords & Hne). unfold accrue.
  destruct st as [sg cm cc ct cost].
  cbn [current_mode current_coords a_segments current_time current_cost] in *.
  subst cm cc.
  cbn [current_mode current_coords a_segments current_time current_cost].
  destruct (String.eqb mode m);
    cbn [current_mode current_coords a_segments current_time current_cost].
  - split; [|reflexivity]. unfold lists.
    cbn [current_mode current_coords a_segments current_time current_cost].
    rewrite keep_first_snoc. repeat split.
    destruct cs; discriminate.
  - pose proof (keep_first_not_nil Hne) as Hk.
    destruct (keep_first cs) as [|c0 cc'] eqn:Ek; [contradiction|]. cbn [is_nil].
    cbn [current_mode current_coords a_segments current_time current_cost].
    split.
    + unfold lists.
      cbn [current_mode current_coords a_segments current_time current_cost].
      rewrite append_new_single. repeat split. discriminate.
    + rewrite map_app. cbn [map]. unfold segment_coords at 2, run_coords.
      cbn [seg_mode seg_coords fst snd]. rewrite Ek. reflexivity.
Qed.

Lemma accrue_first (mode : string) (time : Q) (c : coord) :
  lists (accrue assembly_init mode time c) mode [c] /\
  a_segments (accrue assembly_init mode time c) = [].
Proof.
  unfold accrue.
  cbn [assembly_init current_mode current_coords a_segments current_time current_cost].
  rewrite String.eqb_refl.
  cbn [current_mode current_coords a_segments current_time current_cost].
  split; [|reflexivity]. unfold lists.
  cbn [current_mode current_coords a_segments current_time current_cost].
  rewrite append_new_single. repeat split. discriminate.
Qed.

Lemma assemble_loop_step (st : Assembly) (u v : node) (rest : list node) :
  assemble_loop graph st (u :: v :: rest) =
    (st' <- process_edge graph st u v ;; assemble_loop graph st' (v :: rest)).
Proof. reflexivity. Qed.

Lemma coord_steps_step (u v : node) (rest : list node) :
  coord_steps graph (u :: v :: rest) =
    (mode <- edge_mode graph u v ;;
     c <- node_coord graph u ;;
     steps <- coord_steps graph (v :: rest) ;;
     Ok ((mode, c) :: steps)).
Proof. reflexivity. Qed.

(** The loop, on the coordinates: the segments closed are the runs closed,
    and the open segment lists the last run. *)
Lemma assemble_loop_lists (path : list node) :
  forall st st' m cs,
    assemble_loop graph st path = Ok st' ->
    lists st m cs ->
    exists steps front m' cs',
      coord_steps graph path = Ok steps /\
      runs_from m cs steps = front ++ [(m', cs')] /\
      lists st' m' cs' /\
      map segment_coords (a_segments st')
      = map segment_coords (a_segments st) ++ map run_coords front.
Proof.
  induction path as [|u rest IH]; intros st st' m cs Hrun Hl.
  - injection Hrun as <-. exists [], [], m, cs.
    split; [reflexivity|]. split; [reflexivity|]. split; [assumption|].
    cbn [map]. rewrite app_nil_r. reflexivity.
  - destruct rest as [|v rest'].
    + injection Hrun as <-. exists [], [], m, cs.
      split; [reflexivity|]. split; [reflexivity|]. split; [assumption|].
      cbn [map]. rewrite app_nil_r. reflexivity.
    + rewrite assemble_loop_step in Hrun.
      destruct (process_edge graph st u v) as [st1|e] eqn:E; [|discriminate].
      cbn [bind] in Hrun.
      destruct (process_edge_inv _ _ _ _ E) as (mode & time & c & Hm & _ & Hc & ->).
      pose proof (@accrue_lists st m cs mode time c Hl) as Hstep.
      rewrite coord_steps_step, Hm, Hc. cbn [bind].
      destruct (String.eqb mode m) eqn:Emode.
      * destruct Hstep as [Hl1 Hsg].
        destruct (IH _ _ _ _ Hrun Hl1) as (steps & front & m' & cs' & Hs & Hr & Hl' & Heq).
        rewrite Hs. cbn [bind].
        exists ((mode, c) :: steps), front, m', cs'.
        cbn [runs_from]. rewrite Emode.
        split; [reflexivity|]. split; [assumption|]. split; [assumption|].
        rewrite Heq, Hsg. reflexivity.
      * destruct Hstep as [Hl1 Hsg].
        destruct (IH _ _ _ _ Hrun Hl1) as (steps & front & m' & cs' & Hs & Hr & Hl' & Heq).
        rewrite Hs. cbn [bind].
        exists ((mode, c) :: steps), ((m, cs) :: front), m', cs'.
        cbn [runs_from]. rewrite Emode, Hr.
        split; [reflexivity|]. split; [reflexivity|]. split; [assumption|].
        rewrite Heq, Hsg, <- app_assoc. reflexivity.
Qed.

Lemma with_destination_snoc (c : coord) (front : list (string * list coord))
      (m : string) (cs : list coord) :
  with_destination c (front ++ [(m, cs)]) = front ++ [(m, cs ++ [c])].
Proof.
  induction front as [|[m0 cs0] front' IH]; [reflexivity|].
  cbn [app with_destination].
  destruct (front' ++ [(m, cs)]) as [|r rest'] eqn:E.
  - destruct front'; discriminate E.
  - rewrite IH. reflexivity.
Qed.

(** The coordinate lists of the segments: those of the runs of the path,
    the destination joining the last. *)
Lemma path_to_segments_coords (path : list node) (segs : list Segment) :
  _path_to_segments graph path = Ok segs ->
  2 <= List.length path ->
  exists steps c,
    coord_steps graph path = Ok steps /\
    node_coord graph (last path ""%string) = Ok c /\
    map segment_coords segs = map run_coords (with_destination c (runs steps)).
Proof.
  intros Hrun Hlen.
  destruct path as [|u [|v rest]]; cbn [List.length] in Hlen; try lia.
  unfold _path_to_segments in Hrun.
  change (Nat.ltb (List.length (u :: v :: rest)) 2) with false in Hrun.
  change (Nat.ltb 1 (List.length (u :: v :: rest))) with true in Hrun.
  cbv iota in Hrun. rewrite assemble_loop_step in Hrun.
  destruct (process_edge graph assembly_init u v) as [st1|e] eqn:E; [|discriminate].
  cbn [bind] in Hrun.
  destruct (assemble_loop graph st1 (v :: rest)) as [st|e] eqn:El; [|discriminate].
  cbn [bind] in Hrun.
  destruct (node_coord graph (last (u :: v :: rest) ""%string)) as [fc|e] eqn:Ef;
    [|discriminate].
  cbn [bind] in Hrun.
  destruct (process_edge_inv _ _ _ _ E) as (mode & time & c & Hm & _ & Hc & ->).
  destruct (accrue_first mode time c) as (Hl1 & Hsg1).
  destruct (@assemble_loop_lists (v :: rest) _ _ _ _ El Hl1)
    as (steps & front & m' & cs' & Hs & Hr & (Hmode & Hcoords & Hne) & Heq).
  rewrite Hsg1 in Heq. cbn [map app] in Heq.
  exists ((mode, c) :: steps), fc.
  rewrite coord_steps_step, Hm, Hc. cbn [bind]. rewrite Hs. cbn [bind].
  split; [reflexivity|]. split; [reflexivity|].
  cbn [runs]. rewrite Hr, with_destination_snoc.
  rewrite Hmode in Hrun.
  destruct (append_new (current_coords st) fc) as [|c0 cc'] eqn:Ea.
  - exfalso. revert Ea. apply append_new_not_nil.
  - cbn [is_nil] in Hrun. injection Hrun as <-.
    rewrite !map_app, Heq. cbn [map]. unfold segment_coords, run_coords.
    cbn [seg_mode seg_coords fst snd].
    rewrite keep_first_snoc, <- Hcoords, Ea. reflexivity.
Qed.

(** C7 (as amended). Within a segment a coordinate is appended unless an
    equal coordinate is already recorded anywhere in the open segment, and
    the destination's coordinate is appended after the loop under the same
    test.  So the coordinate list of every segment is that of its run of
    the path, each coordinate at its first occurrence, the destination
    joining the last run; no segment ever holds the same coordinate twice;
    the last segment holds the destination; and a path that stays in one
    mode yields one segment whose coordinates are those of the path in the
    order of their first occurrence. *)
Theorem segment_coords_first_occurrence (path : list node) (segs : list Segment) :
  _path_to_segments graph path = Ok segs ->
  (forall st st' u v c mode,
      process_edge graph st u v = Ok st' ->
      node_coord graph u = Ok c ->
      edge_mode graph u v = Ok mode ->
      current_coords st' =
        match current_mode st with
        | Some m => if String.eqb mode m then append_new (current_coords st) c else [c]
        | None => [c]
        end) /\
  (2 <= List.length path ->
   exists steps c,
     coord_steps graph path = Ok steps /\
     node_coord graph (last path ""%string) = Ok c /\
     map segment_coords segs = map run_coords (with_destination c (runs steps))) /\
  Forall (fun s => distinct (seg_coords s) = true) segs /\
  (2 <= List.length path ->
   exists front s c,
     segs = front ++ [s] /\
     node_coord graph (last path ""%string) = Ok c /\
     coord_in c (seg_coords s) = true) /\
  (forall m cs,
      2 <= List.length path ->
      map_result (node_coord graph) path = Ok cs ->
      uniform_mode graph m path ->
      exists t cost,
        segs = [mkSegment m (keep_first cs) t cost] /\
        forall x, In x cs -> coord_in x (keep_first cs) = true).
Proof.
  intros Hrun. split; [intros st st' u v c mode; apply process_edge_coords|].
  split; [apply path_to_segments_coords; assumption|].
  split; [|split].
  - unfold _path_to_segments in Hrun.
    destruct (Nat.ltb (List.length path) 2); [injection Hrun as <-; constructor|].
    destruct (assemble_loop graph assembly_init path) as [st|e] eqn:E; [|discriminate].
    cbn [bind] in Hrun.
    assert (Hinv : duplicate_free st).
    { eapply assemble_loop_duplicate_free; [exact E|].
      split; [constructor | reflexivity]. }
    destruct Hinv as [Hsegs Hcur].
    assert (Hcoords : forall coords,
               distinct coords = true ->
               match current_mode st with
               | Some m =>
                   if is_nil coords then Ok (a_segments st)
                   else Ok (a_segments st ++
                              [mkSegment m coords (round1 (current_time st))
                                         (round0 (current_cost st))])
               | None => Ok (a_segments st)
               end = Ok segs ->
               Forall (fun s => distinct (seg_coords s) = true) segs).
    { intros coords Hd H. destruct (current_mode st) as [m|].
      - destruct (is_nil coords); injection H as <-; [assumption|].
        apply Forall_app. split; [assumption|]. constructor; [assumption | constructor].
      - injection H as <-. assumption. }
    destruct (Nat.ltb 1 (List.length path)).
    + destruct (node_coord graph (last path ""%string)) as [fc|e]; [|discriminate].
      cbn [bind] in Hrun. apply (Hcoords _ (append_new_distinct _ fc Hcur) Hrun).
    + cbn [bind] in Hrun. apply (Hcoords _ Hcur Hrun).
  - intros Hlen. unfold _path_to_segments in Hrun.
    destruct (Nat.ltb_spec (List.length path) 2) as [Hshort|_]; [lia|].
    destruct (assemble_loop graph assembly_init path) as [st|e] eqn:E; [|discriminate].
    cbn [bind] in Hrun.
    assert (Hinit : current_mode assembly_init <> None ->
                    current_coords assembly_init <> []) by (cbn; congruence).
    destruct (@assemble_loop_accrued graph path assembly_init st E Hinit)
      as (_ & _ & Hmode).
    specialize (Hmode Hlen).
    destruct (Nat.ltb_spec 1 (List.length path)) as [_|Hbad]; [|lia].
    destruct (node_coord graph (last path ""%string)) as [fc|e]; [|discriminate].
    cbn [bind] in Hrun.
    destruct (current_mode st) as [m|]; [|contradiction].
    destruct (append_new (current_coords st) fc) as [|c0 rest] eqn:Ea.
    + exfalso. revert Ea. apply append_new_not_nil.
    + cbn [is_nil] in Hrun. injection Hrun as <-.
      eexists _, _, fc. split; [reflexivity|]. split; [reflexivity|].
      cbn [seg_coords]. rewrite <- Ea. apply append_new_in.
  - intros m cs Hlen Hcs Hu.
    assert (Hne : path <> []) by (destruct path; [simpl in Hlen; lia | discriminate]).
    destruct (@assemble_loop_uniform m path cs assembly_init Hne Hcs Hu)
      as (st & c_last & Hloop & Hsg & Hlast & Hfold & Hmode).
    { right. split; reflexivity. }
    specialize (Hmode Hlen).
    unfold _path_to_segments in Hrun.
    destruct (Nat.ltb_spec (List.length path) 2) as [Hshort|_]; [lia|].
    rewrite Hloop in Hrun. cbn [bind] in Hrun.
    destruct (Nat.ltb_spec 1 (List.length path)) as [_|Hbad]; [|lia].
    rewrite Hlast in Hrun. cbn [bind] in Hrun. rewrite Hmode, Hfold in Hrun.
    fold (keep_first cs) in Hrun. cbn [assembly_init current_coords] in Hrun.
    fold (keep_first cs) in Hrun.
    destruct (keep_first cs) as [|c0 rest] eqn:Ek.
    + exfalso. unfold keep_first in Ek. cbn [assembly_init current_coords] in Hfold.
      rewrite Ek in Hfold. revert Hfold. apply append_new_not_nil.
    + cbn [is_nil] in Hrun. injection Hrun as <-.
      rewrite Hsg. cbn [assembly_init a_segments app]. rewrite <- Ek.
      eexists _, _. split; [reflexivity|].
      intros x Hx. unfold keep_first. apply fold_append_new_all. assumption.
Qed.

End Coordinates.

Lemma segment_coords_first_occurrence_witness :
  _path_to_segments (MultiDiGraph underpass) underpass_path = Ok underpass_segments /\
  underpass_segments = [mkSegment "walk" [pos_A; pos_D; pos_E] (23 # 10) 0] /\
  Forall (fun s => distinct (seg_coords s) = true) underpass_segments /\
  (exists t cost,
      underpass_segments = [mkSegment "walk" (keep_first underpass_coords) t cost] /\
      forall x, In x underpass_coords -> coord_in x (keep_first underpass_coords) = true) /\
  _path_to_segments (MultiDiGraph city) scenario_path = Ok (segments scenario_route) /\
  (exists steps c,
      coord_steps (MultiDiGraph city) scenario_path = Ok steps /\
      node_coord (MultiDiGraph city) (last scenario_path ""%string) = Ok c /\
      map segment_coords (segments scenario_route)
      = map run_coords (with_destination c (runs steps))).
Proof.
  assert (Hrun : _path_to_segments (MultiDiGraph underpass) underpass_path
                 = Ok underpass_segments) by reflexivity.
  assert (Hcity : _path_to_segments (MultiDiGraph city) scenario_path
                  = Ok (segments scenario_route)) by reflexivity.
  destruct (segment_coords_first_occurrence (MultiDiGraph underpass) underpass_path Hrun)
    as (_ & _ & Hdistinct & _ & Huniform).
  destruct (segment_coords_first_occurrence (MultiDiGraph city) scenario_path Hcity)
    as (_ & Hruns & _).
  split; [exact Hrun|]. split; [reflexivity|]. split; [exact Hdistinct|].
  split; [|split; [exact Hcity|]].
  - apply Huniform.
    + simpl. lia.
    + reflexivity.
    + simpl. repeat split.
  - apply Hruns. simpl. lia.
Defined.

(** C7 (as stated) fails: [R_walk] lies at the coordinates of [P_walk], two
    nodes earlier on the path; its coordinate is not a consecutive repeat,
    yet the segment does not list it. *)
Lemma segment_coords_not_consecutive_only :
  relaxation_search (MultiDiGraph underpass) "P_walk" "S_walk" = Some underpass_path /\
  map_result (node_coord (MultiDiGraph underpass)) underpass_path = Ok underpass_coords /\
  drop_consecutive underpass_coords = [pos_A; pos_D; pos_A; pos_E] /\
  map seg_coords underpass_segments = [[pos_A; pos_D; pos_E]] /\
  ~ consecutive_only (MultiDiGraph underpass) underpass_path.
Proof.
  split; [reflexivity|]. split; [reflexivity|]. split; [reflexivity|].
  split; [reflexivity|].
  intros H. destruct (H "walk"%string underpass_coords) as (t & cost & Heq).
  - simpl. lia.
  - reflexivity.
  - simpl. repeat split.
  - vm_compute in Heq. discriminate Heq.
Qed.

(** ** Interlayer linking *)

Section Linker.

Variable geodesic : coord -> coord -> Q.

Lemma keydict_add_edge (g : Graph) (u v a b : node) (attr : EdgeData) :
  keydict (add_edge g u v attr) a b =
    keydict g a b ++
      (if String.eqb u a && String.eqb v b then [(new_edge_key g u v, attr)] else []).
Proof.
  unfold keydict. rewrite add_edge_edges, filter_app, map_app.
  cbn [filter]. unfold connects at 2. cbn [e_src e_dst].
  destruct (String.eqb u a && String.eqb v b); reflexivity.
Qed.

Lemma attrs_fold_add_call (calls : list (node * node * EdgeData)) (a b : node) :
  forall g,
    map snd (keydict (fold_left add_call calls g) a b) =
      map snd (keydict g a b) ++ map snd (filter (to_pair a b) calls).
Proof.
  induction calls as [|[[u v] d] rest IH]; intros g; cbn [fold_left filter].
  - rewrite app_nil_r. reflexivity.
  - rewrite IH. unfold add_call at 1. cbn [fst snd].
    rewrite keydict_add_edge, map_app, <- app_assoc. f_equal.
    unfold to_pair. cbn [fst snd].
    destruct (String.eqb u a && String.eqb v b); reflexivity.
Qed.

Lemma link_pair_calls (g : Graph) (n1 n2 : string * coord) :
  link_pair geodesic g n1 n2 = fold_left add_call (pair_calls geodesic n1 n2) g.
Proof.
  destruct n1 as [node1 pos1], n2 as [node2 pos2].
  unfold link_pair, pair_calls. cbn [fst snd].
  destruct (String.eqb node1 node2); [reflexivity|].
  destruct (String.eqb (original_id node1) (original_id node2)); [reflexivity|].
  destruct (Qle_bool (geodesic pos1 pos2) max_transfer_distance); reflexivity.
Qed.

Lemma fold_left_flat_map (A B C : Type) (f : A -> C -> A) (h : B -> list C)
      (l : list B) :
  forall a, fold_left f (flat_map h l) a = fold_left (fun a' x => fold_left f (h x) a') l a.
Proof.
  induction l as [|x rest IH]; intros a; [reflexivity|].
  cbn [flat_map fold_left]. rewrite fold_left_app. apply IH.
Qed.

Lemma fold_left_ext (A B : Type) (f f' : A -> B -> A) (l : list B) :
  (forall a x, f a x = f' a x) -> forall a, fold_left f l a = fold_left f' l a.
Proof.
  intros H. induction l as [|x rest IH]; intros a; [reflexivity|].
  cbn [fold_left]. rewrite H. apply IH.
Qed.

(** The scan is the sequence of its [add_edge] calls. *)
Lemma linker_calls (merged walk_graph bike_graph car_graph : Graph) :
  _add_interlayer_edges geodesic merged walk_graph bike_graph car_graph =
    fold_left add_call
      (scan_calls geodesic (node_positions walk_graph bike_graph car_graph)) merged.
Proof.
  unfold _add_interlayer_edges, scan_calls.
  set (tbl := node_positions walk_graph bike_graph car_graph).
  rewrite fold_left_flat_map. apply fold_left_ext. intros g n1.
  rewrite fold_left_flat_map. apply fold_left_ext. intros g' n2.
  apply link_pair_calls.
Qed.

(** *** The position table has one entry per node *)

Lemma dict_set_keys (V : Type) (k : string) (v : V) (d : list (string * V)) :
  map fst (dict_set k v d) =
    if existsb (String.eqb k) (map fst d) then map fst d else map fst d ++ [k].
Proof.
  induction d as [|[k' v'] rest IH]; [reflexivity|].
  cbn [dict_set map fst existsb].
  destruct (String.eqb_spec k k') as [->|Hne]; [reflexivity|].
  cbn [map fst orb]. rewrite IH.
  destruct (existsb (String.eqb k) (map fst rest)); reflexivity.
Qed.

Lemma dict_set_NoDup (V : Type) (k : string) (v : V) (d : list (string * V)) :
  NoDup (map fst d) -> NoDup (map fst (dict_set k v d)).
Proof.
  intros H. rewrite dict_set_keys.
  destruct (existsb (String.eqb k) (map fst d)) eqn:E; [assumption|].
  apply NoDup_app; [assumption | constructor; [intros [] | constructor] |].
  intros x Hx [Hk|[]]. subst x.
  assert (existsb (String.eqb k) (map fst d) = true); [|congruence].
  apply existsb_exists. exists k. split; [assumption | apply String.eqb_refl].
Qed.

Lemma collect_positions_NoDup (layer : Graph) (tbl : list (string * coord)) :
  NoDup (map fst tbl) -> NoDup (map fst (collect_positions tbl layer)).
Proof.
  unfold collect_positions. revert tbl.
  induction (g_nodes layer) as [|[n nd] rest IH]; intros tbl H; [assumption|].
  cbn [fold_left]. apply IH.
  destruct (nd_y nd); [|assumption]. destruct (nd_x nd); [|assumption].
  apply dict_set_NoDup. assumption.
Qed.

Lemma node_positions_NoDup (walk_graph bike_graph car_graph : Graph) :
  NoDup (map fst (node_positions walk_graph bike_graph car_graph)).
Proof.
  unfold node_positions. cbn [fold_left].
  repeat apply collect_positions_NoDup. constructor.
Qed.

(** *** Selecting the visits of one key *)

Lemma flat_map_nil (A B : Type) (h : A -> list B) (l : list A) :
  (forall x, In x l -> h x = []) -> flat_map h l = [].
Proof.
  induction l as [|x rest IH]; intros H; [reflexivity|].
  cbn [flat_map]. rewrite (H x (or_introl eq_refl)), IH; [reflexivity|].
  intros y Hy. apply H. right. assumption.
Qed.

Lemma flat_map_unique_key (V B : Type) (h : string * V -> list B)
      (tbl : list (string * V)) (k : string) (v : V) :
  NoDup (map fst tbl) ->
  dict_get k tbl = Some v ->
  (forall n, In n tbl -> fst n <> k -> h n = []) ->
  flat_map h tbl = h (k, v).
Proof.
  intros Hnd Hget Hother. induction tbl as [|[k' v'] rest IH]; [discriminate|].
  cbn [map fst] in Hnd. inversion Hnd as [|? ? Hnotin Hnd']; subst.
  cbn [dict_get] in Hget. cbn [flat_map].
  destruct (String.eqb_spec k k') as [<-|Hne].
  - injection Hget as <-. rewrite flat_map_nil; [apply app_nil_r|].
    intros [k2 v2] Hin. apply Hother; [right; assumption|]. cbn [fst]. intros ->.
    apply Hnotin. apply in_map_iff. exists (k, v2). split; [reflexivity | assumption].
  - rewrite (Hother (k', v')); [|left; reflexivity | cbn [fst]; congruence].
    cbn [app]. apply IH; try assumption.
    intros n Hin. apply Hother. right. assumption.
Qed.

Lemma filter_flat_map (A B : Type) (f : B -> bool) (h : A -> list B) (l : list A) :
  filter f (flat_map h l) = flat_map (fun x => filter f (h x)) l.
Proof.
  induction l as [|x rest IH]; [reflexivity|].
  cbn [flat_map]. rewrite filter_app, IH. reflexivity.
Qed.

(** *** Co-located nodes *)

(** Among the calls of one visit, those from [a] to [b], when [a] and [b]
    share their original id. *)
Lemma colocated_visit (a b : node) (n1 n2 : string * coord) :
  a <> b ->
  original_id a = original_id b ->
  filter (to_pair a b) (pair_calls geodesic n1 n2) =
    if String.eqb (fst n1) a && String.eqb (fst n2) b
    then [(a, b, transfer_attrs (1 # 2) 0)] else [].
Proof.
  intros Hab Horig. destruct n1 as [k1 p1], n2 as [k2 p2].
  unfold pair_calls. cbn [fst snd].
  destruct (String.eqb_spec k1 k2) as [->|Hk].
  - cbn [filter].
    destruct (String.eqb_spec k2 a) as [->|_]; [|reflexivity].
    destruct (String.eqb_spec a b) as [Heq|_]; [contradiction | reflexivity].
  - destruct (String.eqb_spec (original_id k1) (original_id k2)) as [Ho|Ho].
    + cbn [filter]. unfold to_pair. cbn [fst snd].
      destruct (String.eqb_spec k1 a) as [->|_]; [|reflexivity].
      destruct (String.eqb_spec k2 b) as [->|_]; reflexivity.
    + assert (H1 : String.eqb k1 a && String.eqb k2 b = false).
      { destruct (String.eqb_spec k1 a) as [->|_]; [|reflexivity].
        destruct (String.eqb_spec k2 b) as [->|_]; [contradiction | reflexivity]. }
      assert (H2 : String.eqb k2 a && String.eqb k1 b = false).
      { destruct (String.eqb_spec k2 a) as [->|_]; [|reflexivity].
        destruct (String.eqb_spec k1 b) as [->|_]; [|reflexivity].
        exfalso. apply Ho. symmetry. assumption. }
      rewrite H1.
      destruct (Qle_bool _ max_transfer_distance); [|reflexivity].
      cbn [filter]. unfold to_pair. cbn [fst snd]. rewrite H1, H2. reflexivity.
Qed.

Lemma colocated_calls (tbl : list (string * coord)) (a b : node) (pa pb : coord) :
  NoDup (map fst tbl) ->
  dict_get a tbl = Some pa ->
  dict_get b tbl = Some pb ->
  a <> b ->
  original_id a = original_id b ->
  filter (to_pair a b) (scan_calls geodesic tbl) = [(a, b, transfer_attrs (1 # 2) 0)].
Proof.
  intros Hnd Ha Hb Hab Horig. unfold scan_calls.
  rewrite filter_flat_map.
  rewrite flat_map_unique_key with (k := a) (v := pa); try assumption.
  - rewrite filter_flat_map.
    rewrite flat_map_unique_key with (k := b) (v := pb); try assumption.
    + rewrite colocated_visit by assumption. cbn [fst].
      rewrite !String.eqb_refl. reflexivity.
    + intros n _ Hn. rewrite colocated_visit by assumption.
      destruct (String.eqb_spec (fst n) b); [contradiction|].
      rewrite andb_false_r. reflexivity.
  - intros n _ Hn. rewrite filter_flat_map. apply flat_map_nil. intros n2 _.
    rewrite colocated_visit by assumption.
    destruct (String.eqb_spec (fst n) a); [contradiction | reflexivity].
Qed.

(** C2 (as amended). For every two distinct nodes of the position table
    (the layer nodes that carry both coordinates) that share their original
    id, the scan inserts exactly one transfer edge from the one to the
    other, with [weight = time = 0.5] and [length = 0]; this holds in either
    order, so the two nodes end up linked in both directions. *)
Theorem colocated_transfer_each_direction
        (merged walk_graph bike_graph car_graph : Graph) (a b : node) (pa pb : coord) :
  dict_get a (node_positions walk_graph bike_graph car_graph) = Some pa ->
  dict_get b (node_positions walk_graph bike_graph car_graph) = Some pb ->
  a <> b ->
  original_id a = original_id b ->
  let linked := _add_interlayer_edges geodesic merged walk_graph bike_graph car_graph in
  map snd (keydict linked a b) = map snd (keydict merged a b) ++ [transfer_attrs (1 # 2) 0] /\
  map snd (keydict linked b a) = map snd (keydict merged b a) ++ [transfer_attrs (1 # 2) 0] /\
  transfers linked a b = transfers merged a b ++ [transfer_attrs (1 # 2) 0] /\
  transfers linked b a = transfers merged b a ++ [transfer_attrs (1 # 2) 0].
Proof.
  intros Ha Hb Hab Horig linked.
  pose proof (node_positions_NoDup walk_graph bike_graph car_graph) as Hnd.
  assert (H1 : map snd (keydict linked a b)
               = map snd (keydict merged a b) ++ [transfer_attrs (1 # 2) 0]).
  { unfold linked. rewrite linker_calls, attrs_fold_add_call.
    rewrite colocated_calls with (pa := pa) (pb := pb) by assumption. reflexivity. }
  assert (H2 : map snd (keydict linked b a)
               = map snd (keydict merged b a) ++ [transfer_attrs (1 # 2) 0]).
  { unfold linked. rewrite linker_calls, attrs_fold_add_call.
    rewrite colocated_calls with (pa := pb) (pb := pa) by congruence. reflexivity. }
  repeat split; try assumption.
  - unfold transfers. rewrite H1, filter_app. reflexivity.
  - unfold transfers. rewrite H2, filter_app. reflexivity.
Qed.

(** *** Nearby nodes with different original ids *)

(** Among the calls of one visit, those from [a] to [b], when [a] and [b]
    have different original ids: the visit of [(a, b)] and the visit of
    [(b, a)] each contribute one. *)
Lemma proximate_visit (a b : node) (n1 n2 : string * coord) :
  a <> b ->
  original_id a <> original_id b ->
  filter (to_pair a b) (pair_calls geodesic n1 n2) =
    if (String.eqb (fst n1) a && String.eqb (fst n2) b)
       || (String.eqb (fst n1) b && String.eqb (fst n2) a)
    then
      if Qle_bool (geodesic (snd n1) (snd n2)) max_transfer_distance
      then [(a, b, transfer_attrs 2 (geodesic (snd n1) (snd n2)))] else []
    else [].
Proof.
  intros Hab Horig. destruct n1 as [k1 p1], n2 as [k2 p2].
  unfold pair_calls. cbn [fst snd].
  destruct (String.eqb_spec k1 k2);
    destruct (String.eqb_spec (original_id k1) (original_id k2));
    destruct (Qle_bool (geodesic p1 p2) max_transfer_distance);
    cbn [filter]; unfold to_pair; cbn [fst snd];
    destruct (String.eqb_spec k1 a), (String.eqb_spec k2 b),
             (String.eqb_spec k1 b), (String.eqb_spec k2 a);
    cbn [andb orb]; try reflexivity; try (exfalso; congruence);
    subst; reflexivity.
Qed.

Lemma flat_map_two_keys (V B : Type) (h : string * V -> list B)
      (tbl : list (string * V)) (a b : string) (pa pb : V) :
  NoDup (map fst tbl) ->
  dict_get a tbl = Some pa ->
  dict_get b tbl = Some pb ->
  a <> b ->
  (forall n, In n tbl -> fst n <> a -> fst n <> b -> h n = []) ->
  Permutation (flat_map h tbl) (h (a, pa) ++ h (b, pb)).
Proof.
  intros Hnd Ha Hb Hab Hother. induction tbl as [|[k' v'] rest IH]; [discriminate|].
  cbn [map fst] in Hnd. inversion Hnd as [|? ? Hnotin Hnd']; subst.
  assert (Hfresh : forall n, In n rest -> fst n <> k').
  { intros [k2 v2] Hin Heq. cbn [fst] in Heq. subst k2.
    apply Hnotin. apply in_map_iff. exists (k', v2). split; [reflexivity | assumption]. }
  cbn [dict_get] in Ha, Hb. cbn [flat_map].
  destruct (String.eqb_spec a k') as [<-|Hak].
  - injection Ha as <-.
    destruct (String.eqb_spec b a) as [Hba|_]; [congruence|].
    rewrite flat_map_unique_key with (k := b) (v := pb) (tbl := rest); try assumption.
    + apply Permutation_refl.
    + intros n Hin Hn. apply Hother; [right; assumption | apply Hfresh; assumption
                                      | assumption].
  - destruct (String.eqb_spec b k') as [<-|Hbk].
    + injection Hb as <-.
      rewrite flat_map_unique_key with (k := a) (v := pa) (tbl := rest); try assumption.
      * apply Permutation_app_comm.
      * intros n Hin Hn. apply Hother; [right; assumption | assumption
                                        | apply Hfresh; assumption].
    + rewrite (Hother (k', v')); cbn [fst]; try congruence; [|left; reflexivity].
      cbn [app]. apply IH; try assumption.
      intros n Hin. apply Hother. right. assumption.
Qed.

Lemma proximate_calls (tbl : list (string * coord)) (a b : node) (pa pb : coord) :
  NoDup (map fst tbl) ->
  dict_get a tbl = Some pa ->
  dict_get b tbl = Some pb ->
  a <> b ->
  original_id a <> original_id b ->
  Permutation
    (filter (to_pair a b) (scan_calls geodesic tbl))
    ((if Qle_bool (geodesic pa pb) max_transfer_distance
      then [(a, b, transfer_attrs 2 (geodesic pa pb))] else [])
     ++ (if Qle_bool (geodesic pb pa) max_transfer_distance
         then [(a, b, transfer_attrs 2 (geodesic pb pa))] else [])).
Proof.
  intros Hnd Ha Hb Hab Horig. unfold scan_calls. rewrite filter_flat_map.
  set (visits := fun n1 : string * coord =>
                   filter (to_pair a b) (flat_map (pair_calls geodesic n1) tbl)).
  assert (Hva : visits (a, pa) =
                if Qle_bool (geodesic pa pb) max_transfer_distance
                then [(a, b, transfer_attrs 2 (geodesic pa pb))] else []).
  { unfold visits. rewrite filter_flat_map.
    rewrite flat_map_unique_key with (k := b) (v := pb); try assumption.
    - rewrite proximate_visit by assumption. cbn [fst snd].
      rewrite !String.eqb_refl. reflexivity.
    - intros n _ Hn. rewrite proximate_visit by assumption. cbn [fst].
      destruct (String.eqb_spec (fst n) b); [contradiction|].
      destruct (String.eqb_spec a b); [contradiction|].
      rewrite !andb_false_r. reflexivity. }
  assert (Hvb : visits (b, pb) =
                if Qle_bool (geodesic pb pa) max_transfer_distance
                then [(a, b, transfer_attrs 2 (geodesic pb pa))] else []).
  { unfold visits. rewrite filter_flat_map.
    rewrite flat_map_unique_key with (k := a) (v := pa); try assumption.
    - rewrite proximate_visit by assumption. cbn [fst snd].
      rewrite !String.eqb_refl. rewrite orb_true_r. reflexivity.
    - intros n _ Hn. rewrite proximate_visit by assumption. cbn [fst].
      destruct (String.eqb_spec (fst n) a); [contradiction|].
      destruct (String.eqb_spec b a); [congruence|].
      rewrite !andb_false_r. reflexivity. }
  rewrite <- Hva, <- Hvb.
  apply flat_map_two_keys; try assumption.
  intros n _ Hna Hnb. unfold visits. rewrite filter_flat_map.
  apply flat_map_nil. intros n2 _. rewrite proximate_visit by assumption.
  destruct (String.eqb_spec (fst n) a); [contradiction|].
  destruct (String.eqb_spec (fst n) b); [contradiction|]. reflexivity.
Qed.

(** Between two distinct nodes of the position table with different
    original ids, of whatever layers, the scan inserts one transfer edge
    from [a] to [b] at the visit of [(a, b)] and one more at the visit of
    [(b, a)], each when the distance measured at that visit is at most
    10 m; it inserts none when both distances exceed 10 m. *)
Lemma proximate_transfers (merged walk_graph bike_graph car_graph : Graph)
      (a b : node) (pa pb : coord) :
  dict_get a (node_positions walk_graph bike_graph car_graph) = Some pa ->
  dict_get b (node_positions walk_graph bike_graph car_graph) = Some pb ->
  a <> b ->
  original_id a <> original_id b ->
  exists added,
    map snd (keydict (_add_interlayer_edges geodesic merged walk_graph bike_graph car_graph)
                     a b)
    = map snd (keydict merged a b) ++ added /\
    Permutation added
      ((if Qle_bool (geodesic pa pb) max_transfer_distance
        then [transfer_attrs 2 (geodesic pa pb)] else [])
       ++ (if Qle_bool (geodesic pb pa) max_transfer_distance
           then [transfer_attrs 2 (geodesic pb pa)] else [])).
Proof.
  intros Ha Hb Hab Horig.
  pose proof (node_positions_NoDup walk_graph bike_graph car_graph) as Hnd.
  eexists. split.
  - rewrite linker_calls, attrs_fold_add_call. reflexivity.
  - pose proof (@proximate_calls _ a b pa pb Hnd Ha Hb Hab Horig) as HP.
    apply (Permutation_map snd) in HP. rewrite map_app in HP.
    destruct (Qle_bool (geodesic pa pb) max_transfer_distance),
             (Qle_bool (geodesic pb pa) max_transfer_distance); exact HP.
Qed.

(** *** Which nodes enter the position table *)

Lemma dict_get_set (V : Type) (k k' : string) (v : V) (d : list (string * V)) :
  dict_get k (dict_set k' v d) = if String.eqb k k' then Some v else dict_get k d.
Proof.
  induction d as [|[k0 v0] rest IH]; [reflexivity|].
  cbn [dict_set]. destruct (String.eqb_spec k' k0) as [<-|Hne]; cbn [dict_get].
  - destruct (String.eqb k k'); reflexivity.
  - rewrite IH. destruct (String.eqb_spec k k0) as [->|_]; [|reflexivity].
    destruct (String.eqb_spec k0 k'); [congruence | reflexivity].
Qed.

Lemma collect_positions_keeps (layer : Graph) (n : node) :
  forall tbl,
    (exists p, dict_get n tbl = Some p) ->
    exists p, dict_get n (collect_positions tbl layer) = Some p.
Proof.
  unfold collect_positions.
  induction (g_nodes layer) as [|[m nd] rest IH]; intros tbl H; [assumption|].
  cbn [fold_left]. apply IH.
  destruct (nd_y nd); [|assumption]. destruct (nd_x nd); [|assumption].
  rewrite dict_get_set. destruct (String.eqb n m); [eexists; reflexivity | assumption].
Qed.

Lemma collect_positions_adds (layer : Graph) (n : node) (nd : NodeData) (lat lon : Q) :
  In (n, nd) (g_nodes layer) -> nd_y nd = Some lat -> nd_x nd = Some lon ->
  forall tbl, exists p, dict_get n (collect_positions tbl layer) = Some p.
Proof.
  intros Hin Hy Hx. unfold collect_positions.
  induction (g_nodes layer) as [|[m md] rest IH]; [contradiction|].
  intros tbl. cbn [fold_left]. destruct Hin as [Heq|Hin].
  - injection Heq as -> ->. rewrite Hy, Hx.
    apply (collect_positions_keeps (mkGraph rest [])). cbn [g_nodes].
    rewrite dict_get_set, String.eqb_refl. eexists. reflexivity.
  - apply IH. assumption.
Qed.

(** Every layer node that carries both coordinates has an entry in the
    position table. *)
Lemma node_positions_located (walk_graph bike_graph car_graph layer : Graph)
      (n : node) (nd : NodeData) (lat lon : Q) :
  In layer [walk_graph; bike_graph; car_graph] ->
  In (n, nd) (g_nodes layer) -> nd_y nd = Some lat -> nd_x nd = Some lon ->
  exists p, dict_get n (node_positions walk_graph bike_graph car_graph) = Some p.
Proof.
  intros Hl Hin Hy Hx. unfold node_positions. cbn [fold_left].
  destruct Hl as [<-|[<-|[<-|[]]]].
  - do 2 apply collect_positions_keeps. eapply collect_positions_adds; eassumption.
  - apply collect_positions_keeps. eapply collect_positions_adds; eassumption.
  - eapply collect_positions_adds; eassumption.
Qed.

(** *** Nodes outside the position table *)

Lemma pair_calls_endpoints (n1 n2 : string * coord) (c : node * node * EdgeData) :
  In c (pair_calls geodesic n1 n2) ->
  (fst (fst c) = fst n1 /\ snd (fst c) = fst n2) \/
  (fst (fst c) = fst n2 /\ snd (fst c) = fst n1).
Proof.
  unfold pair_calls.
  destruct (String.eqb (fst n1) (fst n2)); [contradiction|].
  destruct (String.eqb (original_id (fst n1)) (original_id (fst n2))).
  - intros [<-|[]]. left. split; reflexivity.
  - destruct (Qle_bool _ max_transfer_distance); [|contradiction].
    intros [<-|[<-|[]]]; [left | right]; split; reflexivity.
Qed.

Lemma scan_calls_endpoints (tbl : list (string * coord)) (c : node * node * EdgeData) :
  In c (scan_calls geodesic tbl) ->
  In (fst (fst c)) (map fst tbl) /\ In (snd (fst c)) (map fst tbl).
Proof.
  unfold scan_calls. intros H.
  apply in_flat_map in H. destruct H as (n1 & Hn1 & H).
  apply in_flat_map in H. destruct H as (n2 & Hn2 & H).
  apply pair_calls_endpoints in H.
  destruct H as [[-> ->]|[-> ->]]; split; apply in_map; assumption.
Qed.

Lemma dict_get_None_keys (V : Type) (k : string) (d : list (string * V)) :
  dict_get k d = None -> ~ In k (map fst d).
Proof.
  induction d as [|[k' v'] rest IH]; cbn [dict_get map fst]; [intros _ []|].
  destruct (String.eqb_spec k k') as [->|Hne]; [discriminate|].
  intros H [Heq|Hin]; [congruence | exact (IH H Hin)].
Qed.

Lemma filter_none (A : Type) (f : A -> bool) (l : list A) :
  (forall x, In x l -> f x = false) -> filter f l = [].
Proof.
  induction l as [|x rest IH]; intros H; [reflexivity|].
  cbn [filter]. rewrite (H x (or_introl eq_refl)). apply IH.
  intros y Hy. apply H. right. assumption.
Qed.

(** A node without an entry in the position table, that is, without both
    coordinates in the layers, gets no edge from the scan. *)
Lemma unlocated_not_linked (merged walk_graph bike_graph car_graph : Graph)
      (a b : node) :
  dict_get a (node_positions walk_graph bike_graph car_graph) = None \/
  dict_get b (node_positions walk_graph bike_graph car_graph) = None ->
  map snd (keydict (_add_interlayer_edges geodesic merged walk_graph bike_graph car_graph)
                   a b)
  = map snd (keydict merged a b).
Proof.
  intros H. rewrite linker_calls, attrs_fold_add_call.
  rewrite filter_none; [apply app_nil_r|].
  intros c Hc. apply scan_calls_endpoints in Hc. destruct Hc as [Hsrc Hdst].
  unfold to_pair.
  destruct (String.eqb_spec (fst (fst c)) a) as [Ha|_]; [|reflexivity].
  destruct (String.eqb_spec (snd (fst c)) b) as [Hb|_]; [|reflexivity].
  exfalso. subst a b.
  destruct H as [H|H]; apply dict_get_None_keys in H; contradiction.
Qed.

End Linker.

Lemma colocated_transfer_each_direction_witness :
  dict_get "7_walk" (node_positions stop_walk stop_bike no_layer) = Some pos_A /\
  dict_get "7_bike" (node_positions stop_walk stop_bike no_layer) = Some pos_A /\
  "7_walk"%string <> "7_bike"%string /\
  original_id "7_walk" = original_id "7_bike" /\
  transfers stop_linked "7_walk" "7_bike" = [transfer_attrs (1 # 2) 0] /\
  transfers stop_linked "7_bike" "7_walk" = [transfer_attrs (1 # 2) 0].
Proof.
  assert (Hne : "7_walk"%string <> "7_bike"%string) by discriminate.
  destruct (@colocated_transfer_each_direction
              planar_metres (compose_all [stop_walk; stop_bike; no_layer])
              stop_walk stop_bike no_layer "7_walk" "7_bike" pos_A pos_A
              eq_refl eq_refl Hne eq_refl) as (_ & _ & Hab & Hba).
  split; [reflexivity|]. split; [reflexivity|]. split; [exact Hne|].
  split; [reflexivity|]. split; [exact Hab | exact Hba].
Defined.

(** C2 (as stated) fails: layer nodes without coordinates are never linked,
    and nodes with coordinates are linked once in each direction, so that
    two transfer edges lie between them. *)
Lemma colocated_transfer_not_exactly_one :
  ~ one_colocated_transfer planar_metres bare_walk bare_bike no_layer /\
  ~ one_colocated_transfer planar_metres stop_walk stop_bike no_layer.
Proof.
  split; intros H.
  - specialize (H "7_walk" "7_bike")%string.
    assert (Hc : cross_layer [bare_walk; bare_bike; no_layer] "7_walk" "7_bike").
    { exists 0, 1, bare_walk, bare_bike. repeat split; try reflexivity. discriminate. }
    specialize (H Hc eq_refl). vm_compute in H. discriminate H.
  - specialize (H "7_walk" "7_bike")%string.
    assert (Hc : cross_layer [stop_walk; stop_bike; no_layer] "7_walk" "7_bike").
    { exists 0, 1, stop_walk, stop_bike. repeat split; try reflexivity. discriminate. }
    specialize (H Hc eq_refl). vm_compute in H. discriminate H.
Qed.

(** C1 at a failing input: a footpath node and a cycle-track node about 4 m
    apart with different original ids.  The scan visits the pair in both
    orders and inserts both directions at each visit: two transfer edges in
    each direction. *)
Theorem proximate_transfer_duplicated :
  cross_layer [kerb_walk; kerb_bike; no_layer] "1_walk" "2_bike" /\
  original_id "1_walk" <> original_id "2_bike" /\
  Qle_bool (planar_metres pos_A pos_kerb) max_transfer_distance = true /\
  transfers kerb_linked "1_walk" "2_bike"
  = [transfer_attrs 2 (planar_metres pos_A pos_kerb);
     transfer_attrs 2 (planar_metres pos_kerb pos_A)] /\
  transfers kerb_linked "2_bike" "1_walk"
  = [transfer_attrs 2 (planar_metres pos_A pos_kerb);
     transfer_attrs 2 (planar_metres pos_kerb pos_A)] /\
  ~ one_proximate_pair planar_metres kerb_walk kerb_bike no_layer.
Proof.
  assert (Hc : cross_layer [kerb_walk; kerb_bike; no_layer] "1_walk" "2_bike").
  { exists 0, 1, kerb_walk, kerb_bike. repeat split; try reflexivity. discriminate. }
  assert (Ho : original_id "1_walk" <> original_id "2_bike") by discriminate.
  split; [exact Hc|]. split; [exact Ho|].
  split; [reflexivity|]. split; [reflexivity|]. split; [reflexivity|].
  intros H.
  specialize (H "1_walk" "2_bike" pos_A pos_kerb Hc Ho eq_refl eq_refl)%string.
  vm_compute in H. destruct H as [H _]. discriminate H.
Qed.

(** C3 at a failing input: two footpath nodes about 4 m apart.  The scan
    never looks at the layer of a node, and inserts transfer edges between
    the two. *)
Theorem same_layer_transfer_inserted :
  same_layer [lane_walk; no_layer; no_layer] "1_walk" "2_walk" /\
  transfers lane_linked "1_walk" "2_walk"
  = [transfer_attrs 2 (planar_metres pos_A pos_kerb);
     transfer_attrs 2 (planar_metres pos_kerb pos_A)] /\
  transfers lane_linked "2_walk" "1_walk"
  = [transfer_attrs 2 (planar_metres pos_A pos_kerb);
     transfer_attrs 2 (planar_metres pos_kerb pos_A)] /\
  ~ no_same_layer_transfer planar_metres lane_walk no_layer no_layer.
Proof.
  assert (Hs : same_layer [lane_walk; no_layer; no_layer] "1_walk" "2_walk").
  { split; [discriminate|]. exists lane_walk.
    repeat split; try reflexivity. left. reflexivity. }
  split; [exact Hs|]. split; [reflexivity|]. split; [reflexivity|].
  intros H. specialize (H "1_walk" "2_walk" Hs)%string.
  vm_compute in H. discriminate H.
Qed.

(** * Further properties *)

(** ** The nearest node *)

Section NearestNode.

Variable geodesic : coord -> coord -> Q.
Variable shortest_path : AnyGraph -> node -> node -> option (list node).
Variables lat lon : Q.

Lemma nearest_step_state (seen : list (node * NodeData)) (acc : option Q * option node)
      (e : node * NodeData) :
  scan_state geodesic (lat, lon) seen acc ->
  scan_state geodesic (lat, lon) (seen ++ [e]) (nearest_step geodesic lat lon acc e).
Proof.
  destruct e as [n data]. destruct acc as [[d|] [k|]]; cbn [scan_state];
    try contradiction.
  - intros (before & nd & after & p & Hseen & Hp & Hd & Hbefore & Hafter).
    unfold nearest_step.
    destruct (nd_y data) as [node_lat|] eqn:Ey;
      [destruct (nd_x data) as [node_lon|] eqn:Ex|].
    + assert (Hpos : node_position data = Some (node_lat, node_lon)).
      { unfold node_position. rewrite Ey, Ex. reflexivity. }
      unfold Qlt_bool.
      destruct (Qle_bool d (geodesic (lat, lon) (node_lat, node_lon))) eqn:Ele;
        cbn [negb scan_state].
      * apply Qle_bool_iff in Ele.
        exists before, nd, (after ++ [(n, data)]), p.
        repeat split; try assumption.
        -- rewrite Hseen, <- app_assoc. reflexivity.
        -- intros m md p' Hin Hm. apply in_app_or in Hin.
           destruct Hin as [Hin|[Heq|[]]]; [eapply Hafter; eassumption|].
           injection Heq as <- <-. rewrite Hpos in Hm. injection Hm as <-. exact Ele.
      * assert (Hlt : (geodesic (lat, lon) (node_lat, node_lon) < d)%Q).
        { apply Qnot_le_lt. intros Hle. apply Qle_bool_iff in Hle. congruence. }
        exists seen, data, [], (node_lat, node_lon).
        repeat split; try assumption; try reflexivity; [|intros m md p' []].
        intros m md p' Hin Hm. rewrite Hseen in Hin. apply in_app_or in Hin.
        destruct Hin as [Hin|[Heq|Hin]].
        -- eapply Qlt_trans; [exact Hlt|]. eapply Hbefore; eassumption.
        -- injection Heq as <- <-. rewrite Hp in Hm. injection Hm as <-.
           rewrite <- Hd. exact Hlt.
        -- eapply Qlt_le_trans; [exact Hlt|]. eapply Hafter; eassumption.
    + exists before, nd, (after ++ [(n, data)]), p.
      repeat split; try assumption.
      * rewrite Hseen, <- app_assoc. reflexivity.
      * intros m md p' Hin Hm. apply in_app_or in Hin.
        destruct Hin as [Hin|[Heq|[]]]; [eapply Hafter; eassumption|].
        injection Heq as <- <-. unfold node_position in Hm. rewrite Ey, Ex in Hm.
        discriminate.
    + exists before, nd, (after ++ [(n, data)]), p.
      repeat split; try assumption.
      * rewrite Hseen, <- app_assoc. reflexivity.
      * intros m md p' Hin Hm. apply in_app_or in Hin.
        destruct Hin as [Hin|[Heq|[]]]; [eapply Hafter; eassumption|].
        injection Heq as <- <-. unfold node_position in Hm. rewrite Ey in Hm.
        discriminate.
  - intros Hnone. unfold nearest_step.
    destruct (nd_y data) as [node_lat|] eqn:Ey;
      [destruct (nd_x data) as [node_lon|] eqn:Ex|]; cbn [scan_state].
    + exists seen, data, [], (node_lat, node_lon).
      repeat split; try reflexivity.
      * unfold node_position. rewrite Ey, Ex. reflexivity.
      * intros m md p' Hin Hm. rewrite Forall_forall in Hnone.
        specialize (Hnone _ Hin). cbn [snd] in Hnone. congruence.
      * intros m md p' [].
    + apply Forall_app. split; [assumption|]. constructor; [|constructor].
      cbn [snd]. unfold node_position. rewrite Ey, Ex. reflexivity.
    + apply Forall_app. split; [assumption|]. constructor; [|constructor].
      cbn [snd]. unfold node_position. rewrite Ey. reflexivity.
Qed.

Lemma nearest_fold_state (l : list (node * NodeData)) :
  forall seen acc,
    scan_state geodesic (lat, lon) seen acc ->
    scan_state geodesic (lat, lon) (seen ++ l)
               (fold_left (nearest_step geodesic lat lon) l acc).
Proof.
  induction l as [|e rest IH]; intros seen acc H; cbn [fold_left].
  - rewrite app_nil_r. assumption.
  - replace (seen ++ e :: rest) with ((seen ++ [e]) ++ rest)
      by (rewrite <- app_assoc; reflexivity).
    apply IH. apply nearest_step_state. assumption.
Qed.

Lemma nearest_scan_state (G : AnyGraph) :
  scan_state geodesic (lat, lon) (nodes G)
             (fold_left (nearest_step geodesic lat lon) (nodes G) (None, None)).
Proof.
  apply (nearest_fold_state (nodes G) [] (None, None)). constructor.
Qed.

Lemma nearest_node_unlocated_iff (G : AnyGraph) :
  nearest_node geodesic G lat lon = None <-> unlocated G.
Proof.
  pose proof (nearest_scan_state G) as H. unfold nearest_node, unlocated.
  destruct (fold_left _ (nodes G) (None, None)) as [[d|] [n|]];
    cbn [scan_state snd] in *; try contradiction.
  - split; [discriminate|]. intros Hnone.
    destruct H as (before & nd & after & p & Hseen & Hp & _).
    rewrite Forall_forall in Hnone.
    specialize (Hnone (n, nd)). cbn [snd] in Hnone.
    rewrite Hnone in Hp; [discriminate|].
    rewrite Hseen. apply in_or_app. right. left. reflexivity.
  - split; [intros _; exact H | reflexivity].
Qed.

(** X1. [nearest_node] finds no node exactly when no node of the graph
    carries both coordinates, whatever the query point. *)
Theorem nearest_node_none_iff (G : AnyGraph) :
  nearest_node geodesic G lat lon = None <-> unlocated G.
Proof. apply nearest_node_unlocated_iff. Qed.

(** X2. The node [nearest_node] returns carries a position; every
    positioned node listed before it is strictly farther from the query
    point and every positioned node listed after it is at least as far: the
    first of the nearest nodes is returned. *)
Theorem nearest_node_first_minimum (G : AnyGraph) (n : node) :
  nearest_node geodesic G lat lon = Some n ->
  exists before nd after p,
    nodes G = before ++ (n, nd) :: after /\
    node_position nd = Some p /\
    (forall m md p', In (m, md) before -> node_position md = Some p' ->
                     (geodesic (lat, lon) p < geodesic (lat, lon) p')%Q) /\
    (forall m md p', In (m, md) after -> node_position md = Some p' ->
                     (geodesic (lat, lon) p <= geodesic (lat, lon) p')%Q).
Proof.
  pose proof (nearest_scan_state G) as H. unfold nearest_node.
  destruct (fold_left _ (nodes G) (None, None)) as [[d|] [k|]];
    cbn [scan_state snd] in *; try contradiction; try discriminate.
  intros Heq. injection Heq as ->.
  destruct H as (before & nd & after & p & Hseen & Hp & Hd & Hbefore & Hafter).
  subst d. exists before, nd, after, p. repeat split; assumption.
Qed.

End NearestNode.

(** ** The segment assembler: errors *)

Section AssemblerErrors.

Variable graph : AnyGraph.

Lemma node_coord_raises (n : node) (e : exn) :
  node_coord graph n = Raise e -> exists k, e = KeyError k.
Proof.
  unfold node_coord, node_data.
  destruct (dict_get n (nodes graph)) as [nd|]; cbn [bind].
  - destruct (nd_y nd); [destruct (nd_x nd)|]; intros H;
      [discriminate | injection H as <- | injection H as <-]; eexists; reflexivity.
  - intros H. injection H as <-. eexists. reflexivity.
Qed.

(** Reading the mode off an edge raises only on a plain [DiGraph], and
    there on every edge that exists: [IndexError] when the edge has no
    attribute, [AttributeError] when it has one. *)
Lemma edge_mode_raises (u v : node) (e : exn) :
  edge_mode graph u v = Raise e ->
  exists g edge,
    graph = DiGraph g /\
    plain_get_edge_data g u v = Some edge /\
    e = if no_attrs edge then IndexError else AttributeError.
Proof.
  unfold edge_mode, _get_edge_data. destruct graph as [m|g].
  - destruct (get_edge_data m u v) as [[first rest]|]; [|discriminate].
    destruct (key_lookup 0 (first :: rest)); discriminate.
  - destruct (plain_get_edge_data g u v) as [edge|] eqn:E; [|discriminate].
    intros H. exists g, edge. split; [reflexivity|]. split; [assumption|].
    destruct (no_attrs edge); cbn [bind object_get] in H; injection H as <-;
      reflexivity.
Qed.

(** An iteration raises what reading the mode raises, or else what reading
    the coordinates of the node raises. *)
Lemma process_edge_raises (st : Assembly) (u v : node) (e : exn) :
  process_edge graph st u v = Raise e ->
  edge_mode graph u v = Raise e \/
  ((exists mode, edge_mode graph u v = Ok mode) /\ node_coord graph u = Raise e).
Proof.
  unfold process_edge, edge_mode.
  destruct (_get_edge_data graph u v) as [[d|]|e']; cbn [bind object_get].
  - destruct (node_coord graph u) as [c|e'']; cbn [bind]; [discriminate|].
    intros H. injection H as <-. right. split; [eexists|]; reflexivity.
  - intros H. injection H as <-. left. reflexivity.
  - intros H. injection H as <-. left. reflexivity.
Qed.

Lemma process_edge_node_raises (st : Assembly) (u v : node) (mode : string) (time : Q)
      (e : exn) :
  edge_mode graph u v = Ok mode ->
  edge_time graph u v = Ok time ->
  node_coord graph u = Raise e ->
  process_edge graph st u v = Raise e.
Proof.
  unfold process_edge, edge_mode, edge_time.
  destruct (_get_edge_data graph u v) as [[d|]|e']; cbn [bind object_get];
    try discriminate.
  intros _ _ ->. reflexivity.
Qed.

Lemma adjacent_head (u v : node) (rest : list node) : adjacent u v (u :: v :: rest).
Proof. exists [], rest. reflexivity. Qed.

Lemma adjacent_tail (u v w : node) (path : list node) :
  adjacent u v path -> adjacent u v (w :: path).
Proof. intros (pre & post & ->). exists (w :: pre), post. reflexivity. Qed.

Lemma raised_by_tail (w : node) (path : list node) (e : exn) :
  raised_by graph path e -> raised_by graph (w :: path) e.
Proof.
  intros [(n & k & Hin & Hn & He)|(g & u & v & edge & Hg & Hadj & Hedge & He)].
  - left. exists n, k. split; [right; assumption | split; assumption].
  - right. exists g, u, v, edge.
    split; [assumption|]. split; [apply adjacent_tail; assumption|].
    split; assumption.
Qed.

Lemma assemble_loop_raises_at (path : list node) (e : exn) :
  forall st, assemble_loop graph st path = Raise e -> raised_by graph path e.
Proof.
  induction path as [|u rest IH]; intros st H; [discriminate|].
  destruct rest as [|v rest']; [discriminate|].
  rewrite assemble_loop_step in H.
  destruct (process_edge graph st u v) as [st1|e1] eqn:E; cbn [bind] in H.
  - apply raised_by_tail. eapply IH. eassumption.
  - injection H as <-. apply process_edge_raises in E.
    destruct E as [Hm|[_ Hc]].
    + right. destruct (edge_mode_raises _ _ Hm) as (g & edge & Hg & Hedge & He).
      exists g, u, v, edge.
      split; [assumption|]. split; [apply adjacent_head|]. split; assumption.
    + left. destruct (node_coord_raises _ Hc) as (k & ->).
      exists u, k. split; [left; reflexivity | split; [assumption | reflexivity]].
Qed.

Lemma path_to_segments_raises_at (path : list node) (e : exn) :
  _path_to_segments graph path = Raise e -> raised_by graph path e.
Proof.
  unfold _path_to_segments.
  destruct (Nat.ltb_spec (List.length path) 2) as [_|Hlen]; [discriminate|].
  destruct (assemble_loop graph assembly_init path) as [st|e1] eqn:E; cbn [bind].
  - destruct (Nat.ltb 1 (List.length path)).
    + destruct (node_coord graph (last path ""%string)) as [fc|e2] eqn:Ec; cbn [bind].
      * destruct (current_mode st); [destruct (is_nil _)|]; discriminate.
      * intros H. injection H as <-. destruct (node_coord_raises _ Ec) as (k & ->).
        left. exists (last path ""%string), k.
        split; [|split; [assumption | reflexivity]].
        apply last_In. destruct path; [cbn in Hlen; lia | discriminate].
    + cbn [bind]. destruct (current_mode st); [destruct (is_nil _)|]; discriminate.
  - intros H. injection H as <-. eapply assemble_loop_raises_at. eassumption.
Qed.

(** [_path_to_segments] raises [KeyError], [AttributeError] or
    [IndexError], and nothing else. *)
Lemma path_to_segments_raises (path : list node) (e : exn) :
  _path_to_segments graph path = Raise e ->
  (exists k, e = KeyError k) \/ e = AttributeError \/ e = IndexError.
Proof.
  intros H. apply path_to_segments_raises_at in H.
  destruct H as [(n & k & _ & _ & ->)|(g & u & v & edge & _ & _ & _ & ->)].
  - left. eexists. reflexivity.
  - right. destruct (no_attrs edge); [right | left]; reflexivity.
Qed.

Lemma last_snoc (pre : list node) (n d : node) : last (pre ++ [n]) d = n.
Proof.
  induction pre as [|u pre' IH]; [reflexivity|].
  cbn [app]. destruct (pre' ++ [n]) eqn:E.
  - destruct pre'; discriminate E.
  - exact IH.
Qed.

End AssemblerErrors.

Section MultigraphErrors.

Variable g : Graph.

Lemma assemble_loop_stops (pre post : list node) (n : node) (e : exn) :
  located_path (MultiDiGraph g) pre ->
  node_coord (MultiDiGraph g) n = Raise e ->
  post <> [] ->
  forall st, assemble_loop (MultiDiGraph g) st (pre ++ n :: post) = Raise e.
Proof.
  intros Hpre Hn Hpost. induction pre as [|u pre' IH]; intros st.
  - destruct post as [|v post']; [congruence|].
    cbn [app assemble_loop].
    destruct (multigraph_edge_reads g n v) as (d & _ & Hm & Ht).
    rewrite (@process_edge_node_raises (MultiDiGraph g) st n v _ _ e Hm Ht Hn).
    reflexivity.
  - assert (Hshape : exists v rest, pre' ++ n :: post = v :: rest).
    { destruct pre'; cbn [app]; eexists; eexists; reflexivity. }
    destruct Hshape as (v & rest & Hshape).
    cbn [app]. rewrite Hshape, assemble_loop_step, <- Hshape.
    destruct (Hpre u (or_introl eq_refl)) as (c & Hc).
    destruct (multigraph_edge_reads g u v) as (d & _ & Hm & Ht).
    rewrite (@process_edge_returns (MultiDiGraph g) st u v _ _ c Hm Ht Hc). cbn [bind].
    apply IH. intros m Hin. apply Hpre. right. assumption.
Qed.

Lemma assemble_loop_reaches_last (pre : list node) (n : node) :
  located_path (MultiDiGraph g) pre ->
  forall st, exists st', assemble_loop (MultiDiGraph g) st (pre ++ [n]) = Ok st'.
Proof.
  intros Hpre. induction pre as [|u pre' IH]; intros st.
  - eexists. reflexivity.
  - assert (Hshape : exists v rest, pre' ++ [n] = v :: rest).
    { destruct pre'; cbn [app]; eexists; eexists; reflexivity. }
    destruct Hshape as (v & rest & Hshape).
    cbn [app]. rewrite Hshape, assemble_loop_step, <- Hshape.
    destruct (Hpre u (or_introl eq_refl)) as (c & Hc).
    destruct (multigraph_edge_reads g u v) as (d & _ & Hm & Ht).
    rewrite (@process_edge_returns (MultiDiGraph g) st u v _ _ c Hm Ht Hc). cbn [bind].
    apply IH. intros m Hin. apply Hpre. right. assumption.
Qed.

(** X3. On a [MultiDiGraph] and a path of at least two nodes the assembler
    raises the [KeyError] of the first node of the path that is missing
    from the graph or lacks a coordinate, whatever follows it. *)
Theorem path_to_segments_first_missing (pre post : list node) (n : node) (e : exn) :
  2 <= List.length (pre ++ n :: post) ->
  located_path (MultiDiGraph g) pre ->
  node_coord (MultiDiGraph g) n = Raise e ->
  _path_to_segments (MultiDiGraph g) (pre ++ n :: post) = Raise e /\
  exists k, e = KeyError k.
Proof.
  intros Hlen Hpre Hn. split; [|eapply node_coord_raises; eassumption].
  unfold _path_to_segments.
  destruct (Nat.ltb_spec (List.length (pre ++ n :: post)) 2) as [Hshort|_]; [lia|].
  destruct post as [|v post'].
  - destruct (assemble_loop_reaches_last n Hpre assembly_init) as (st & ->).
    cbn [bind].
    destruct (Nat.ltb_spec 1 (List.length (pre ++ [n]))) as [_|Hbad]; [|lia].
    rewrite last_snoc, Hn. reflexivity.
  - rewrite assemble_loop_stops with (e := e); try assumption;
      [reflexivity | discriminate].
Qed.

End MultigraphErrors.

(** ** Route computation: errors *)

Section RouteErrors.

Variable geodesic : coord -> coord -> Q.
Variable shortest_path : AnyGraph -> node -> node -> option (list node).

(** X4. Route computation raises "Could not find valid nodes" exactly when
    no node of the graph carries both coordinates; the query point plays no
    part. *)
Theorem route_no_valid_nodes_iff (graph : AnyGraph)
        (start_lat start_lon end_lat end_lon : Q) :
  get_multimodal_route geodesic shortest_path graph start_lat start_lon end_lat end_lon
  = Raise (ValueError "Could not find valid nodes near the specified coordinates")
  <-> unlocated graph.
Proof.
  unfold get_multimodal_route. split.
  - destruct (nearest_node geodesic graph start_lat start_lon) as [s|] eqn:Es.
    + destruct (nearest_node geodesic graph end_lat end_lon) as [t|] eqn:Et.
      * destruct (shortest_path graph s t) as [path|]; [|discriminate].
        destruct (_path_to_segments graph path) as [segs|e] eqn:E; cbn [bind];
          [discriminate|].
        apply path_to_segments_raises in E.
        destruct E as [(k & ->)|[->| ->]]; discriminate.
      * intros _. eapply nearest_node_unlocated_iff. eassumption.
    + intros _. eapply nearest_node_unlocated_iff. eassumption.
  - intros H.
    rewrite (proj2 (nearest_node_unlocated_iff geodesic start_lat start_lon graph) H).
    reflexivity.
Qed.

End RouteErrors.

(** ** The segment assembler: segments are the runs of the path *)

Section AssemblerRuns.

Variable graph : AnyGraph.

Lemma sum_Q_snoc (ts : list Q) (t : Q) : sum_Q (ts ++ [t]) = (sum_Q ts + t)%Q.
Proof. unfold sum_Q. rewrite fold_left_app. reflexivity. Qed.

Lemma run_cost_snoc (m : string) (ts : list Q) (t : Q) :
  run_cost m (ts ++ [t]) = (run_cost m ts + calc_cost m t)%Z.
Proof.
  unfold run_cost. rewrite calc_cost_flat, length_app. cbn [List.length].
  destruct (String.eqb m "car"); lia.
Qed.

Lemma run_cost_single (m : string) (t : Q) :
  run_cost m [t] = (0 + calc_cost m t)%Z.
Proof.
  unfold run_cost. rewrite calc_cost_flat. cbn [List.length].
  destruct (String.eqb m "car"); reflexivity.
Qed.

(** The bookkeeping on an open run: the step joins the run, or the run is
    closed as one segment and a new run starts. *)
Lemma accrue_tracks (st : Assembly) (m : string) (ts : list Q)
      (mode : string) (time : Q) (c : coord) :
  tracks st m ts ->
  if String.eqb mode m
  then tracks (accrue st mode time c) m (ts ++ [time]) /\
       a_segments (accrue st mode time c) = a_segments st
  else tracks (accrue st mode time c) mode [time] /\
       map segment_summary (a_segments (accrue st mode time c))
       = map segment_summary (a_segments st) ++ [run_summary (m, ts)].
Proof.
  intros (Hmode & Htime & Hcost & Hcoords). unfold accrue.
  destruct st as [sg cm cc ct cost].
  cbn [current_mode current_coords a_segments current_time current_cost] in *.
  subst cm ct cost.
  cbn [current_mode current_coords a_segments current_time current_cost].
  destruct (String.eqb_spec mode m) as [Heq|Hne];
    cbn [current_mode current_coords a_segments current_time current_cost].
  - split; [|reflexivity]. unfold tracks.
    cbn [current_mode current_coords a_segments current_time current_cost].
    rewrite sum_Q_snoc, Heq, run_cost_snoc.
    repeat split. apply append_new_not_nil.
  - destruct cc as [|c0 cc']; [contradiction|]. cbn [is_nil].
    split.
    + unfold tracks.
      cbn [current_mode current_coords a_segments current_time current_cost].
      rewrite run_cost_single. repeat split. apply append_new_not_nil.
    + rewrite map_app. reflexivity.
Qed.

Lemma accrue_first_tracks (mode : string) (time : Q) (c : coord) :
  tracks (accrue assembly_init mode time c) mode [time] /\
  a_segments (accrue assembly_init mode time c) = [].
Proof.
  unfold accrue.
  cbn [assembly_init current_mode current_coords a_segments current_time current_cost].
  rewrite String.eqb_refl.
  cbn [current_mode current_coords a_segments current_time current_cost].
  split; [|reflexivity]. unfold tracks.
  cbn [current_mode current_coords a_segments current_time current_cost].
  rewrite run_cost_single. repeat split. apply append_new_not_nil.
Qed.

Lemma edge_steps_step (u v : node) (rest : list node) :
  edge_steps graph (u :: v :: rest) =
    (mode <- edge_mode graph u v ;;
     time <- edge_time graph u v ;;
     steps <- edge_steps graph (v :: rest) ;;
     Ok ((mode, time) :: steps)).
Proof. reflexivity. Qed.

Lemma assemble_loop_runs (path : list node) :
  forall st st' m ts,
    assemble_loop graph st path = Ok st' ->
    tracks st m ts ->
    exists steps m' ts',
      edge_steps graph path = Ok steps /\
      tracks st' m' ts' /\
      map segment_summary (a_segments st') ++ [run_summary (m', ts')]
      = map segment_summary (a_segments st)
        ++ map run_summary (runs_from m ts steps).
Proof.
  induction path as [|u rest IH]; intros st st' m ts Hrun Htr.
  - injection Hrun as <-. exists [], m, ts.
    split; [reflexivity|]. split; [assumption | reflexivity].
  - destruct rest as [|v rest'].
    + injection Hrun as <-. exists [], m, ts.
      split; [reflexivity|]. split; [assumption | reflexivity].
    + rewrite assemble_loop_step in Hrun.
      destruct (process_edge graph st u v) as [st1|e] eqn:E; [|discriminate].
      cbn [bind] in Hrun.
      destruct (process_edge_inv _ _ _ _ E) as (mode & time & c & Hm & Ht & _ & ->).
      pose proof (@accrue_tracks st m ts mode time c Htr) as Hstep.
      rewrite edge_steps_step, Hm, Ht. cbn [bind].
      destruct (String.eqb mode m) eqn:Emode.
      * destruct Hstep as [Htr1 Hsg].
        destruct (IH _ _ _ _ Hrun Htr1) as (steps & m' & ts' & Hs & Htr' & Heq).
        rewrite Hs. cbn [bind]. exists ((mode, time) :: steps), m', ts'.
        cbn [runs_from]. rewrite Emode.
        split; [reflexivity|]. split; [assumption|]. rewrite Heq, Hsg. reflexivity.
      * destruct Hstep as [Htr1 Hsg].
        destruct (IH _ _ _ _ Hrun Htr1) as (steps & m' & ts' & Hs & Htr' & Heq).
        rewrite Hs. cbn [bind]. exists ((mode, time) :: steps), m', ts'.
        cbn [runs_from]. rewrite Emode.
        split; [reflexivity|]. split; [assumption|].
        cbn [map]. rewrite Heq, Hsg, <- app_assoc. reflexivity.
Qed.

Lemma path_to_segments_runs (path : list node) (segs : list Segment) :
  _path_to_segments graph path = Ok segs ->
  exists steps,
    edge_steps graph path = Ok steps /\
    map segment_summary segs = map run_summary (runs steps).
Proof.
  unfold _path_to_segments.
  destruct (Nat.ltb_spec (List.length path) 2) as [Hshort|Hlong].
  - intros H. injection H as <-. exists [].
    destruct path as [|u [|v rest]]; cbn in *; try (split; reflexivity). lia.
  - destruct path as [|u [|v rest]]; cbn [List.length] in Hlong; try lia.
    rewrite assemble_loop_step.
    destruct (process_edge graph assembly_init u v) as [st1|e] eqn:E; [|discriminate].
    cbn [bind].
    destruct (assemble_loop graph st1 (v :: rest)) as [st|e] eqn:El; [|discriminate].
    cbn [bind].
    destruct (process_edge_inv _ _ _ _ E) as (mode & time & c & Hm & Ht & _ & ->).
    destruct (accrue_first_tracks mode time c) as (Htr1 & Hsg1).
    destruct (@assemble_loop_runs (v :: rest) _ st _ _ El Htr1)
      as (steps & m' & ts' & Hs & Htr' & Heq).
    rewrite Hsg1 in Heq. cbn [map app] in Heq.
    destruct Htr' as (Hmode & Htime & Hcost & Hcoords).
    rewrite edge_steps_step, Hm, Ht. cbn [bind]. rewrite Hs. cbn [bind].
    destruct (Nat.ltb 1 (List.length (u :: v :: rest))).
    + destruct (node_coord graph (last (u :: v :: rest) ""%string)) as [fc|e];
        [|discriminate].
      cbn [bind]. rewrite Hmode.
      destruct (append_new (current_coords st) fc) as [|c0 cs] eqn:Ea.
      * exfalso. revert Ea. apply append_new_not_nil.
      * cbn [is_nil]. intros H. injection H as <-. eexists. split; [reflexivity|].
        rewrite map_app. cbn [map runs]. unfold segment_summary at 2.
        cbn [seg_mode seg_time seg_cost].
        unfold round0. rewrite Htime, Hcost. exact Heq.
    + cbn [bind]. rewrite Hmode.
      destruct (current_coords st) as [|c0 cs]; [contradiction|].
      cbn [is_nil]. intros H. injection H as <-. eexists. split; [reflexivity|].
      rewrite map_app. cbn [map runs]. unfold segment_summary at 2.
      cbn [seg_mode seg_time seg_cost].
      unfold round0. rewrite Htime, Hcost. exact Heq.
Qed.

(** X5. The segments are the maximal runs of equal mode along the path, in
    order: each segment has the mode of its run, the rounded sum of the
    times of the run's edges, and 20 per edge as cost for a car run, 0
    otherwise. *)
Theorem segments_are_runs (path : list node) (segs : list Segment) :
  _path_to_segments graph path = Ok segs ->
  exists steps,
    edge_steps graph path = Ok steps /\
    map segment_summary segs = map run_summary (runs steps).
Proof. apply path_to_segments_runs. Qed.

Lemma runs_from_modes (steps : list (string * Q)) :
  forall m ts,
    exists tail, map fst (runs_from m ts steps) = m :: tail /\
                 no_repeat (m :: tail).
Proof.
  induction steps as [|[m' t] rest IH]; intros m ts; cbn [runs_from].
  - exists []. split; [reflexivity | exact I].
  - destruct (String.eqb_spec m' m) as [->|Hne].
    + apply IH.
    + destruct (IH m' [t]) as (tail & Heq & Hnr).
      exists (m' :: tail). cbn [map fst]. rewrite Heq.
      split; [reflexivity|]. cbn [no_repeat]. split; [congruence | exact Hnr].
Qed.

(** X6. Two consecutive segments of an itinerary never have the same
    mode. *)
Theorem segment_modes_alternate (path : list node) (segs : list Segment) :
  _path_to_segments graph path = Ok segs -> no_repeat (map seg_mode segs).
Proof.
  intros H. apply path_to_segments_runs in H. destruct H as (steps & _ & H).
  assert (Hmodes : map seg_mode segs = map fst (runs steps)).
  { transitivity (map (fun x : string * Q * Z => fst (fst x))
                      (map segment_summary segs)).
    - rewrite map_map. reflexivity.
    - rewrite H, map_map. reflexivity. }
  rewrite Hmodes. unfold runs.
  destruct steps as [|[m t] rest]; [exact I|].
  destruct (runs_from_modes rest m [t]) as (tail & -> & Hnr). exact Hnr.
Qed.

Lemma append_new_head (l : list coord) (x c : coord) :
  hd_error l = Some c -> hd_error (append_new l x) = Some c.
Proof.
  unfold append_new. destruct (coord_in x l); [trivial|].
  destruct l; [discriminate | trivial].
Qed.

Lemma accrue_starts_at (st : Assembly) (mode : string) (time : Q) (cu c : coord) :
  current_mode st <> None ->
  starts_at c st -> starts_at c (accrue st mode time cu).
Proof.
  unfold accrue. intros Hmode Hs.
  destruct st as [sg cm cc ct cost]. unfold starts_at in *.
  cbn [current_mode current_coords a_segments current_time current_cost] in *.
  destruct cm as [m|]; [|congruence].
  cbn [current_mode current_coords a_segments current_time current_cost].
  destruct (String.eqb mode m);
    cbn [current_mode current_coords a_segments current_time current_cost].
  - destruct sg as [|s0 sg']; [apply append_new_head|]; assumption.
  - destruct sg as [|s0 sg'].
    + destruct cc as [|c0 cc']; [discriminate Hs|]. cbn [is_nil app]. exact Hs.
    + destruct (is_nil cc); exact Hs.
Qed.

Lemma assemble_loop_starts_at (path : list node) (c : coord) :
  forall st st',
    assemble_loop graph st path = Ok st' ->
    current_mode st <> None ->
    starts_at c st -> starts_at c st' /\ current_mode st' <> None.
Proof.
  induction path as [|u rest IH]; intros st st' Hrun Hmode Hs.
  - injection Hrun as <-. split; assumption.
  - destruct rest as [|v rest'].
    + injection Hrun as <-. split; assumption.
    + rewrite assemble_loop_step in Hrun.
      destruct (process_edge graph st u v) as [st1|e] eqn:E; [|discriminate].
      cbn [bind] in Hrun.
      destruct (process_edge_inv _ _ _ _ E) as (mode & time & cu & _ & _ & _ & ->).
      apply (IH _ _ Hrun).
      * destruct (accrue_reads st mode time cu) as [Hm _]. rewrite Hm. discriminate.
      * apply accrue_starts_at; assumption.
Qed.

Lemma path_to_segments_origin (u v : node) (rest : list node)
      (segs : list Segment) :
  _path_to_segments graph (u :: v :: rest) = Ok segs ->
  exists s others c,
    segs = s :: others /\
    node_coord graph u = Ok c /\
    hd_error (seg_coords s) = Some c.
Proof.
  unfold _path_to_segments.
  change (Nat.ltb (List.length (u :: v :: rest)) 2) with false.
  change (Nat.ltb 1 (List.length (u :: v :: rest))) with true.
  cbv iota. rewrite assemble_loop_step.
  destruct (process_edge graph assembly_init u v) as [st1|e] eqn:E; [|discriminate].
  cbn [bind].
  destruct (assemble_loop graph st1 (v :: rest)) as [st|e] eqn:El; [|discriminate].
  cbn [bind].
  destruct (process_edge_inv _ _ _ _ E) as (mode & time & c & _ & _ & Hc & ->).
  rewrite Hc.
  assert (H1 : starts_at c (accrue assembly_init mode time c) /\
               current_mode (accrue assembly_init mode time c) <> None).
  { destruct (accrue_reads assembly_init mode time c) as [Hm _].
    split; [|rewrite Hm; discriminate].
    destruct (accrue_first_tracks mode time c) as (_ & Hsg).
    unfold starts_at. rewrite Hsg, accrue_coords. reflexivity. }
  destruct H1 as [Hs1 Hm1].
  destruct (@assemble_loop_starts_at (v :: rest) c _ st El Hm1 Hs1) as [Hs Hm].
  destruct (node_coord graph (last (u :: v :: rest) ""%string)) as [fc|e];
    [|discriminate].
  cbn [bind]. destruct (current_mode st) as [m|]; [|congruence].
  destruct (append_new (current_coords st) fc) as [|c0 cs] eqn:Ea.
  - exfalso. revert Ea. apply append_new_not_nil.
  - cbn [is_nil]. intros H. injection H as <-.
    unfold starts_at in Hs. destruct (a_segments st) as [|s0 sg'].
    + cbn [app]. eexists _, _, c. repeat split. cbn [seg_coords].
      rewrite <- Ea. apply append_new_head. exact Hs.
    + cbn [app]. exists s0, (sg' ++ [mkSegment m (c0 :: cs) (round1 (current_time st))
                                          (round0 (current_cost st))]), c.
      repeat split. exact Hs.
Qed.

(** X7. The itinerary of a path of at least two nodes has a first segment,
    and its first coordinate is that of the first node of the path. *)
Theorem first_segment_starts_at_origin (u v : node) (rest : list node)
        (segs : list Segment) :
  _path_to_segments graph (u :: v :: rest) = Ok segs ->
  exists s others c,
    segs = s :: others /\
    node_coord graph u = Ok c /\
    hd_error (seg_coords s) = Some c.
Proof. apply path_to_segments_origin. Qed.

Lemma path_to_segments_destination (path : list node) (segs : list Segment) :
  2 <= List.length path ->
  _path_to_segments graph path = Ok segs ->
  exists front s c,
    segs = front ++ [s] /\
    node_coord graph (last path ""%string) = Ok c /\
    coord_in c (seg_coords s) = true.
Proof.
  intros Hlen Hrun. unfold _path_to_segments in Hrun.
  destruct (Nat.ltb_spec (List.length path) 2) as [Hshort|_]; [lia|].
  destruct (assemble_loop graph assembly_init path) as [st|e] eqn:E; [|discriminate].
  cbn [bind] in Hrun.
  assert (Hinit : current_mode assembly_init <> None ->
                  current_coords assembly_init <> []) by (cbn; congruence).
  destruct (@assemble_loop_accrued graph path assembly_init st E Hinit)
    as (_ & _ & Hmode).
  specialize (Hmode Hlen).
  destruct (Nat.ltb_spec 1 (List.length path)) as [_|Hbad]; [|lia].
  destruct (node_coord graph (last path ""%string)) as [fc|e]; [|discriminate].
  cbn [bind] in Hrun.
  destruct (current_mode st) as [m|]; [|contradiction].
  destruct (append_new (current_coords st) fc) as [|c0 rest] eqn:Ea.
  - exfalso. revert Ea. apply append_new_not_nil.
  - cbn [is_nil] in Hrun. injection Hrun as <-.
    eexists _, _, fc. split; [reflexivity|]. split; [reflexivity|].
    cbn [seg_coords]. rewrite <- Ea. apply append_new_in.
Qed.

End AssemblerRuns.

(** ** Namespacing of node identifiers *)

Section Relabel.

Variable mode_suffix : string.

Lemma original_id_append (n t : string) :
  original_id (n ++ String "_"%char t) = original_id n.
Proof.
  induction n as [|c r IH]; cbn [append original_id].
  - reflexivity.
  - destruct (Ascii.eqb c "_"%char); [reflexivity | rewrite IH; reflexivity].
Qed.

Lemma original_id_underscore_free (n : string) :
  underscore_free n = true -> original_id n = n.
Proof.
  induction n as [|c r IH]; cbn [underscore_free original_id]; [reflexivity|].
  destruct (Ascii.eqb c "_"%char); cbn [negb andb]; [discriminate|].
  intros H. rewrite IH by assumption. reflexivity.
Qed.

(** X8. Splitting a namespaced identifier at its first underscore gives
    what the same split gives on the original identifier, and gives back the
    original identifier itself when that holds no underscore. *)
Theorem original_id_relabel (n : node) :
  original_id (relabel_name mode_suffix n) = original_id n /\
  (underscore_free n = true -> original_id (relabel_name mode_suffix n) = n).
Proof.
  unfold relabel_name. cbn [append]. rewrite original_id_append.
  split; [reflexivity | apply original_id_underscore_free].
Qed.

Lemma after_last_underscore_free (s : string) :
  underscore_free s = true -> after_last_underscore s = None.
Proof.
  induction s as [|c r IH]; cbn [underscore_free after_last_underscore]; [reflexivity|].
  destruct (Ascii.eqb c "_"%char); cbn [negb andb]; [discriminate|].
  intros H. rewrite IH by assumption. reflexivity.
Qed.

Lemma after_last_underscore_append (n s : string) :
  underscore_free s = true ->
  after_last_underscore (n ++ String "_"%char s) = Some s.
Proof.
  intros Hs. induction n as [|c r IH]; cbn [append after_last_underscore].
  - rewrite after_last_underscore_free by assumption. reflexivity.
  - rewrite IH. reflexivity.
Qed.

Lemma string_length_append (a b : string) :
  String.length (a ++ b) = String.length a + String.length b.
Proof. induction a as [|c r IH]; cbn; [reflexivity | rewrite IH; reflexivity]. Qed.

Lemma append_cancel_right (t : string) :
  forall n1 n2 : string, (n1 ++ t = n2 ++ t)%string -> n1 = n2.
Proof.
  induction n1 as [|c1 r1 IH]; intros [|c2 r2] H; cbn [append] in H.
  - reflexivity.
  - exfalso. apply (f_equal String.length) in H.
    cbn [String.length] in H. rewrite string_length_append in H. lia.
  - exfalso. apply (f_equal String.length) in H.
    cbn [String.length] in H. rewrite string_length_append in H. lia.
  - injection H as -> H. f_equal. apply IH. exact H.
Qed.

Lemma relabel_name_same_suffix (n1 n2 : node) :
  relabel_name mode_suffix n1 = relabel_name mode_suffix n2 -> n1 = n2.
Proof. unfold relabel_name. apply append_cancel_right. Qed.

Lemma relabel_name_eqb (n1 n2 : node) :
  String.eqb (relabel_name mode_suffix n1) (relabel_name mode_suffix n2)
  = String.eqb n1 n2.
Proof.
  destruct (String.eqb_spec n1 n2) as [->|Hne].
  - apply String.eqb_refl.
  - apply String.eqb_neq. intros H. apply Hne. apply relabel_name_same_suffix. exact H.
Qed.

(** X9. Namespacing loses nothing: for suffixes without underscore, two
    namespaced identifiers are equal only if both the suffixes and the
    original identifiers are.  Nodes of different mode layers never share an
    identifier. *)
Theorem relabel_name_injective (other_suffix : string) (n1 n2 : node) :
  underscore_free mode_suffix = true ->
  underscore_free other_suffix = true ->
  relabel_name mode_suffix n1 = relabel_name other_suffix n2 ->
  mode_suffix = other_suffix /\ n1 = n2.
Proof.
  intros H1 H2 Heq.
  assert (Hs : mode_suffix = other_suffix).
  { apply (f_equal after_last_underscore) in Heq. unfold relabel_name in Heq.
    cbn [append] in Heq. rewrite !after_last_underscore_append in Heq by assumption.
    injection Heq as ->. reflexivity. }
  split; [exact Hs|]. subst other_suffix.
  apply relabel_name_same_suffix. exact Heq.
Qed.

Lemma relabel_dict_get (V : Type) (n : node) (d : list (node * V)) :
  dict_get (relabel_name mode_suffix n)
           (map (fun entry : node * V => (relabel_name mode_suffix (fst entry), snd entry)) d)
  = dict_get n d.
Proof.
  induction d as [|[k v] rest IH]; [reflexivity|].
  cbn [map dict_get fst snd]. rewrite relabel_name_eqb, IH. reflexivity.
Qed.

Lemma relabel_connects (u v : node) (e : Edge) :
  connects (relabel_name mode_suffix u) (relabel_name mode_suffix v)
           (mkEdge (relabel_name mode_suffix (e_src e))
                   (relabel_name mode_suffix (e_dst e)) (e_key e) (e_data e))
  = connects u v e.
Proof. unfold connects. cbn [e_src e_dst]. rewrite !relabel_name_eqb. reflexivity. Qed.

(** X10. Relabelling keeps the structure of the graph: between the renamed
    nodes lie the same parallel edges with the same keys and attributes, a
    renamed node has the attributes of the original one, and the numbers of
    nodes and edges are unchanged. *)
Theorem relabel_nodes_structure (graph : Graph) :
  (forall u v,
      keydict (_relabel_nodes graph mode_suffix)
              (relabel_name mode_suffix u) (relabel_name mode_suffix v)
      = keydict graph u v) /\
  (forall n,
      node_data (MultiDiGraph (_relabel_nodes graph mode_suffix))
                (relabel_name mode_suffix n)
      = match node_data (MultiDiGraph graph) n with
        | Ok nd => Ok nd
        | Raise _ => Raise (KeyError (relabel_name mode_suffix n))
        end) /\
  List.length (g_nodes (_relabel_nodes graph mode_suffix)) = List.length (g_nodes graph) /\
  List.length (g_edges (_relabel_nodes graph mode_suffix)) = List.length (g_edges graph).
Proof.
  split; [|split; [|split]].
  - intros u v. unfold keydict, _relabel_nodes. cbn [g_edges].
    induction (g_edges graph) as [|e rest IH]; [reflexivity|].
    cbn [map filter]. rewrite relabel_connects.
    destruct (connects u v e); cbn [map e_key e_data]; rewrite IH; reflexivity.
  - intros n. unfold node_data, _relabel_nodes. cbn [nodes g_nodes].
    rewrite relabel_dict_get. destruct (dict_get n (g_nodes graph)); reflexivity.
  - unfold _relabel_nodes. cbn [g_nodes]. apply length_map.
  - unfold _relabel_nodes. cbn [g_edges]. apply length_map.
Qed.

End Relabel.

Lemma relabel_name_injective_witness :
  relabel_name "walk" "42" = relabel_name "walk" "42" /\
  ("walk"%string = "walk"%string /\ "42"%string = "42"%string).
Proof.
  split; [reflexivity|].
  apply (@relabel_name_injective "walk" "walk" "42" "42"); reflexivity.
Defined.

(** ** Mode attributes: overwriting and errors *)

Section ModeAttributesMore.

Lemma mode_attributes_length_only (mode : string) (speed_kmh : Q) (d d' : EdgeData) :
  ed_length d' = ed_length d ->
  mode_attributes mode speed_kmh d' = mode_attributes mode speed_kmh d.
Proof. intros H. unfold mode_attributes. rewrite H. reflexivity. Qed.

Lemma map_result_related (A B : Type) (R : A -> A -> Prop) (f : A -> result B)
      (l l' : list A) :
  Forall2 R l l' -> (forall a a', R a a' -> f a' = f a) ->
  map_result f l' = map_result f l.
Proof.
  intros Hall Hf. induction Hall as [|a a' l l' Ha Hrest IH]; [reflexivity|].
  cbn [map_result]. rewrite (Hf _ _ Ha), IH. reflexivity.
Qed.

(** X11. [_add_mode_attributes] overwrites: run on a graph it has already
    processed, with whatever mode and speed, it gives what it gives on the
    unprocessed graph; in particular a second run with the same mode and
    speed changes nothing. *)
Theorem add_mode_attributes_overwrites (graph graph1 : Graph) (mode1 mode2 : string)
        (speed1 speed2 : Q) :
  _add_mode_attributes graph mode1 speed1 = Ok graph1 ->
  _add_mode_attributes graph1 mode2 speed2 = _add_mode_attributes graph mode2 speed2 /\
  _add_mode_attributes graph1 mode1 speed1 = Ok graph1.
Proof.
  intros H1.
  assert (Hgen : forall m s,
             _add_mode_attributes graph1 m s = _add_mode_attributes graph m s).
  { intros m s. unfold _add_mode_attributes in *.
    destruct (map_result _ (g_edges graph)) as [edges1|e] eqn:E in H1; [|discriminate].
    cbn [bind] in H1. injection H1 as <-. cbn [g_nodes g_edges].
    apply tag_edges_result in E.
    rewrite (map_result_related
               (R := tagged mode1 speed1)
               (fun e => data <- mode_attributes m s (e_data e) ;;
                         Ok (mkEdge (e_src e) (e_dst e) (e_key e) data)) E);
      [reflexivity|].
    intros a a' (Hsrc & Hdst & Hkey & Hlen & _).
    rewrite (@mode_attributes_length_only m s _ _ Hlen), Hsrc, Hdst, Hkey.
    reflexivity. }
  split; [apply Hgen|]. rewrite Hgen. exact H1.
Qed.

Lemma tag_edges_raises (mode : string) (speed_kmh : Q) (edges : list Edge) (e : exn) :
  map_result
    (fun ed =>
       data <- mode_attributes mode speed_kmh (e_data ed) ;;
       Ok (mkEdge (e_src ed) (e_dst ed) (e_key ed) data)) edges = Raise e ->
  e = ZeroDivisionError /\ (speed_kmh == 0)%Q /\
  Exists (fun ed => ed_length (e_data ed) <> None) edges.
Proof.
  induction edges as [|ed rest IH]; cbn [map_result]; [discriminate|].
  unfold mode_attributes at 1.
  destruct (ed_length (e_data ed)) as [len|] eqn:El.
  - destruct (Qeq_bool speed_kmh 0) eqn:Es; cbn [bind].
    + intros H. injection H as <-. apply Qeq_bool_eq in Es.
      repeat split; [assumption|]. left. rewrite El. discriminate.
    + destruct (map_result _ rest) as [rest'|e'] eqn:Er; cbn [bind]; [discriminate|].
      intros H. injection H as <-. destruct (IH eq_refl) as (He & Hs & Hex).
      repeat split; try assumption. right. assumption.
  - cbn [bind]. destruct (map_result _ rest) as [rest'|e'] eqn:Er; cbn [bind];
      [discriminate|].
    intros H. injection H as <-. destruct (IH eq_refl) as (He & Hs & Hex).
    repeat split; try assumption. right. assumption.
Qed.

Lemma tag_edges_zero_speed (mode : string) (speed_kmh : Q) (edges : list Edge) :
  (speed_kmh == 0)%Q ->
  Exists (fun ed => ed_length (e_data ed) <> None) edges ->
  map_result
    (fun ed =>
       data <- mode_attributes mode speed_kmh (e_data ed) ;;
       Ok (mkEdge (e_src ed) (e_dst ed) (e_key ed) data)) edges
  = Raise ZeroDivisionError.
Proof.
  intros Hs Hex. apply Qeq_eq_bool in Hs.
  induction Hex as [ed rest Hlen|ed rest Hex IH]; cbn [map_result].
  - unfold mode_attributes. destruct (ed_length (e_data ed)); [|congruence].
    rewrite Hs. reflexivity.
  - unfold mode_attributes at 1. destruct (ed_length (e_data ed)).
    + rewrite Hs. reflexivity.
    + cbn [bind]. rewrite IH. reflexivity.
Qed.

(** X12. [_add_mode_attributes] raises exactly when the speed is zero and
    some edge has a length, and what it raises is [ZeroDivisionError]. *)
Theorem add_mode_attributes_raises_iff (graph : Graph) (mode : string) (speed_kmh : Q)
        (e : exn) :
  _add_mode_attributes graph mode speed_kmh = Raise e <->
  e = ZeroDivisionError /\ (speed_kmh == 0)%Q /\
  Exists (fun ed => ed_length (e_data ed) <> None) (g_edges graph).
Proof.
  unfold _add_mode_attributes. split.
  - destruct (map_result _ (g_edges graph)) as [edges'|e'] eqn:E; cbn [bind];
      [discriminate|].
    intros H. injection H as <-. eapply tag_edges_raises. eassumption.
  - intros (-> & Hs & Hex). rewrite tag_edges_zero_speed by assumption. reflexivity.
Qed.

End ModeAttributesMore.

(** ** Interlayer linking: what the scan adds *)

Section LinkerMore.

Variable geodesic : coord -> coord -> Q.

Lemma fold_add_call_edges (calls : list (node * node * EdgeData)) :
  forall g,
    exists added,
      g_edges (fold_left add_call calls g) = g_edges g ++ added /\
      Forall2 (fun c e => e_src e = fst (fst c) /\ e_dst e = snd (fst c) /\
                          e_data e = snd c) calls added.
Proof.
  induction calls as [|c rest IH]; intros g; cbn [fold_left].
  - exists []. rewrite app_nil_r. split; [reflexivity | constructor].
  - destruct (IH (add_call g c)) as (added & Hedges & Hall).
    assert (Hone : g_edges (add_call g c)
                   = g_edges g
                     ++ [mkEdge (fst (fst c)) (snd (fst c))
                                (new_edge_key g (fst (fst c)) (snd (fst c))) (snd c)])
      by (unfold add_call; apply add_edge_edges).
    rewrite Hone, <- app_assoc in Hedges.
    eexists. split; [exact Hedges|].
    constructor; [|exact Hall]. repeat split.
Qed.

Lemma pair_calls_linker_edge (n1 n2 : string * coord) (c : node * node * EdgeData)
      (e : Edge) :
  In c (pair_calls geodesic n1 n2) ->
  e_src e = fst (fst c) -> e_dst e = snd (fst c) -> e_data e = snd c ->
  linker_edge e.
Proof.
  unfold pair_calls, linker_edge. intros Hin Hsrc Hdst Hdata.
  rewrite Hsrc, Hdst, Hdata.
  destruct (String.eqb_spec (fst n1) (fst n2)) as [Heq|Hne]; [contradiction|].
  destruct (String.eqb (original_id (fst n1)) (original_id (fst n2))).
  - destruct Hin as [<-|[]]. cbn [fst snd transfer_attrs ed_mode ed_time ed_weight ed_length].
    repeat split; try assumption. left. split; reflexivity.
  - destruct (Qle_bool (geodesic (snd n1) (snd n2)) max_transfer_distance) eqn:Ele;
      [|contradiction].
    destruct Hin as [<-|[<-|[]]];
      cbn [fst snd transfer_attrs ed_mode ed_time ed_weight ed_length];
      (repeat split; [congruence | right; split; [reflexivity|];
                                   eexists; split; [reflexivity | exact Ele]]).
Qed.

Lemma scan_calls_linker_edge (tbl : list (string * coord)) (c : node * node * EdgeData)
      (e : Edge) :
  In c (scan_calls geodesic tbl) ->
  e_src e = fst (fst c) -> e_dst e = snd (fst c) -> e_data e = snd c ->
  linker_edge e.
Proof.
  unfold scan_calls. intros H.
  apply in_flat_map in H. destruct H as (n1 & _ & H).
  apply in_flat_map in H. destruct H as (n2 & _ & H).
  eapply pair_calls_linker_edge. eassumption.
Qed.

Lemma Forall2_In_right (A B : Type) (R : A -> B -> Prop) (l : list A) (l' : list B) :
  Forall2 R l l' -> forall b, In b l' -> exists a, In a l /\ R a b.
Proof.
  intros H. induction H as [|a b0 l l' Hab Hrest IH]; intros b Hin; [contradiction|].
  destruct Hin as [<-|Hin].
  - exists a. split; [left; reflexivity | assumption].
  - destruct (IH b Hin) as (a' & Ha' & HR). exists a'. split; [right|]; assumption.
Qed.

(** The scan keeps the edges of the merged graph and appends edges that are
    all transfer edges as the two branches build them. *)
Lemma linker_added_edges (merged walk_graph bike_graph car_graph : Graph) :
  exists added,
    g_edges (_add_interlayer_edges geodesic merged walk_graph bike_graph car_graph)
    = g_edges merged ++ added /\
    Forall linker_edge added.
Proof.
  rewrite linker_calls.
  destruct (fold_add_call_edges
              (scan_calls geodesic (node_positions walk_graph bike_graph car_graph))
              merged) as (added & Hedges & Hall).
  exists added. split; [exact Hedges|].
  apply Forall_forall. intros e He.
  destruct (Forall2_In_right Hall e He) as (c & Hc & Hsrc & Hdst & Hdata).
  eapply scan_calls_linker_edge; eassumption.
Qed.

Lemma add_edge_known_nodes (g : Graph) (u v : node) (attr : EdgeData) :
  has_node g u = true -> has_node g v = true ->
  g_nodes (add_edge g u v attr) = g_nodes g /\
  forall m, has_node (add_edge g u v attr) m = has_node g m.
Proof.
  intros Hu Hv. unfold add_edge. cbn [g_nodes].
  assert (H1 : add_node g u = g) by (unfold add_node; rewrite Hu; reflexivity).
  rewrite H1.
  assert (H2 : add_node g v = g) by (unfold add_node; rewrite Hv; reflexivity).
  rewrite H2. split; reflexivity.
Qed.

Lemma fold_add_call_nodes (calls : list (node * node * EdgeData)) :
  forall g,
    (forall c, In c calls ->
               has_node g (fst (fst c)) = true /\ has_node g (snd (fst c)) = true) ->
    g_nodes (fold_left add_call calls g) = g_nodes g.
Proof.
  induction calls as [|c rest IH]; intros g H; cbn [fold_left]; [reflexivity|].
  destruct (H c (or_introl eq_refl)) as [Hu Hv].
  destruct (@add_edge_known_nodes g _ _ (snd c) Hu Hv) as [Hnodes Hsame].
  rewrite IH.
  - exact Hnodes.
  - intros c' Hc'. unfold add_call. rewrite !Hsame. apply H. right. assumption.
Qed.

Lemma dict_set_keys_in (V : Type) (k k' : string) (v : V) (d : list (string * V)) :
  In k' (map fst (dict_set k v d)) -> k' = k \/ In k' (map fst d).
Proof.
  rewrite dict_set_keys. destruct (existsb (String.eqb k) (map fst d)).
  - intros H. right. assumption.
  - intros H. apply in_app_or in H. destruct H as [H|[H|[]]]; [right | left]; auto.
Qed.

Lemma collect_positions_keys (layer : Graph) (n : node) :
  forall tbl,
    In n (map fst (collect_positions tbl layer)) ->
    In n (map fst tbl) \/ has_node layer n = true.
Proof.
  unfold collect_positions, has_node.
  induction (g_nodes layer) as [|[m nd] rest IH]; intros tbl H; cbn [fold_left] in H.
  - left. assumption.
  - cbn [existsb fst]. apply IH in H. destruct H as [H|H].
    + destruct (nd_y nd); [destruct (nd_x nd)|]; try (left; assumption).
      apply dict_set_keys_in in H. destruct H as [->|H]; [|left; assumption].
      right. rewrite String.eqb_refl. reflexivity.
    + right. rewrite H. apply orb_true_r.
Qed.

Lemma node_positions_keys (walk_graph bike_graph car_graph : Graph) (n : node) :
  In n (map fst (node_positions walk_graph bike_graph car_graph)) ->
  has_node walk_graph n = true \/ has_node bike_graph n = true \/
  has_node car_graph n = true.
Proof.
  unfold node_positions. cbn [fold_left]. intros H.
  apply collect_positions_keys in H. destruct H as [H|H]; [|auto].
  apply collect_positions_keys in H. destruct H as [H|H]; [|auto].
  apply collect_positions_keys in H. destruct H as [[]|H]. auto.
Qed.

(** X13. Interlayer linking only adds: the edges of the merged graph stay,
    in place and unchanged, and every edge appended is a transfer edge
    between two different nodes with [weight = time], either 0.5 min over
    length 0 or 2 min over a measured length of at most 10 m.  When the
    merged graph holds the nodes of the layers, its nodes stay as they
    are. *)
Theorem interlayer_edges_only_adds (merged walk_graph bike_graph car_graph : Graph) :
  (exists added,
      g_edges (_add_interlayer_edges geodesic merged walk_graph bike_graph car_graph)
      = g_edges merged ++ added /\
      Forall linker_edge added) /\
  ((forall n, has_node walk_graph n = true \/ has_node bike_graph n = true \/
              has_node car_graph n = true -> has_node merged n = true) ->
   g_nodes (_add_interlayer_edges geodesic merged walk_graph bike_graph car_graph)
   = g_nodes merged).
Proof.
  split; [apply linker_added_edges|].
  intros Hnodes. rewrite linker_calls. apply fold_add_call_nodes.
  intros c Hc. apply scan_calls_endpoints in Hc. destruct Hc as [Hsrc Hdst].
  split; apply Hnodes; apply node_positions_keys; assumption.
Qed.

Lemma unlocated_calls (tbl : list (string * coord)) (a b : node) :
  dict_get a tbl = None \/ dict_get b tbl = None ->
  filter (to_pair a b) (scan_calls geodesic tbl) = [].
Proof.
  intros H. apply filter_none. intros c Hc.
  apply scan_calls_endpoints in Hc. destruct Hc as [Hsrc Hdst].
  unfold to_pair.
  destruct (String.eqb_spec (fst (fst c)) a) as [Ha|_]; [|reflexivity].
  destruct (String.eqb_spec (snd (fst c)) b) as [Hb|_]; [|reflexivity].
  exfalso. subst a b.
  destruct H as [H|H]; apply dict_get_None_keys in H; contradiction.
Qed.

Lemma scan_calls_symmetric (tbl : list (string * coord)) (a b : node) :
  NoDup (map fst tbl) ->
  Permutation (map snd (filter (to_pair a b) (scan_calls geodesic tbl)))
              (map snd (filter (to_pair b a) (scan_calls geodesic tbl))).
Proof.
  intros Hnd.
  destruct (String.eqb_spec a b) as [->|Hab]; [apply Permutation_refl|].
  destruct (dict_get a tbl) as [pa|] eqn:Ea;
    [|rewrite !unlocated_calls by auto; apply Permutation_refl].
  destruct (dict_get b tbl) as [pb|] eqn:Eb;
    [|rewrite !unlocated_calls by auto; apply Permutation_refl].
  destruct (String.eqb_spec (original_id a) (original_id b)) as [Ho|Ho].
  - rewrite colocated_calls with (pa := pa) (pb := pb) by assumption.
    rewrite colocated_calls with (pa := pb) (pb := pa) by congruence.
    apply Permutation_refl.
  - pose proof (@proximate_calls geodesic tbl a b pa pb Hnd Ea Eb Hab Ho) as H1.
    pose proof (@proximate_calls geodesic tbl b a pb pa Hnd Eb Ea
                                 (not_eq_sym Hab) (not_eq_sym Ho)) as H2.
    apply (Permutation_map snd) in H1. apply (Permutation_map snd) in H2.
    eapply Permutation_trans; [exact H1|].
    eapply Permutation_trans; [|apply Permutation_sym; exact H2].
    rewrite !map_app.
    eapply Permutation_trans; [apply Permutation_app_comm|].
    destruct (Qle_bool (geodesic pa pb) max_transfer_distance),
             (Qle_bool (geodesic pb pa) max_transfer_distance);
      apply Permutation_refl.
Qed.

(** X14. Interlayer linking is symmetric: for any two nodes, the attribute
    dictionaries of the edges it adds from the first to the second are, up
    to order, those of the edges it adds from the second to the first.
    Every mode switch it opens can be taken back at the same price. *)
Theorem interlayer_edges_symmetric (merged walk_graph bike_graph car_graph : Graph)
        (a b : node) :
  exists ab ba,
    map snd (keydict (_add_interlayer_edges geodesic merged walk_graph bike_graph car_graph)
                     a b)
    = map snd (keydict merged a b) ++ ab /\
    map snd (keydict (_add_interlayer_edges geodesic merged walk_graph bike_graph car_graph)
                     b a)
    = map snd (keydict merged b a) ++ ba /\
    Permutation ab ba.
Proof.
  eexists. eexists. split; [|split].
  - rewrite linker_calls, attrs_fold_add_call. reflexivity.
  - rewrite linker_calls, attrs_fold_add_call. reflexivity.
  - apply scan_calls_symmetric. apply node_positions_NoDup.
Qed.

End LinkerMore.

(** ** Building the graph *)

Section Build.

Variable geodesic : coord -> coord -> Q.
Variable _extract_graph : string -> result Graph.

Lemma Forall2_right (A B : Type) (R : A -> B -> Prop) (P : B -> Prop)
      (l : list A) (l' : list B) :
  Forall2 R l l' -> (forall a b, In a l -> R a b -> P b) -> Forall P l'.
Proof.
  intros H. induction H as [|a b l l' Hab Hrest IH]; intros HP; constructor.
  - apply (HP a b); [left; reflexivity | assumption].
  - apply IH. intros a' b' Hin. apply HP. right. assumption.
Qed.

Lemma add_mode_attributes_edges (graph : Graph) (mode : string) (speed_kmh : Q) :
  (0 < speed_kmh)%Q ->
  Forall nonneg_length (g_edges graph) ->
  exists graph',
    _add_mode_attributes graph mode speed_kmh = Ok graph' /\
    g_nodes graph' = g_nodes graph /\
    Forall (fun e => weight_is_time_nonneg e /\ ed_mode (e_data e) = Some mode)
           (g_edges graph').
Proof.
  intros Hpos Hlen.
  assert (Hs : ~ (speed_kmh == 0)%Q).
  { intros H. rewrite H in Hpos. revert Hpos. apply Qlt_irrefl. }
  destruct (tag_edges_total mode (g_edges graph) Hs) as (edges' & Hrun).
  exists (mkGraph (g_nodes graph) edges').
  unfold _add_mode_attributes. rewrite Hrun. cbn [bind g_nodes g_edges].
  split; [reflexivity|]. split; [reflexivity|].
  apply tag_edges_result in Hrun.
  eapply Forall2_right; [exact Hrun|].
  intros e e' Hin Htag. split.
  - eapply tagged_nonneg; [exact Hpos | | exact Htag].
    rewrite Forall_forall in Hlen. apply Hlen. assumption.
  - destruct Htag as (_ & _ & _ & _ & Hm & _). exact Hm.
Qed.

Lemma relabel_nonneg_length (graph : Graph) (mode_suffix : string) :
  Forall nonneg_length (g_edges graph) ->
  Forall nonneg_length (g_edges (_relabel_nodes graph mode_suffix)).
Proof.
  intros H. unfold _relabel_nodes. cbn [g_edges]. apply Forall_map.
  eapply Forall_impl; [|exact H]. intros e He. exact He.
Qed.

Lemma linker_edge_weight (e : Edge) :
  linker_edge e -> weight_is_time_nonneg e /\ known_mode e.
Proof.
  intros (_ & Hm & Hw & Ht). split.
  - unfold weight_is_time_nonneg. rewrite Hw.
    destruct Ht as [[Ht _]|[Ht _]]; rewrite Ht; eexists;
      (split; [reflexivity|]; split; [reflexivity|]; discriminate).
  - exists "transfer"%string. split; [exact Hm|]. cbn. auto.
Qed.

(** X15. When the three extractions succeed, the speeds are positive and
    the lengths non-negative, [build] returns a graph in which every edge,
    road or transfer, has [weight == time >= 0] and one of the modes walk,
    bike, car, transfer. *)
Theorem build_edge_invariant (walk_raw bike_raw car_raw : Graph)
        (walk_speed bike_speed car_speed : Q) :
  _extract_graph "walking" = Ok walk_raw ->
  _extract_graph "cycling" = Ok bike_raw ->
  _extract_graph "driving" = Ok car_raw ->
  (0 < walk_speed)%Q -> (0 < bike_speed)%Q -> (0 < car_speed)%Q ->
  Forall nonneg_length (g_edges walk_raw) ->
  Forall nonneg_length (g_edges bike_raw) ->
  Forall nonneg_length (g_edges car_raw) ->
  exists g,
    build geodesic _extract_graph None true walk_speed bike_speed car_speed
    = Ok (MultiDiGraph g) /\
    Forall (fun e => weight_is_time_nonneg e /\ known_mode e) (g_edges g).
Proof.
  intros Hw Hb Hc Hws Hbs Hcs Hwl Hbl Hcl.
  unfold build. rewrite Hw, Hb, Hc. cbn [bind].
  destruct (@add_mode_attributes_edges
              (_relabel_nodes walk_raw "walk") "walk"%string walk_speed Hws
              (@relabel_nonneg_length walk_raw "walk"%string Hwl))
    as (w & -> & _ & Hwe).
  destruct (@add_mode_attributes_edges
              (_relabel_nodes bike_raw "bike") "bike"%string bike_speed Hbs
              (@relabel_nonneg_length bike_raw "bike"%string Hbl))
    as (b & -> & _ & Hbe).
  destruct (@add_mode_attributes_edges
              (_relabel_nodes car_raw "car") "car"%string car_speed Hcs
              (@relabel_nonneg_length car_raw "car"%string Hcl))
    as (c & -> & _ & Hce).
  cbn [bind]. eexists. split; [reflexivity|].
  destruct (linker_added_edges geodesic (compose_all [w; b; c]) w b c)
    as (added & -> & Hadded).
  apply Forall_app. split.
  - unfold compose_all. cbn [g_edges flat_map]. rewrite app_nil_r.
    assert (Hroad : forall m l,
               In m ["walk"; "bike"; "car"; "transfer"]%string ->
               Forall (fun e => weight_is_time_nonneg e /\ ed_mode (e_data e) = Some m) l ->
               Forall (fun e => weight_is_time_nonneg e /\ known_mode e) l).
    { intros m l Hm Hl. eapply Forall_impl; [|exact Hl].
      intros e [H1 H2]. split; [exact H1|]. exists m. split; assumption. }
    repeat (apply Forall_app; split).
    + apply (Hroad "walk"%string); [cbn; auto | exact Hwe].
    + apply (Hroad "bike"%string); [cbn; auto | exact Hbe].
    + apply (Hroad "car"%string); [cbn; auto | exact Hce].
  - eapply Forall_impl; [|exact Hadded]. intros e. apply linker_edge_weight.
Qed.

Lemma collect_positions_unlocated (layer : Graph) (tbl : list (string * coord)) :
  unlocated (MultiDiGraph layer) -> collect_positions tbl layer = tbl.
Proof.
  unfold unlocated, collect_positions. cbn [nodes].
  induction (g_nodes layer) as [|[n nd] rest IH]; intros H; [reflexivity|].
  cbn [fold_left]. inversion H as [|? ? Hn Hrest]; subst. cbn [snd] in Hn.
  unfold node_position in Hn.
  destruct (nd_y nd); [destruct (nd_x nd)|]; try discriminate; apply IH; assumption.
Qed.

Lemma relabel_unlocated (graph : Graph) (mode_suffix : string) :
  unlocated (MultiDiGraph graph) ->
  unlocated (MultiDiGraph (_relabel_nodes graph mode_suffix)).
Proof.
  unfold unlocated, _relabel_nodes. cbn [nodes g_nodes]. intros H.
  apply Forall_map. eapply Forall_impl; [|exact H]. intros e He. exact He.
Qed.

Lemma add_mode_attributes_nodes (graph graph' : Graph) (mode : string) (speed_kmh : Q) :
  _add_mode_attributes graph mode speed_kmh = Ok graph' ->
  g_nodes graph' = g_nodes graph /\
  Forall (fun e => ed_mode (e_data e) = Some mode) (g_edges graph').
Proof.
  unfold _add_mode_attributes.
  destruct (map_result _ (g_edges graph)) as [edges'|e] eqn:E; [|discriminate].
  cbn [bind]. intros H. injection H as <-. cbn [g_nodes g_edges].
  split; [reflexivity|]. apply tag_edges_result in E.
  eapply Forall2_right; [exact E|].
  intros a b _ (_ & _ & _ & _ & Hm & _). exact Hm.
Qed.

(** X16. When the extracted layers carry no node coordinates, the graph
    [build] returns has no transfer edge and no positioned node, and every
    route request on it raises "Could not find valid nodes", whatever the
    query. *)
Theorem build_without_coordinates (walk_speed bike_speed car_speed : Q) (g : AnyGraph) :
  build geodesic _extract_graph None true walk_speed bike_speed car_speed = Ok g ->
  (forall network_type raw,
      _extract_graph network_type = Ok raw -> unlocated (MultiDiGraph raw)) ->
  unlocated g /\
  (exists merged,
      g = MultiDiGraph merged /\
      Forall (fun e => ed_mode (e_data e) <> Some "transfer"%string) (g_edges merged)) /\
  forall shortest_path start_lat start_lon end_lat end_lon,
    get_multimodal_route geodesic shortest_path g start_lat start_lon end_lat end_lon
    = Raise (ValueError "Could not find valid nodes near the specified coordinates").
Proof.
  unfold build. intros Hbuild Hraw.
  destruct (_extract_graph "walking") as [w0|e] eqn:Ew; [|discriminate].
  destruct (_extract_graph "cycling") as [b0|e] eqn:Eb; [|discriminate].
  destruct (_extract_graph "driving") as [c0|e] eqn:Ec; [|discriminate].
  cbn [bind] in Hbuild.
  destruct (_add_mode_attributes (_relabel_nodes w0 "walk") "walk" walk_speed)
    as [w|e] eqn:Aw; [|discriminate].
  destruct (_add_mode_attributes (_relabel_nodes b0 "bike") "bike" bike_speed)
    as [b|e] eqn:Ab; [|discriminate].
  destruct (_add_mode_attributes (_relabel_nodes c0 "car") "car" car_speed)
    as [c|e] eqn:Ac; [|discriminate].
  cbn [bind] in Hbuild. injection Hbuild as <-.
  apply add_mode_attributes_nodes in Aw, Ab, Ac.
  destruct Aw as [Hwn Hwm], Ab as [Hbn Hbm], Ac as [Hcn Hcm].
  assert (Uw : unlocated (MultiDiGraph w)).
  { unfold unlocated. cbn [nodes]. rewrite Hwn.
    apply (@relabel_unlocated w0 "walk"%string). eapply Hraw. eassumption. }
  assert (Ub : unlocated (MultiDiGraph b)).
  { unfold unlocated. cbn [nodes]. rewrite Hbn.
    apply (@relabel_unlocated b0 "bike"%string). eapply Hraw. eassumption. }
  assert (Uc : unlocated (MultiDiGraph c)).
  { unfold unlocated. cbn [nodes]. rewrite Hcn.
    apply (@relabel_unlocated c0 "car"%string). eapply Hraw. eassumption. }
  assert (Hlinked : _add_interlayer_edges geodesic (compose_all [w; b; c]) w b c
                    = compose_all [w; b; c]).
  { unfold _add_interlayer_edges, node_positions. cbn [fold_left].
    rewrite !collect_positions_unlocated by assumption. reflexivity. }
  rewrite Hlinked.
  assert (Ug : unlocated (MultiDiGraph (compose_all [w; b; c]))).
  { unfold unlocated, compose_all. cbn [nodes g_nodes flat_map]. rewrite app_nil_r.
    repeat (apply Forall_app; split); assumption. }
  split; [exact Ug|]. split.
  - eexists. split; [reflexivity|].
    unfold compose_all. cbn [g_edges flat_map]. rewrite app_nil_r.
    repeat (apply Forall_app; split);
      (eapply Forall_impl; [|eassumption]); intros e He; rewrite He; discriminate.
  - intros sp a1 a2 a3 a4. unfold get_multimodal_route.
    rewrite (proj2 (nearest_node_unlocated_iff geodesic a1 a2 _) Ug). reflexivity.
Qed.

End Build.

(** ** Graph statistics *)

Section Stats.

Lemma list_sum_cons (a : nat) (l : list nat) : list_sum (a :: l) = a + list_sum l.
Proof. reflexivity. Qed.

Lemma dict_set_sum_new (k : string) (v : nat) (d : list (string * nat)) :
  dict_get k d = None ->
  list_sum (map snd (dict_set k v d)) = list_sum (map snd d) + v.
Proof.
  induction d as [|[k' v'] rest IH]; cbn [dict_get dict_set]; intros H.
  - cbn [map snd]. rewrite list_sum_cons. cbn [list_sum fold_right]. lia.
  - destruct (String.eqb k k'); [discriminate|].
    cbn [map snd]. rewrite !list_sum_cons, IH by assumption. lia.
Qed.

Lemma dict_set_sum_old (k : string) (v old : nat) (d : list (string * nat)) :
  dict_get k d = Some old ->
  list_sum (map snd (dict_set k v d)) + old = list_sum (map snd d) + v.
Proof.
  induction d as [|[k' v'] rest IH]; cbn [dict_get dict_set]; intros H; [discriminate|].
  destruct (String.eqb k k').
  - injection H as ->. cbn [map snd]. rewrite !list_sum_cons. lia.
  - cbn [map snd]. rewrite !list_sum_cons. specialize (IH H). lia.
Qed.

Lemma edges_of_mode_snoc (m : string) (seen : list EdgeData) (e : EdgeData) :
  edges_of_mode m (seen ++ [e]) =
    edges_of_mode m seen
    + (if String.eqb (attr_get (ed_mode e) "unknown"%string) m then 1 else 0).
Proof.
  unfold edges_of_mode. rewrite filter_app, length_app. cbn [filter].
  destruct (String.eqb _ m); reflexivity.
Qed.

Lemma tally_tallied (seen : list EdgeData) (mode_stats : list (string * nat))
      (e : EdgeData) :
  tallied seen mode_stats -> tallied (seen ++ [e]) (tally mode_stats e).
Proof.
  intros [Hget Hsum]. unfold tally.
  set (me := attr_get (ed_mode e) "unknown"%string).
  assert (Hcount : forall m, edges_of_mode m (seen ++ [e]) =
                             edges_of_mode m seen + (if String.eqb me m then 1 else 0))
    by (intros m; apply edges_of_mode_snoc).
  pose proof (Hget me) as Hme.
  destruct (dict_get me mode_stats) as [count|] eqn:Eme.
  - destruct (Nat.eqb_spec (edges_of_mode me seen) 0) as [_|Hpos]; [discriminate|].
    injection Hme as ->. split.
    + intros m. rewrite dict_get_set, Hcount, (String.eqb_sym m me).
      destruct (String.eqb_spec me m) as [<-|Hne].
      * destruct (Nat.eqb_spec (edges_of_mode me seen + 1) 0); [lia | reflexivity].
      * rewrite Nat.add_0_r. apply Hget.
    + pose proof (dict_set_sum_old me (edges_of_mode me seen + 1) mode_stats Eme).
      rewrite length_app. cbn [List.length]. lia.
  - destruct (Nat.eqb_spec (edges_of_mode me seen) 0) as [Hzero|_]; [|discriminate].
    split.
    + intros m. rewrite !dict_get_set, Hcount, (String.eqb_sym m me).
      destruct (String.eqb_spec me m) as [<-|Hne].
      * rewrite Hzero. reflexivity.
      * rewrite Nat.add_0_r. apply Hget.
    + pose proof (dict_set_sum_new me 0 mode_stats Eme) as H0.
      assert (E0 : dict_get me (dict_set me 0 mode_stats) = Some 0)
        by (rewrite dict_get_set, String.eqb_refl; reflexivity).
      pose proof (dict_set_sum_old me (0 + 1) (dict_set me 0 mode_stats) E0).
      rewrite length_app. cbn [List.length]. lia.
Qed.

Lemma fold_tally_tallied (edges : list EdgeData) :
  forall seen mode_stats,
    tallied seen mode_stats ->
    tallied (seen ++ edges) (fold_left tally edges mode_stats).
Proof.
  induction edges as [|e rest IH]; intros seen mode_stats H; cbn [fold_left].
  - rewrite app_nil_r. assumption.
  - replace (seen ++ e :: rest) with ((seen ++ [e]) ++ rest)
      by (rewrite <- app_assoc; reflexivity).
    apply IH. apply tally_tallied. assumption.
Qed.

(** X17. The statistics of a built graph list, for every mode that occurs,
    the number of edges of that mode (['unknown'] for an edge without mode)
    and list no other mode; the counts add up to [total_edges], the number
    of edges of the graph. *)
Theorem graph_stats_counts (g : AnyGraph) :
  exists stats,
    get_graph_stats (Some g) = inr stats /\
    total_nodes stats = List.length (nodes g) /\
    total_edges stats = List.length (edges_data g) /\
    (forall m, dict_get m (edges_by_mode stats) =
               if Nat.eqb (edges_of_mode m (edges_data g)) 0 then None
               else Some (edges_of_mode m (edges_data g))) /\
    list_sum (map snd (edges_by_mode stats)) = total_edges stats.
Proof.
  eexists. split; [reflexivity|]. cbn [total_nodes total_edges edges_by_mode].
  split; [reflexivity|]. split; [reflexivity|].
  apply (@fold_tally_tallied (edges_data g) [] []).
  split; [intros m; reflexivity | reflexivity].
Qed.

End Stats.

(** ** Route computation: end to end *)

Section RouteEnds.

Variable geodesic : coord -> coord -> Q.
Variable shortest_path : AnyGraph -> node -> node -> option (list node).

(** The contract of [networkx.shortest_path]: a returned path is a directed
    walk from the source to the target. *)
Hypothesis shortest_path_walk :
  forall g s t p, shortest_path g s t = Some p -> walk g s t p.

Lemma walk_endpoints (g : AnyGraph) (s t : node) (p : list node) :
  walk g s t p ->
  (exists rest, p = s :: rest) /\ last p ""%string = t /\
  (s <> t -> 2 <= List.length p).
Proof.
  intros H. induction H as [|u v p Hw IH He].
  - split; [exists []; reflexivity|]. split; [reflexivity | congruence].
  - destruct IH as ((rest & ->) & _ & _).
    split; [exists (rest ++ [v]); reflexivity|].
    split; [apply (last_snoc (s :: rest))|].
    intros _. rewrite length_app. cbn [List.length]. lia.
Qed.

(** A walk between two different nodes starts with an edge. *)
Lemma walk_first_edge (g : AnyGraph) (s t : node) (p : list node) :
  walk g s t p -> s <> t ->
  exists v rest, p = s :: v :: rest /\ has_edge g s v = true.
Proof.
  intros H.
  assert (Hgen : (p = [s] /\ t = s) \/
                 exists v rest, p = s :: v :: rest /\ has_edge g s v = true).
  { induction H as [|u v p Hw IH He].
    - left. split; reflexivity.
    - right. destruct IH as [[-> ->]|(w & rest & -> & Hsw)].
      + exists v, []. split; [reflexivity | assumption].
      + exists w, (rest ++ [v]). split; [reflexivity | assumption]. }
  intros Hne. destruct Hgen as [[_ ->]|Hgen]; [congruence | assumption].
Qed.

(** X18. Under the contract of the path search, a computed route between
    two different resolved nodes has segments; the first coordinate of its
    first segment is the position of the node nearest to the start, and its
    last segment holds the position of the node nearest to the end. *)
Theorem route_joins_nearest_nodes (graph : AnyGraph)
        (start_lat start_lon end_lat end_lon : Q) (r : Route) (s t : node) :
  get_multimodal_route geodesic shortest_path graph start_lat start_lon end_lat end_lon
  = Ok r ->
  nearest_node geodesic graph start_lat start_lon = Some s ->
  nearest_node geodesic graph end_lat end_lon = Some t ->
  s <> t ->
  exists first others front final cs ct,
    segments r = first :: others /\
    segments r = front ++ [final] /\
    node_coord graph s = Ok cs /\ hd_error (seg_coords first) = Some cs /\
    node_coord graph t = Ok ct /\ coord_in ct (seg_coords final) = true.
Proof.
  unfold get_multimodal_route. intros H Hs Ht Hne. rewrite Hs, Ht in H.
  destruct (shortest_path graph s t) as [path|] eqn:Esp; [|discriminate].
  destruct (_path_to_segments graph path) as [segs|e] eqn:E; [|discriminate].
  cbn [bind] in H. injection H as <-. cbn [segments].
  apply shortest_path_walk in Esp. apply walk_endpoints in Esp.
  destruct Esp as ((rest & ->) & Hlast & Hlen). specialize (Hlen Hne).
  destruct rest as [|v rest']; [cbn in Hlen; lia|].
  destruct (path_to_segments_origin _ _ _ _ E) as (first & others & cs & H1 & Hcs & Hhd).
  destruct (@path_to_segments_destination graph (s :: v :: rest') segs Hlen E)
    as (front & final & ct & H2 & Hct & Hin).
  rewrite Hlast in Hct.
  exists first, others, front, final, cs, ct. repeat split; assumption.
Qed.

(** X19. Once both end points are resolved, route computation raises
    nothing but: "No path found", when the search finds no path; and, a
    path being found, what the assembler raises on that path, which is the
    [KeyError] of one of its nodes that is missing or lacks a coordinate,
    or, on a plain [DiGraph], the [AttributeError] or [IndexError] of one
    of its edges. *)
Theorem route_errors (graph : AnyGraph) (start_lat start_lon end_lat end_lon : Q)
        (s t : node) (e : exn) :
  nearest_node geodesic graph start_lat start_lon = Some s ->
  nearest_node geodesic graph end_lat end_lon = Some t ->
  get_multimodal_route geodesic shortest_path graph start_lat start_lon end_lat end_lon
  = Raise e ->
  (e = ValueError "No path found between the specified points" /\
   shortest_path graph s t = None) \/
  (exists path,
      shortest_path graph s t = Some path /\
      _path_to_segments graph path = Raise e /\
      ((exists n k,
           In n path /\ node_coord graph n = Raise (KeyError k) /\ e = KeyError k) \/
       (exists g u v edge,
           graph = DiGraph g /\ adjacent u v path /\
           plain_get_edge_data g u v = Some edge /\
           e = if no_attrs edge then IndexError else AttributeError))).
Proof.
  unfold get_multimodal_route. intros -> ->.
  destruct (shortest_path graph s t) as [path|] eqn:Esp.
  - destruct (_path_to_segments graph path) as [segs|e'] eqn:E; cbn [bind];
      [discriminate|].
    intros H. injection H as <-. right. exists path.
    split; [reflexivity|]. split; [assumption|].
    apply path_to_segments_raises_at. assumption.
  - intros H. injection H as <-. left. split; reflexivity.
Qed.

Lemma existsb_find (A : Type) (f : A -> bool) (l : list A) :
  existsb f l = true -> exists x, find f l = Some x.
Proof.
  induction l as [|a rest IH]; cbn [existsb find]; [discriminate|].
  destruct (f a); [intros _; eexists; reflexivity | apply IH].
Qed.

(** X21. On a plain [DiGraph], under the contract of the path search, route
    computation between two different resolved nodes never returns a
    route: it raises "No path found", or, a path being found, it raises at
    the first edge of the path, [IndexError] when that edge has no
    attribute and [AttributeError] when it has one. *)
Theorem digraph_never_routes (g : PlainGraph) (start_lat start_lon end_lat end_lon : Q)
        (s t : node) :
  nearest_node geodesic (DiGraph g) start_lat start_lon = Some s ->
  nearest_node geodesic (DiGraph g) end_lat end_lon = Some t ->
  s <> t ->
  (shortest_path (DiGraph g) s t = None /\
   get_multimodal_route geodesic shortest_path (DiGraph g)
                        start_lat start_lon end_lat end_lon
   = Raise (ValueError "No path found between the specified points")) \/
  (exists v rest edge,
      shortest_path (DiGraph g) s t = Some (s :: v :: rest) /\
      plain_get_edge_data g s v = Some edge /\
      get_multimodal_route geodesic shortest_path (DiGraph g)
                           start_lat start_lon end_lat end_lon
      = Raise (if no_attrs edge then IndexError else AttributeError)).
Proof.
  intros Hs Ht Hne. unfold get_multimodal_route. rewrite Hs, Ht.
  destruct (shortest_path (DiGraph g) s t) as [path|] eqn:Esp.
  - right. apply shortest_path_walk in Esp.
    destruct (walk_first_edge Esp Hne) as (v & rest & -> & Hedge).
    cbn [has_edge] in Hedge. apply existsb_find in Hedge.
    destruct Hedge as (edge & Hfind).
    exists v, rest, edge. split; [reflexivity|]. split; [exact Hfind|].
    unfold _path_to_segments.
    change (Nat.ltb (List.length (s :: v :: rest)) 2) with false. cbv iota.
    rewrite assemble_loop_step.
    unfold process_edge at 1, _get_edge_data, plain_get_edge_data.
    unfold plain_get_edge_data in Hfind. rewrite Hfind.
    destruct (no_attrs edge); reflexivity.
  - left. split; reflexivity.
Qed.

End RouteEnds.

(** ** Missing edges and missing attributes on a MultiDiGraph *)

Section MultigraphDefaults.

Variable g : Graph.

(** X20. On a [MultiDiGraph], along a path whose nodes carry coordinates
    the assembler always returns, whatever edges and edge attributes
    exist.  The reads off an edge always return: without an edge from [u]
    to [v] the empty attribute dictionary is resolved and read as ['walk']
    taking [1.0]; a resolved dictionary is read with ['walk'] for a missing
    ['mode'] and [1.0] for a missing ['time']; and these are the mode and
    the time each iteration works with. *)
Theorem assembly_defaults (path : list node) :
  located_path (MultiDiGraph g) path ->
  (exists segs, _path_to_segments (MultiDiGraph g) path = Ok segs) /\
  (forall u v, get_edge_data g u v = None ->
               _get_edge_data (MultiDiGraph g) u v = Ok (Dict empty_attrs) /\
               edge_mode (MultiDiGraph g) u v = Ok "walk"%string /\
               edge_time (MultiDiGraph g) u v = Ok 1%Q) /\
  (forall u v, exists d,
      _get_edge_data (MultiDiGraph g) u v = Ok (Dict d) /\
      edge_mode (MultiDiGraph g) u v = Ok (attr_get (ed_mode d) "walk"%string) /\
      edge_time (MultiDiGraph g) u v = Ok (attr_get (ed_time d) 1%Q)) /\
  (forall st st' u v,
      process_edge (MultiDiGraph g) st u v = Ok st' ->
      exists mode time,
        edge_mode (MultiDiGraph g) u v = Ok mode /\
        edge_time (MultiDiGraph g) u v = Ok time /\
        current_mode st' = Some mode /\
        current_time st' =
          ((match current_mode st with
            | Some m => if String.eqb mode m then current_time st else 0
            | None => current_time st
            end) + time)%Q).
Proof.
  intros Hloc. split; [apply path_to_segments_total; assumption|].
  split; [|split].
  - intros u v H. unfold edge_mode, edge_time, _get_edge_data. rewrite H.
    repeat split.
  - intros u v. apply multigraph_edge_reads.
  - intros st st' u v H.
    destruct (process_edge_inv _ _ _ _ H) as (mode & time & c & Hm & Ht & _ & ->).
    exists mode, time. split; [assumption|]. split; [assumption|].
    apply accrue_reads.
Qed.

End MultigraphDefaults.

(** ** The further properties at concrete inputs *)

Lemma plain_city_unlocated : unlocated (MultiDiGraph plain_city).
Proof. repeat constructor. Qed.

Lemma nearest_node_none_iff_witness :
  unlocated (MultiDiGraph plain_city) /\
  nearest_node planar_metres (MultiDiGraph plain_city) 52.37 4.88 = None.
Proof.
  split; [exact plain_city_unlocated|].
  apply (proj2 (nearest_node_none_iff planar_metres 52.37 4.88 (MultiDiGraph plain_city))).
  exact plain_city_unlocated.
Defined.

Lemma nearest_node_first_minimum_witness :
  nearest_node planar_metres (MultiDiGraph city) 52.37 4.88 = Some "A_walk"%string /\
  exists before nd after p,
    nodes (MultiDiGraph city) = before ++ ("A_walk"%string, nd) :: after /\
    node_position nd = Some p /\
    (forall m md p', In (m, md) before -> node_position md = Some p' ->
                     (planar_metres (52.37, 4.88) p < planar_metres (52.37, 4.88) p')%Q) /\
    (forall m md p', In (m, md) after -> node_position md = Some p' ->
                     (planar_metres (52.37, 4.88) p <= planar_metres (52.37, 4.88) p')%Q).
Proof.
  split; [reflexivity|].
  apply (@nearest_node_first_minimum planar_metres 52.37%Q 4.88%Q (MultiDiGraph city)
                                     "A_walk"%string).
  reflexivity.
Defined.

Lemma path_to_segments_first_missing_witness :
  2 <= List.length ["A_walk"; "nowhere"]%string /\
  located_path (MultiDiGraph edgeless) ["A_walk"]%string /\
  node_coord (MultiDiGraph edgeless) "nowhere" = Raise (KeyError "nowhere") /\
  _path_to_segments (MultiDiGraph edgeless) ["A_walk"; "nowhere"]%string
  = Raise (KeyError "nowhere").
Proof.
  assert (Hlen : 2 <= List.length ["A_walk"; "nowhere"]%string)
    by (simpl; lia).
  assert (Hloc : located_path (MultiDiGraph edgeless) ["A_walk"]%string).
  { intros n [<-|[]]. eexists. reflexivity. }
  split; [exact Hlen|]. split; [exact Hloc|]. split; [reflexivity|].
  exact (proj1 (@path_to_segments_first_missing
                  edgeless ["A_walk"]%string [] "nowhere"%string
                  (KeyError "nowhere") Hlen Hloc eq_refl)).
Defined.

Lemma route_no_valid_nodes_iff_witness :
  unlocated (MultiDiGraph plain_city) /\
  get_multimodal_route planar_metres relaxation_search (MultiDiGraph plain_city)
                       52.37 4.88 52.37 4.9168
  = Raise (ValueError "Could not find valid nodes near the specified coordinates").
Proof.
  split; [exact plain_city_unlocated|].
  apply (proj2 (route_no_valid_nodes_iff planar_metres relaxation_search
                                         (MultiDiGraph plain_city)
                                         52.37 4.88 52.37 4.9168)).
  exact plain_city_unlocated.
Defined.

Lemma segments_are_runs_witness :
  _path_to_segments (MultiDiGraph city) scenario_path = Ok (segments scenario_route) /\
  exists steps,
    edge_steps (MultiDiGraph city) scenario_path = Ok steps /\
    map segment_summary (segments scenario_route) = map run_summary (runs steps).
Proof.
  split; [reflexivity|].
  apply (@segments_are_runs (MultiDiGraph city) scenario_path (segments scenario_route)).
  reflexivity.
Defined.

Lemma segment_modes_alternate_witness :
  _path_to_segments (MultiDiGraph city) scenario_path = Ok (segments scenario_route) /\
  no_repeat (map seg_mode (segments scenario_route)).
Proof.
  split; [reflexivity|].
  apply (@segment_modes_alternate (MultiDiGraph city) scenario_path
                                  (segments scenario_route)).
  reflexivity.
Defined.

Lemma first_segment_starts_at_origin_witness :
  _path_to_segments (MultiDiGraph city) scenario_path = Ok (segments scenario_route) /\
  exists s others c,
    segments scenario_route = s :: others /\
    node_coord (MultiDiGraph city) "A_walk" = Ok c /\
    hd_error (seg_coords s) = Some c.
Proof.
  split; [reflexivity|].
  apply (@first_segment_starts_at_origin
           (MultiDiGraph city) "A_walk"%string "B_walk"%string ["B_car"; "C_car"]%string
           (segments scenario_route)).
  reflexivity.
Defined.

Lemma original_id_relabel_witness :
  underscore_free "42" = true /\ original_id (relabel_name "walk" "42") = "42"%string.
Proof.
  split; [reflexivity|].
  apply (proj2 (original_id_relabel "walk" "42")). reflexivity.
Defined.

Lemma add_mode_attributes_overwrites_witness :
  _add_mode_attributes walk_layer "walk" 5 = Ok walk_tagged /\
  _add_mode_attributes walk_tagged "car" 40 = _add_mode_attributes walk_layer "car" 40 /\
  _add_mode_attributes walk_tagged "walk" 5 = Ok walk_tagged.
Proof.
  split; [reflexivity|].
  apply (@add_mode_attributes_overwrites walk_layer walk_tagged
                                         "walk"%string "car"%string 5%Q 40%Q).
  reflexivity.
Defined.

Lemma add_mode_attributes_raises_iff_witness :
  (0 == 0)%Q /\
  Exists (fun ed => ed_length (e_data ed) <> None) (g_edges walk_layer) /\
  _add_mode_attributes walk_layer "walk" 0 = Raise ZeroDivisionError.
Proof.
  assert (Hex : Exists (fun ed => ed_length (e_data ed) <> None) (g_edges walk_layer))
    by (left; discriminate).
  split; [reflexivity|]. split; [exact Hex|].
  apply (proj2 (add_mode_attributes_raises_iff walk_layer "walk" 0 ZeroDivisionError)).
  split; [reflexivity|]. split; [reflexivity | exact Hex].
Defined.

Lemma interlayer_edges_only_adds_witness :
  (forall n, has_node kerb_walk n = true \/ has_node kerb_bike n = true \/
             has_node no_layer n = true -> has_node kerb_merged n = true) /\
  g_nodes (_add_interlayer_edges planar_metres kerb_merged kerb_walk kerb_bike no_layer)
  = g_nodes kerb_merged.
Proof.
  assert (Hnodes : forall n, has_node kerb_walk n = true \/ has_node kerb_bike n = true \/
                             has_node no_layer n = true -> has_node kerb_merged n = true).
  { intros n. unfold has_node, kerb_merged, compose_all, kerb_walk, kerb_bike, no_layer,
                located.
    cbn [g_nodes flat_map app existsb fst].
    destruct (String.eqb "1_walk" n), (String.eqb "2_bike" n); cbn [orb];
      intros [H|[H|H]]; try discriminate H; reflexivity. }
  split; [exact Hnodes|].
  apply (proj2 (interlayer_edges_only_adds planar_metres kerb_merged
                                           kerb_walk kerb_bike no_layer)).
  exact Hnodes.
Defined.

Lemma build_edge_invariant_witness :
  build planar_metres scenario_extract None true 5 15 40 = Ok (MultiDiGraph city) /\
  exists g,
    build planar_metres scenario_extract None true 5 15 40 = Ok (MultiDiGraph g) /\
    Forall (fun e => weight_is_time_nonneg e /\ known_mode e) (g_edges g).
Proof.
  split; [reflexivity|].
  apply (@build_edge_invariant planar_metres scenario_extract
                               raw_walk (mkGraph [] []) raw_car 5%Q 15%Q 40%Q);
    try reflexivity.
  - repeat constructor. intros len H. injection H as <-. discriminate.
  - constructor.
  - repeat constructor. intros len H. injection H as <-. discriminate.
Defined.

Lemma build_without_coordinates_witness :
  build planar_metres plain_extract None true 5 15 40 = Ok (MultiDiGraph plain_city) /\
  (forall network_type raw,
      plain_extract network_type = Ok raw -> unlocated (MultiDiGraph raw)) /\
  unlocated (MultiDiGraph plain_city) /\
  (exists merged,
      MultiDiGraph plain_city = MultiDiGraph merged /\
      Forall (fun e => ed_mode (e_data e) <> Some "transfer"%string) (g_edges merged)) /\
  forall shortest_path start_lat start_lon end_lat end_lon,
    get_multimodal_route planar_metres shortest_path (MultiDiGraph plain_city)
                         start_lat start_lon end_lat end_lon
    = Raise (ValueError "Could not find valid nodes near the specified coordinates").
Proof.
  assert (Hraw : forall network_type raw,
             plain_extract network_type = Ok raw -> unlocated (MultiDiGraph raw)).
  { intros t raw. unfold plain_extract.
    destruct (String.eqb t "walking"); [|destruct (String.eqb t "cycling")];
      intros H; injection H as <-; repeat constructor. }
  split; [reflexivity|]. split; [exact Hraw|].
  apply (@build_without_coordinates planar_metres plain_extract 5%Q 15%Q 40%Q
                                    (MultiDiGraph plain_city)).
  - reflexivity.
  - exact Hraw.
Defined.

Lemma route_joins_nearest_nodes_witness :
  get_multimodal_route planar_metres relaxation_search (MultiDiGraph city)
                       52.37 4.88 52.37 4.9168
  = Ok scenario_route /\
  exists first others front final cs ct,
    segments scenario_route = first :: others /\
    segments scenario_route = front ++ [final] /\
    node_coord (MultiDiGraph city) "A_walk" = Ok cs /\
    hd_error (seg_coords first) = Some cs /\
    node_coord (MultiDiGraph city) "C_car" = Ok ct /\
    coord_in ct (seg_coords final) = true.
Proof.
  split; [reflexivity|].
  apply (@route_joins_nearest_nodes
           planar_metres relaxation_search relaxation_search_walk (MultiDiGraph city)
           52.37%Q 4.88%Q 52.37%Q 4.9168%Q scenario_route "A_walk"%string "C_car"%string);
    try reflexivity.
  discriminate.
Defined.

Lemma route_errors_witness :
  nearest_node planar_metres (MultiDiGraph unlinked_city) 52.37 4.88
  = Some "A_walk"%string /\
  nearest_node planar_metres (MultiDiGraph unlinked_city) 52.37 4.9168
  = Some "C_car"%string /\
  get_multimodal_route planar_metres relaxation_search (MultiDiGraph unlinked_city)
                       52.37 4.88 52.37 4.9168
  = Raise (ValueError "No path found between the specified points") /\
  relaxation_search (MultiDiGraph unlinked_city) "A_walk" "C_car" = None.
Proof.
  assert (Hrun : get_multimodal_route planar_metres relaxation_search
                                      (MultiDiGraph unlinked_city)
                                      52.37 4.88 52.37 4.9168
                 = Raise (ValueError "No path found between the specified points"))
    by reflexivity.
  split; [reflexivity|]. split; [reflexivity|]. split; [exact Hrun|].
  destruct (@route_errors planar_metres relaxation_search (MultiDiGraph unlinked_city)
                          52.37%Q 4.88%Q 52.37%Q 4.9168%Q
                          "A_walk"%string "C_car"%string _ eq_refl eq_refl Hrun)
    as [[_ H]|(path & H & _)].
  - exact H.
  - discriminate H.
Defined.

Lemma assembly_defaults_witness :
  located_path (MultiDiGraph edgeless) ["A_walk"; "C_car"]%string /\
  get_edge_data edgeless "A_walk" "C_car" = None /\
  _path_to_segments (MultiDiGraph edgeless) ["A_walk"; "C_car"]%string
  = Ok [mkSegment "walk" [pos_A; pos_C] 1 0] /\
  exists segs, _path_to_segments (MultiDiGraph edgeless) ["A_walk"; "C_car"]%string
               = Ok segs.
Proof.
  assert (Hloc : located_path (MultiDiGraph edgeless) ["A_walk"; "C_car"]%string).
  { intros n [<-|[<-|[]]]; eexists; reflexivity. }
  split; [exact Hloc|]. split; [reflexivity|]. split; [reflexivity|].
  exact (proj1 (@assembly_defaults edgeless ["A_walk"; "C_car"]%string Hloc)).
Defined.

Lemma digraph_never_routes_witness :
  nearest_node planar_metres (DiGraph cached_street) 52.37 4.88 = Some "A"%string /\
  nearest_node planar_metres (DiGraph cached_street) 52.37 4.8874 = Some "B"%string /\
  "A"%string <> "B"%string /\
  exists v rest edge,
    relaxation_search (DiGraph cached_street) "A" "B" = Some ("A"%string :: v :: rest) /\
    plain_get_edge_data cached_street "A" v = Some edge /\
    get_multimodal_route planar_metres relaxation_search (DiGraph cached_street)
                         52.37 4.88 52.37 4.8874
    = Raise (if no_attrs edge then IndexError else AttributeError).
Proof.
  assert (Hne : "A"%string <> "B"%string) by discriminate.
  split; [reflexivity|]. split; [reflexivity|]. split; [exact Hne|].
  destruct (@digraph_never_routes
              planar_metres relaxation_search relaxation_search_walk cached_street
              52.37%Q 4.88%Q 52.37%Q 4.8874%Q "A"%string "B"%string
              eq_refl eq_refl Hne)
    as [[H _]|H].
  - discriminate H.
  - exact H.
Defined.
